(** * pgx / pgxpool: the argument converter and the connection pool

    A shallow embedding of [messages.go] (package pgx) and of the pool
    (package pgxpool: configuration parsing, pool construction, the
    acquisition loop, the health maintainer and the long-lived query
    operations), with the properties the specification states about them.

    Conventions.
    - Go's [int32] and [time.Duration] are [Z]; a conversion to [int32] is the
      function [int32], with its wrap-around written out.
    - A Go [(T, error)] result is a sum [error + T].
    - A Go map is a [gmap]; a slice mutated in place is a list threaded
      through the function that mutates it.
    - Collaborators whose code is outside the repository (the wire-level
      connection, the connection-string parser, the Go runtime) are the
      methods of a class; they and the user hooks act on a state [E] of the
      outside world.
    - The core pool (package puddle) is outside the repository as well; its
      operations are modelled from section 4.1 of the specification, on
      sequential runs: an operation that would block parks its caller. *)

From Stdlib Require Import ZArith Lia Ascii String List.
From stdpp Require Import base option list gmap strings pretty.

Local Open Scope string_scope.
Local Open Scope list_scope.
Local Open Scope Z_scope.

(** ** Errors *)

(** The [error] values the embedded code produces or passes along.
    [Errorf_w prefix cause] is [errors.Errorf(prefix + "%w", cause)] and
    [Errorf_d prefix n] is [errors.Errorf(prefix + "%d", n)]. *)
Inductive error : Type :=
| ErrOpaque (msg : string)
| ErrSyntax (fn num : string)
| ErrRange (fn num : string)
| Errorf_w (prefix : string) (cause : error)
| Errorf_d (prefix : string) (n : Z).

(** The double-quote character, as a string. *)
Definition dquote : string := String (ascii_of_nat 34) EmptyString.

(** [err.Error()]. The message of a [strconv.NumError] quotes the number. *)
Fixpoint Error (e : error) : string :=
  match e with
  | ErrOpaque msg => msg
  | ErrSyntax fn num =>
    "strconv." +:+ fn +:+ ": parsing " +:+ dquote +:+ num +:+ dquote +:+ ": invalid syntax"
  | ErrRange fn num =>
    "strconv." +:+ fn +:+ ": parsing " +:+ dquote +:+ num +:+ dquote +:+ ": value out of range"
  | Errorf_w prefix cause => prefix +:+ Error cause
  | Errorf_d prefix n => prefix +:+ pretty n
  end.

(** An error names a key when the key occurs in its message. *)
Definition names_key (e : error) (key : string) : Prop :=
  exists pre post : string, Error e = pre +:+ key +:+ post.

(** ** messages.go: convertDriverValuers *)

(** What the converter observes of an [interface{}] value: the type
    assertion to [SensitiveData], the three interfaces of the type switch,
    and [callValuerValue]. *)
Class GoValue (V : Type) : Type := {
  asSensitiveData : V -> option V;
  isBinaryEncoder : V -> bool;
  isTextEncoder : V -> bool;
  isValuer : V -> bool;
  callValuerValue : V -> error + V
}.

(** The cases of the type switch, in the order the switch tries them. *)
Inductive switch_case : Type :=
| CaseBinaryEncoder
| CaseTextEncoder
| CaseValuer
| CaseNone.

Definition type_switch {V : Type} `{GoValue V} (arg : V) : switch_case :=
  if isBinaryEncoder arg then CaseBinaryEncoder
  else if isTextEncoder arg then CaseTextEncoder
  else if isValuer arg then CaseValuer
  else CaseNone.

(** [arg.(SensitiveData)] and the assignment [arg = sens.Value]. *)
Definition unwrapSensitive {V : Type} `{GoValue V} (arg : V) : V :=
  match asSensitiveData arg with
  | Some inner => inner
  | None => arg
  end.

(** The loop of [convertDriverValuers] from index [i] on, with [n] elements
    left to visit. The first component is the caller's slice after the call;
    the second is the returned pair: [inl err] for [(nil, err)], [inr args]
    for [(args, nil)]. *)
Fixpoint convertLoop {V : Type} `{GoValue V} (n i : nat) (args : list V)
  : list V * (error + list V) :=
  match n with
  | O => (args, inr args)
  | S n' =>
    match args !! i with
    | None => (args, inr args)
    | Some arg0 =>
      let arg := unwrapSensitive arg0 in
      let args := match asSensitiveData arg0 with
                  | Some _ => <[i := arg]> args
                  | None => args
                  end in
      match type_switch arg with
      | CaseBinaryEncoder => convertLoop n' (S i) args
      | CaseTextEncoder => convertLoop n' (S i) args
      | CaseValuer =>
        match callValuerValue arg with
        | inl err => (args, inl err)
        | inr v => convertLoop n' (S i) (<[i := v]> args)
        end
      | CaseNone => convertLoop n' (S i) args
      end
    end
  end.

Definition convertDriverValuers {V : Type} `{GoValue V} (args : list V)
  : list V * (error + list V) :=
  convertLoop (length args) 0 args.

(** What one iteration leaves in its slot when it does not fail. *)
Definition convertedArg {V : Type} `{GoValue V} (arg0 : V) : V :=
  let arg := unwrapSensitive arg0 in
  match type_switch arg with
  | CaseValuer => match callValuerValue arg with
                  | inr v => v
                  | inl _ => arg
                  end
  | _ => arg
  end.

(** The error of the iteration on [arg0], if it has one. *)
Definition argFailure {V : Type} `{GoValue V} (arg0 : V) : option error :=
  let arg := unwrapSensitive arg0 in
  match type_switch arg with
  | CaseValuer => match callValuerValue arg with
                  | inl err => Some err
                  | inr _ => None
                  end
  | _ => None
  end.

(** The first index whose iteration fails, with its error. *)
Fixpoint firstFailure {V : Type} `{GoValue V} (args : list V) : option (nat * error) :=
  match args with
  | [] => None
  | arg0 :: args =>
    match argFailure arg0 with
    | Some err => Some (O, err)
    | None => match firstFailure args with
              | Some (k, err) => Some (S k, err)
              | None => None
              end
    end
  end.

(** The slice a call leaves behind, told element by element: what the
    converter's description says. *)
Definition convertedSlice {V : Type} `{GoValue V} (args : list V) : list V :=
  match firstFailure args with
  | None => map convertedArg args
  | Some (k, _) =>
    map convertedArg (take k args) ++ map unwrapSensitive (take 1 (drop k args))
      ++ drop (S k) args
  end.

(** *** The converter's description, argument by argument

    A second description of the converter, in the words of its contract and
    in terms of what a value is observed to be, to compare the loop with. *)

(** [u] is the argument after the first step: the inner value of a
    [SensitiveData], the argument itself otherwise. *)
Definition unwrapped {V : Type} `{GoValue V} (arg0 u : V) : Prop :=
  match asSensitiveData arg0 with
  | Some inner => u = inner
  | None => u = arg0
  end.

(** The argument [arg0] is converted and its slot ends as [slot]: the
    unwrapped argument when that is a [BinaryEncoder] or a [TextEncoder] or
    no [driver.Valuer], the result of its [Value] method otherwise. *)
Definition replaced_by {V : Type} `{GoValue V} (arg0 slot : V) : Prop :=
  exists u : V,
    unwrapped arg0 u
    /\ (isBinaryEncoder u = true /\ slot = u
        \/ isBinaryEncoder u = false /\ isTextEncoder u = true /\ slot = u
        \/ isBinaryEncoder u = false /\ isTextEncoder u = false /\ isValuer u = true
           /\ callValuerValue u = inr slot
        \/ isBinaryEncoder u = false /\ isTextEncoder u = false /\ isValuer u = false
           /\ slot = u).

(** The conversion of [arg0] fails with [err]: unwrapped it is a
    [driver.Valuer] and no encoder, and its [Value] method fails; its slot
    keeps the unwrapped argument [u]. *)
Definition fails_with {V : Type} `{GoValue V} (arg0 u : V) (err : error) : Prop :=
  unwrapped arg0 u
  /\ isBinaryEncoder u = false /\ isTextEncoder u = false /\ isValuer u = true
  /\ callValuerValue u = inl err.

(** A small universe of values to evaluate the converter on. *)
Inductive sample_value : Type :=
| VInt (n : Z)
| VSensitive (inner : sample_value)
| VBinary (n : Z)          (* implements BinaryEncoder and Valuer *)
| VText (n : Z)            (* implements TextEncoder and Valuer *)
| VValuer (n : Z)          (* Value() returns n *)
| VBadValuer (msg : string) (* Value() fails *).

#[export] Instance sample_GoValue : GoValue sample_value := {
  asSensitiveData v := match v with VSensitive inner => Some inner | _ => None end;
  isBinaryEncoder v := match v with VBinary _ => true | _ => false end;
  isTextEncoder v := match v with VText _ => true | _ => false end;
  isValuer v := match v with
                | VBinary _ | VText _ | VValuer _ | VBadValuer _ => true
                | _ => false
                end;
  callValuerValue v := match v with
                       | VBadValuer msg => inl (ErrOpaque msg)
                       | VValuer n | VBinary n | VText n => inr (VInt n)
                       | _ => inr v
                       end
}.

(** ** Go's standard library, as far as the pool uses it *)

(** Conversion to [int32]: the low 32 bits, read as a signed number. *)
Definition int32 (n : Z) : Z := (n + 2 ^ 31) mod 2 ^ 32 - 2 ^ 31.

Definition is_digit (c : ascii) : bool :=
  (48 <=? Z.of_nat (nat_of_ascii c)) && (Z.of_nat (nat_of_ascii c) <=? 57).

Definition digit_value (c : ascii) : Z := Z.of_nat (nat_of_ascii c) - 48.

(** The digits of a base-10 number, most significant first; [None] on a
    character that is not a digit. *)
Fixpoint parse_digits (acc : Z) (s : string) : option Z :=
  match s with
  | EmptyString => Some acc
  | String c s' =>
    if is_digit c then parse_digits (10 * acc + digit_value c) s' else None
  end.

(** The result of [strconv.ParseUint]: a value, a syntax error or a range
    error. *)
Inductive uint_result : Type :=
| UintOk (n : Z)
| UintSyntax
| UintRange.

(** The loop of [strconv.ParseUint(s, 10, bitSize)] from the value [n] on,
    character by character: a character that is no digit is a syntax error;
    a value above [maxVal], the greatest [bitSize]-bit number, is a range
    error, returned at the digit that exceeds it, whatever follows. ([n] is
    at most [maxVal], so the two tests of the source, [n >= cutoff] and
    [n1 < n || n1 > maxVal], on [uint64] say that [10 * n + d] exceeds
    [maxVal].) *)
Fixpoint parseUint_loop (maxVal n : Z) (s : string) : uint_result :=
  match s with
  | EmptyString => UintOk n
  | String c s' =>
    if is_digit c then
      let n1 := 10 * n + digit_value c in
      if maxVal <? n1 then UintRange else parseUint_loop maxVal n1 s'
    else UintSyntax
  end.

(** [strconv.ParseUint(s, 10, bitSize)]; the empty string is a syntax
    error. *)
Definition strconv_ParseUint (s : string) (bitSize : Z) : uint_result :=
  match s with
  | EmptyString => UintSyntax
  | _ => parseUint_loop (2 ^ bitSize - 1) 0 s
  end.

(** [strconv.ParseInt(s, 10, bitSize)]: an optional sign, then
    [ParseUint]; its syntax error is returned, its range error leaves the
    greatest [bitSize]-bit number as the value; a value outside the signed
    [bitSize]-bit range is a range error. *)
Definition strconv_ParseInt (s : string) (bitSize : Z) : error + Z :=
  match s with
  | EmptyString => inl (ErrSyntax "ParseInt" s)
  | String c s' =>
    let '(neg, body) :=
      if Ascii.eqb c "+"%char then (false, s')
      else if Ascii.eqb c "-"%char then (true, s')
      else (false, s) in
    match strconv_ParseUint body bitSize with
    | UintSyntax => inl (ErrSyntax "ParseInt" s)
    | r =>
      let un := match r with UintOk n => n | _ => 2 ^ bitSize - 1 end in
      let cutoff := 2 ^ (bitSize - 1) in
      if negb neg && (cutoff <=? un) then inl (ErrRange "ParseInt" s)
      else if neg && (cutoff <? un) then inl (ErrRange "ParseInt" s)
      else inr (if neg then - un else un)
    end
  end.

(** [time.Duration] counts nanoseconds. *)
Definition time_Nanosecond : Z := 1.
Definition time_Millisecond : Z := 1000000 * time_Nanosecond.
Definition time_Second : Z := 1000 * time_Millisecond.
Definition time_Minute : Z := 60 * time_Second.
Definition time_Hour : Z := 60 * time_Minute.

(** A [context.Context], as far as the pool looks at it: the error of a
    token that has fired, and the timeout it carries. *)
Record Context : Type := {
  ctx_err : option error;
  ctx_timeout : option Z
}.

Definition context_Background : Context :=
  {| ctx_err := None; ctx_timeout := None |}.

Definition context_WithTimeout (parent : Context) (d : Z) : Context :=
  {| ctx_err := ctx_err parent;
     ctx_timeout := Some (match ctx_timeout parent with
                          | Some d' => Z.min d d'
                          | None => d
                          end) |}.

(** ** Configuration *)

(** The identity of a [*pgx.Conn]. *)
Definition PgxConn : Type := nat.

(** [pgx.ConnConfig]: the runtime parameters the pool reads its keys from,
    and the transport settings, which the pool never looks into. *)
Record pgx_ConnConfig : Type := {
  RuntimeParams : gmap string string;
  Transport : string
}.

(** The [Copy] method of [pgx.ConnConfig]: a deep copy; values have no
    identity here. *)
Definition ConnConfig_Copy (c : pgx_ConnConfig) : pgx_ConnConfig := c.

Definition defaultMaxConns : Z := int32 4.
Definition defaultMinConns : Z := int32 0.
Definition defaultMaxConnLifetime : Z := time_Hour.
Definition defaultMaxConnIdleTime : Z := time_Minute * 30.
Definition defaultHealthCheckPeriod : Z := time_Minute.

(** What [ParseConfig] calls outside the repository. *)
Class ParseEnv : Type := {
  pgx_ParseConfig : string -> error + pgx_ConnConfig;
  time_ParseDuration : string -> error + Z;
  runtime_NumCPU : Z
}.

Section Configuration.
Context {E : Type}.

(** [Config]. A hook is a function on the state [E] of the outside world;
    [None] is a nil hook. [BeforeConnect] may change the copy it is given. *)
Record Config : Type := {
  ConnConfig : pgx_ConnConfig;
  BeforeConnect : option (Context -> pgx_ConnConfig -> E -> (option error * pgx_ConnConfig) * E);
  AfterConnect : option (Context -> PgxConn -> E -> option error * E);
  BeforeAcquire : option (Context -> PgxConn -> E -> bool * E);
  AfterRelease : option (PgxConn -> E -> bool * E);
  MaxConnLifetime : Z;
  MaxConnIdleTime : Z;
  MaxConns : Z;
  MinConns : Z;
  HealthCheckPeriod : Z;
  LazyConnect : bool;
  createdByParseConfig : bool
}.

(** [&Config{ConnConfig: connConfig, createdByParseConfig: true}]: every
    other field has its zero value. *)
Definition newConfig (connConfig : pgx_ConnConfig) : Config :=
  {| ConnConfig := connConfig;
     BeforeConnect := None; AfterConnect := None;
     BeforeAcquire := None; AfterRelease := None;
     MaxConnLifetime := 0; MaxConnIdleTime := 0;
     MaxConns := 0; MinConns := 0;
     HealthCheckPeriod := 0;
     LazyConnect := false;
     createdByParseConfig := true |}.

Definition set_RuntimeParams (m : gmap string string) (c : Config) : Config :=
  {| ConnConfig := {| RuntimeParams := m; Transport := Transport (ConnConfig c) |};
     BeforeConnect := BeforeConnect c; AfterConnect := AfterConnect c;
     BeforeAcquire := BeforeAcquire c; AfterRelease := AfterRelease c;
     MaxConnLifetime := MaxConnLifetime c; MaxConnIdleTime := MaxConnIdleTime c;
     MaxConns := MaxConns c; MinConns := MinConns c;
     HealthCheckPeriod := HealthCheckPeriod c;
     LazyConnect := LazyConnect c;
     createdByParseConfig := createdByParseConfig c |}.

Definition set_MaxConns (n : Z) (c : Config) : Config :=
  {| ConnConfig := ConnConfig c;
     BeforeConnect := BeforeConnect c; AfterConnect := AfterConnect c;
     BeforeAcquire := BeforeAcquire c; AfterRelease := AfterRelease c;
     MaxConnLifetime := MaxConnLifetime c; MaxConnIdleTime := MaxConnIdleTime c;
     MaxConns := n; MinConns := MinConns c;
     HealthCheckPeriod := HealthCheckPeriod c;
     LazyConnect := LazyConnect c;
     createdByParseConfig := createdByParseConfig c |}.

Definition set_MinConns (n : Z) (c : Config) : Config :=
  {| ConnConfig := ConnConfig c;
     BeforeConnect := BeforeConnect c; AfterConnect := AfterConnect c;
     BeforeAcquire := BeforeAcquire c; AfterRelease := AfterRelease c;
     MaxConnLifetime := MaxConnLifetime c; MaxConnIdleTime := MaxConnIdleTime c;
     MaxConns := MaxConns c; MinConns := n;
     HealthCheckPeriod := HealthCheckPeriod c;
     LazyConnect := LazyConnect c;
     createdByParseConfig := createdByParseConfig c |}.

Definition set_MaxConnLifetime (d : Z) (c : Config) : Config :=
  {| ConnConfig := ConnConfig c;
     BeforeConnect := BeforeConnect c; AfterConnect := AfterConnect c;
     BeforeAcquire := BeforeAcquire c; AfterRelease := AfterRelease c;
     MaxConnLifetime := d; MaxConnIdleTime := MaxConnIdleTime c;
     MaxConns := MaxConns c; MinConns := MinConns c;
     HealthCheckPeriod := HealthCheckPeriod c;
     LazyConnect := LazyConnect c;
     createdByParseConfig := createdByParseConfig c |}.

Definition set_MaxConnIdleTime (d : Z) (c : Config) : Config :=
  {| ConnConfig := ConnConfig c;
     BeforeConnect := BeforeConnect c; AfterConnect := AfterConnect c;
     BeforeAcquire := BeforeAcquire c; AfterRelease := AfterRelease c;
     MaxConnLifetime := MaxConnLifetime c; MaxConnIdleTime := d;
     MaxConns := MaxConns c; MinConns := MinConns c;
     HealthCheckPeriod := HealthCheckPeriod c;
     LazyConnect := LazyConnect c;
     createdByParseConfig := createdByParseConfig c |}.

Definition set_HealthCheckPeriod (d : Z) (c : Config) : Config :=
  {| ConnConfig := ConnConfig c;
     BeforeConnect := BeforeConnect c; AfterConnect := AfterConnect c;
     BeforeAcquire := BeforeAcquire c; AfterRelease := AfterRelease c;
     MaxConnLifetime := MaxConnLifetime c; MaxConnIdleTime := MaxConnIdleTime c;
     MaxConns := MaxConns c; MinConns := MinConns c;
     HealthCheckPeriod := d;
     LazyConnect := LazyConnect c;
     createdByParseConfig := createdByParseConfig c |}.

(** [delete(connConfig.Config.RuntimeParams, key)]; [config.ConnConfig] is
    the same pointer, so the config sees the deletion. *)
Definition delete_param (key : string) (c : Config) : Config :=
  set_RuntimeParams (delete key (RuntimeParams (ConnConfig c))) c.

Context `{ParseEnv}.

(** The five blocks of [ParseConfig], one per key, in source order. *)
Definition parse_pool_max_conns (config : Config) : error + Config :=
  match RuntimeParams (ConnConfig config) !! "pool_max_conns" with
  | Some s =>
    let config := delete_param "pool_max_conns" config in
    match strconv_ParseInt s 32 with
    | inl err => inl (Errorf_w "cannot parse pool_max_conns: " err)
    | inr n =>
      if n <? 1 then inl (Errorf_d "pool_max_conns too small: " n)
      else inr (set_MaxConns (int32 n) config)
    end
  | None =>
    let config := set_MaxConns defaultMaxConns config in
    let numCPU := int32 runtime_NumCPU in
    inr (if MaxConns config <? numCPU then set_MaxConns numCPU config else config)
  end.

Definition parse_pool_min_conns (config : Config) : error + Config :=
  match RuntimeParams (ConnConfig config) !! "pool_min_conns" with
  | Some s =>
    let config := delete_param "pool_min_conns" config in
    match strconv_ParseInt s 32 with
    | inl err => inl (Errorf_w "cannot parse pool_min_conns: " err)
    | inr n => inr (set_MinConns (int32 n) config)
    end
  | None => inr (set_MinConns defaultMinConns config)
  end.

Definition parse_pool_max_conn_lifetime (config : Config) : error + Config :=
  match RuntimeParams (ConnConfig config) !! "pool_max_conn_lifetime" with
  | Some s =>
    let config := delete_param "pool_max_conn_lifetime" config in
    match time_ParseDuration s with
    | inl err => inl (Errorf_w "invalid pool_max_conn_lifetime: " err)
    | inr d => inr (set_MaxConnLifetime d config)
    end
  | None => inr (set_MaxConnLifetime defaultMaxConnLifetime config)
  end.

Definition parse_pool_max_conn_idle_time (config : Config) : error + Config :=
  match RuntimeParams (ConnConfig config) !! "pool_max_conn_idle_time" with
  | Some s =>
    let config := delete_param "pool_max_conn_idle_time" config in
    match time_ParseDuration s with
    | inl err => inl (Errorf_w "invalid pool_max_conn_idle_time: " err)
    | inr d => inr (set_MaxConnIdleTime d config)
    end
  | None => inr (set_MaxConnIdleTime defaultMaxConnIdleTime config)
  end.

Definition parse_pool_health_check_period (config : Config) : error + Config :=
  match RuntimeParams (ConnConfig config) !! "pool_health_check_period" with
  | Some s =>
    let config := delete_param "pool_health_check_period" config in
    match time_ParseDuration s with
    | inl err => inl (Errorf_w "invalid pool_health_check_period: " err)
    | inr d => inr (set_HealthCheckPeriod d config)
    end
  | None => inr (set_HealthCheckPeriod defaultHealthCheckPeriod config)
  end.

(** Sequencing with early return on error. *)
Definition and_then {A B : Type} (r : error + A) (k : A -> error + B) : error + B :=
  match r with
  | inl err => inl err
  | inr a => k a
  end.

Definition ParseConfig (connString : string) : error + Config :=
  and_then (pgx_ParseConfig connString) (fun connConfig =>
  and_then (parse_pool_max_conns (newConfig connConfig)) (fun config =>
  and_then (parse_pool_min_conns config) (fun config =>
  and_then (parse_pool_max_conn_lifetime config) (fun config =>
  and_then (parse_pool_max_conn_idle_time config) (fun config =>
  and_then (parse_pool_health_check_period config) (fun config =>
  inr config)))))).

End Configuration.

(** The keys [ParseConfig] recognises, in the order it reads them. *)
Definition pool_keys : list string :=
  ["pool_max_conns"; "pool_min_conns"; "pool_max_conn_lifetime";
   "pool_max_conn_idle_time"; "pool_health_check_period"].

(** *** The table of recognised keys, read as a function

    A second description of [ParseConfig], by key rather than by statement:
    which values of a key are refused and with which error, and the
    configuration that results when none is. [ParseConfig_by_key] below
    shows that the code computes exactly this. *)
Section ConfigurationTable.
Context {E : Type} `{ParseEnv}.

Definition max_conns_error (v : string) : option error :=
  match strconv_ParseInt v 32 with
  | inl err => Some (Errorf_w "cannot parse pool_max_conns: " err)
  | inr n => if n <? 1 then Some (Errorf_d "pool_max_conns too small: " n) else None
  end.

Definition min_conns_error (v : string) : option error :=
  match strconv_ParseInt v 32 with
  | inl err => Some (Errorf_w "cannot parse pool_min_conns: " err)
  | inr _ => None
  end.

Definition duration_error (key v : string) : option error :=
  match time_ParseDuration v with
  | inl err => Some (Errorf_w ("invalid " +:+ key +:+ ": ") err)
  | inr _ => None
  end.

(** The error [ParseConfig] has for the value [v] of a recognised key, if
    it refuses it. *)
Definition key_error (key v : string) : option error :=
  if String.eqb key "pool_max_conns" then max_conns_error v
  else if String.eqb key "pool_min_conns" then min_conns_error v
  else duration_error key v.

(** The first of the keys, in the given order, that is present with a
    refused value, and the error for it. *)
Fixpoint first_error (keys : list string) (params : gmap string string)
  : option (string * error) :=
  match keys with
  | [] => None
  | key :: keys =>
    match params !! key with
    | Some v =>
      match key_error key v with
      | Some err => Some (key, err)
      | None => first_error keys params
      end
    | None => first_error keys params
    end
  end.

Definition int_setting (v : option string) (default : Z) : Z :=
  match v with
  | Some s => match strconv_ParseInt s 32 with
              | inr n => int32 n
              | inl _ => default
              end
  | None => default
  end.

Definition duration_setting (v : option string) (default : Z) : Z :=
  match v with
  | Some s => match time_ParseDuration s with
              | inr d => d
              | inl _ => default
              end
  | None => default
  end.

(** The configuration for runtime parameters none of which is refused. *)
Definition parsed_config (connConfig : pgx_ConnConfig) : Config (E:=E) :=
  let params := RuntimeParams connConfig in
  {| ConnConfig := {| RuntimeParams := foldr delete params pool_keys;
                      Transport := Transport connConfig |};
     BeforeConnect := None; AfterConnect := None;
     BeforeAcquire := None; AfterRelease := None;
     MaxConnLifetime :=
       duration_setting (params !! "pool_max_conn_lifetime") defaultMaxConnLifetime;
     MaxConnIdleTime :=
       duration_setting (params !! "pool_max_conn_idle_time") defaultMaxConnIdleTime;
     MaxConns :=
       int_setting (params !! "pool_max_conns")
                   (if defaultMaxConns <? int32 runtime_NumCPU
                    then int32 runtime_NumCPU else defaultMaxConns);
     MinConns := int_setting (params !! "pool_min_conns") defaultMinConns;
     HealthCheckPeriod :=
       duration_setting (params !! "pool_health_check_period") defaultHealthCheckPeriod;
     LazyConnect := false;
     createdByParseConfig := true |}.

(** The three keys that hold a duration. *)
Definition duration_keys : list string :=
  ["pool_max_conn_lifetime"; "pool_max_conn_idle_time"; "pool_health_check_period"].

(** The configuration after the first [n] blocks of [ParseConfig]: their
    keys are gone from the runtime parameters and their fields are set. *)
Definition stage (n : nat) (connConfig : pgx_ConnConfig) : Config (E:=E) :=
  let params := RuntimeParams connConfig in
  let after (k : nat) (x : Z) : Z := if Nat.leb k n then x else 0 in
  {| ConnConfig :=
       {| RuntimeParams := foldl (fun m key => delete key m) params (take n pool_keys);
          Transport := Transport connConfig |};
     BeforeConnect := None; AfterConnect := None;
     BeforeAcquire := None; AfterRelease := None;
     MaxConnLifetime := after 3%nat (MaxConnLifetime (parsed_config connConfig));
     MaxConnIdleTime := after 4%nat (MaxConnIdleTime (parsed_config connConfig));
     MaxConns := after 1%nat (MaxConns (parsed_config connConfig));
     MinConns := after 2%nat (MinConns (parsed_config connConfig));
     HealthCheckPeriod := after 5%nat (HealthCheckPeriod (parsed_config connConfig));
     LazyConnect := false;
     createdByParseConfig := true |}.

(** What a block does to a configuration that is at the stage before it. *)
Definition step_result (n : nat) (key : string) (connConfig : pgx_ConnConfig)
  : error + Config (E:=E) :=
  match RuntimeParams connConfig !! key with
  | Some v => match key_error key v with
              | Some err => inl err
              | None => inr (stage n connConfig)
              end
  | None => inr (stage n connConfig)
  end.

End ConfigurationTable.

(** ** The pool *)

(** Opaque results of the wire-level connection. *)
Definition PgxRows : Type := nat.
Definition PgxBatchResults : Type := nat.
Definition PgxTx : Type := nat.

(** The wire-level connection (package pgx), acting on the outside world. *)
Class Driver (E : Type) : Type := {
  pgx_ConnectConfig : Context -> pgx_ConnConfig -> E -> (error + PgxConn) * E;
  pgx_Conn_Close : Context -> PgxConn -> E -> E;
  pgx_Conn_Query : Context -> PgxConn -> string -> list Z -> E -> (error + PgxRows) * E;
  pgx_Conn_SendBatch : Context -> PgxConn -> list string -> E -> PgxBatchResults * E;
  pgx_Conn_BeginTx : Context -> PgxConn -> string -> E -> (error + PgxTx) * E
}.

(** [connResource]: the connection and its three scratch arenas, each
    arena a slice of which only the length matters. *)
Record connResource : Type := {
  conn : PgxConn;
  conns : nat;
  poolRows : nat;
  poolRowss : nat
}.

(** Modelled from the spec: a resource of the core pool (package puddle is
    outside the repository): the handle, its creation time and the time it
    last became idle. [res_id] is the identity of the pointer. *)
Record Resource : Type := {
  res_id : nat;
  value : connResource;
  creationTime : Z;
  lastUsedNano : Z
}.

(** A lease: [Conn.res]. The other field, [Conn.p], is the one pool of the
    world. *)
Record Conn : Type := {
  res : Resource
}.

(** The goroutines the pool launches: the health maintainer, and the
    creation tasks of [checkMinConns]. *)
Inductive goroutine : Type :=
| GoBackgroundHealthCheck
| GoCreateResource.

(** What a test double observes: a call of the factory, a call of the
    destructor on a connection, a resource released unused, a goroutine
    launched. *)
Inductive event : Type :=
| EvFactory
| EvDestructor (c : PgxConn)
| EvReleaseUnused (id : nat)
| EvGo (g : goroutine).

(** The factory calls and the destructor calls among observed events. *)
Definition factory_calls (l : list event) : nat :=
  length (List.filter (fun ev => match ev with EvFactory => true | _ => false end) l).

Definition destructor_calls (l : list event) : nat :=
  length (List.filter (fun ev => match ev with EvDestructor _ => true | _ => false end) l).

(** The outcome of a call that may block. [Parked]: the caller waits inside
    the core pool for a release or for its token. *)
Inductive outcome (W A : Type) : Type :=
| Done (a : A) (w : W)
| Parked (w : W).
Arguments Done {W A} a w.
Arguments Parked {W A} w.

(** A loop is run with fuel, one unit per turn; [None] when the loop was
    still running as the fuel ran out. It never returns when no amount of
    fuel is enough. *)
Definition never_returns {A : Type} (run : nat -> option A) : Prop :=
  forall fuel : nat, run fuel = None.

(** Modelled from the spec: the acquisition error of a closed pool. *)
Definition ErrClosedPool : error := ErrOpaque "closed pool".

Section PoolModel.
Context {E : Type} `{Driver E}.

(** Modelled from the spec: the state of the core pool (4.1): the factory and
    the destructor it was built with, the bound, the Idle FIFO, the leased
    resources, and whether it was closed. *)
Record puddle_Pool : Type := {
  constructor : Context -> E -> (error + connResource) * E;
  destructor : connResource -> E -> E;
  maxSize : Z;
  idleResources : list Resource;
  acquiredResources : list Resource;
  closed : bool;
  nextID : nat
}.

(** Everything but the pool: the outside world, the clock (nanoseconds; an
    operation is instantaneous, time passes between operations), the
    observed events, oldest first, and the goroutines launched. *)
Record Env : Type := {
  ext : E;
  clock : Z;
  log : list event;
  goroutines : list goroutine
}.

(** [Pool.p] and [Pool.closeChan] (true once closed), and the rest. *)
Record World : Type := {
  core : puddle_Pool;
  closeChan : bool;
  env : Env
}.

(** [Pool], without the two fields that live in the world. *)
Record Pool : Type := {
  config : @Config E;
  beforeConnect : option (Context -> pgx_ConnConfig -> E -> (option error * pgx_ConnConfig) * E);
  afterConnect : option (Context -> PgxConn -> E -> option error * E);
  beforeAcquire : option (Context -> PgxConn -> E -> bool * E);
  afterRelease : option (PgxConn -> E -> bool * E);
  minConns : Z;
  maxConnLifetime : Z;
  maxConnIdleTime : Z;
  healthCheckPeriod : Z
}.

Definition set_ext (e : E) (v : Env) : Env :=
  {| ext := e; clock := clock v; log := log v; goroutines := goroutines v |}.

Definition emit (ev : event) (v : Env) : Env :=
  {| ext := ext v; clock := clock v; log := log v ++ [ev]; goroutines := goroutines v |}.

(** [go f()]. *)
Definition go (g : goroutine) (v : Env) : Env :=
  {| ext := ext v; clock := clock v; log := log v ++ [EvGo g];
     goroutines := goroutines v ++ [g] |}.

(** Time passing between two operations. *)
Definition advance (d : Z) (v : Env) : Env :=
  {| ext := ext v; clock := clock v + d; log := log v; goroutines := goroutines v |}.

Definition set_env (v : Env) (w : World) : World :=
  {| core := core w; closeChan := closeChan w; env := v |}.

Definition set_core (c : puddle_Pool) (w : World) : World :=
  {| core := c; closeChan := closeChan w; env := env w |}.

Definition set_resources (idle acquired : list Resource) (c : puddle_Pool) : puddle_Pool :=
  {| constructor := constructor c; destructor := destructor c; maxSize := maxSize c;
     idleResources := idle; acquiredResources := acquired;
     closed := closed c; nextID := nextID c |}.

Definition set_closed (c : puddle_Pool) : puddle_Pool :=
  {| constructor := constructor c; destructor := destructor c; maxSize := maxSize c;
     idleResources := idleResources c; acquiredResources := acquiredResources c;
     closed := true; nextID := nextID c |}.

Definition bump_nextID (c : puddle_Pool) : puddle_Pool :=
  {| constructor := constructor c; destructor := destructor c; maxSize := maxSize c;
     idleResources := idleResources c; acquiredResources := acquiredResources c;
     closed := closed c; nextID := S (nextID c) |}.

(** *** The core pool *)

(** Modelled from the spec: [puddle.NewPool]. *)
Definition puddle_NewPool
    (constructor : Context -> E -> (error + connResource) * E)
    (destructor : connResource -> E -> E) (maxSize : Z) : puddle_Pool :=
  {| constructor := constructor; destructor := destructor; maxSize := maxSize;
     idleResources := []; acquiredResources := [];
     closed := false; nextID := 0 |}.

(** Modelled from the spec: [stat().total], the live resources. Between two
    operations of this model none is under construction. *)
Definition TotalResources (c : puddle_Pool) : Z :=
  Z.of_nat (length (idleResources c) + length (acquiredResources c)).

(** Modelled from the spec: a call of the factory by the core pool; the call
    is observed whether it succeeds or not. *)
Definition construct (ctx : Context) (w : World) : (error + connResource) * World :=
  let '(r, e) := constructor (core w) ctx (ext (env w)) in
  (r, set_env (emit EvFactory (set_ext e (env w))) w).

Definition newResource (v : connResource) (w : World) : Resource :=
  {| res_id := nextID (core w); value := v;
     creationTime := clock (env w); lastUsedNano := clock (env w) |}.

(** Modelled from the spec: acquire (4.1). A closed pool and a token that has
    fired give an error; an idle resource is popped from the front of the
    FIFO; below the bound the factory is called, and its error is returned
    with no slot consumed; at the bound the caller parks. *)
Definition puddle_Acquire (ctx : Context) (w : World) : outcome World (error + Resource) :=
  if closed (core w) then Done (inl ErrClosedPool) w
  else match ctx_err ctx with
  | Some err => Done (inl err) w
  | None =>
    match idleResources (core w) with
    | r :: idle =>
      Done (inr r) (set_core (set_resources idle (acquiredResources (core w) ++ [r]) (core w)) w)
    | [] =>
      if TotalResources (core w) <? maxSize (core w) then
        match construct ctx w with
        | (inl err, w) => Done (inl err) w
        | (inr v, w) =>
          let r := newResource v w in
          Done (inr r)
               (set_core (bump_nextID (set_resources (idleResources (core w))
                                                     (acquiredResources (core w) ++ [r])
                                                     (core w))) w)
        end
      else Parked w
    end
  end.

Definition same_res (r r' : Resource) : bool := Nat.eqb (res_id r) (res_id r').

Definition remove_res (r : Resource) (l : list Resource) : list Resource :=
  List.filter (fun r' => negb (same_res r r')) l.

(** Modelled from the spec: acquire_all_idle (4.1): every idle resource
    becomes leased; never blocks, never constructs. *)
Definition puddle_AcquireAllIdle (w : World) : list Resource * World :=
  let idle := idleResources (core w) in
  (idle, set_core (set_resources [] (acquiredResources (core w) ++ idle) (core w)) w).

(** Modelled from the spec: destroy (4.1): the resource leaves the accounting
    and the destructor runs on its handle. *)
Definition Resource_Destroy (r : Resource) (w : World) : World :=
  let c := core w in
  let w := set_core (set_resources (idleResources c) (remove_res r (acquiredResources c)) c) w in
  set_env (emit (EvDestructor (conn (value r)))
                (set_ext (destructor c (value r) (ext (env w))) (env w))) w.

Definition touch (now : Z) (r : Resource) : Resource :=
  {| res_id := res_id r; value := value r;
     creationTime := creationTime r; lastUsedNano := now |}.

(** The entry of the pool's accounting a handle stands for. *)
Definition entries_of (r : Resource) (l : list Resource) : list Resource :=
  List.filter (fun r' => same_res r r') l.

(** Modelled from the spec: release (4.1): back to Idle, at the back of the
    FIFO, and the time it became idle is now. *)
Definition Resource_Release (r : Resource) (w : World) : World :=
  let c := core w in
  set_core (set_resources
              (idleResources c ++ map (touch (clock (env w))) (entries_of r (acquiredResources c)))
              (remove_res r (acquiredResources c)) c) w.

(** Modelled from the spec: release_unused (4.1): back to Idle as not used,
    so the time it became idle stays (boundary scenario 4 needs an idle
    resource to age across health checks). *)
Definition Resource_ReleaseUnused (r : Resource) (w : World) : World :=
  let c := core w in
  let w := set_core (set_resources
              (idleResources c ++ entries_of r (acquiredResources c))
              (remove_res r (acquiredResources c)) c) w in
  set_env (emit (EvReleaseUnused (res_id r)) (env w)) w.

(** Modelled from the spec: [IdleDuration]: the time since the resource
    became idle. *)
Definition Resource_IdleDuration (r : Resource) (w : World) : Z :=
  clock (env w) - lastUsedNano r.

(** Modelled from the spec: create_resource (4.1): grows the pool by one idle
    resource, up to the bound; a no-op at the bound. *)
Definition puddle_CreateResource (ctx : Context) (w : World) : option error * World :=
  if closed (core w) then (Some ErrClosedPool, w)
  else if maxSize (core w) <=? TotalResources (core w) then (None, w)
  else match construct ctx w with
       | (inl err, w) => (Some err, w)
       | (inr v, w) =>
         let r := newResource v w in
         (None, set_core (bump_nextID (set_resources (idleResources (core w) ++ [r])
                                                     (acquiredResources (core w))
                                                     (core w))) w)
       end.

Fixpoint destroy_all (l : list Resource) (w : World) : World :=
  match l with
  | [] => w
  | r :: l => destroy_all l (Resource_Destroy r w)
  end.

(** Modelled from the spec: close (4.1): rejects future acquisitions,
    destroys what is idle, and blocks while a resource is leased. *)
Definition puddle_Close (w : World) : outcome World unit :=
  let '(idle, w) := puddle_AcquireAllIdle (set_core (set_closed (core w)) w) in
  let w := destroy_all idle w in
  match acquiredResources (core w) with
  | [] => Done tt w
  | _ => Parked w
  end.

(** Modelled from the spec: [Stat().TotalConns()], an [int32]. *)
Definition Stat_TotalConns (w : World) : Z := int32 (TotalResources (core w)).

(** The value the pool's accounting holds for a handle is replaced. *)
Definition store_value (r : Resource) (v : connResource) (w : World) : World :=
  let put r' :=
    if same_res r r' then
      {| res_id := res_id r'; value := v;
         creationTime := creationTime r'; lastUsedNano := lastUsedNano r' |}
    else r' in
  let c := core w in
  set_core (set_resources (map put (idleResources c)) (map put (acquiredResources c)) c) w.

(** *** connResource *)

(** [getConn]: the last slot of the arena, refilled to 128 when empty, with
    [res] set; returns the lease and the receiver after the call. *)
Definition getConn (cr : connResource) (res : Resource) : Conn * connResource :=
  let n := if Nat.eqb (conns cr) 0 then 128%nat else conns cr in
  ({| res := res |},
   {| conn := conn cr; conns := (n - 1)%nat;
      poolRows := poolRows cr; poolRowss := poolRowss cr |}).

(** The three long-lived results. [ErrRows], [ErrBatchResults] are the error
    sentinels [errRows{err}], [errBatchResults{err}]. *)
Inductive Rows : Type :=
| ErrRows (err : error)
| PoolRows (c : Conn) (r : PgxRows).

Inductive BatchResults : Type :=
| ErrBatchResults (err : error)
| PoolBatchResults (br : PgxBatchResults) (c : Conn).

(** [Tx{t, c}]. *)
Record Tx : Type := {
  Tx_t : PgxTx;
  Tx_c : Conn
}.

(** [getPoolRows]: as [getConn], on the third arena. *)
Definition getPoolRows (cr : connResource) (c : Conn) (r : PgxRows) : Rows * connResource :=
  let n := if Nat.eqb (poolRowss cr) 0 then 128%nat else poolRowss cr in
  (PoolRows c r,
   {| conn := conn cr; conns := conns cr;
      poolRows := poolRows cr; poolRowss := (n - 1)%nat |}).

(** *** The lease (conn.go is outside the sources read) *)

(** The value the pool's accounting holds now for the resource of a lease. *)
Definition current_value (r : Resource) (w : World) : connResource :=
  match entries_of r (acquiredResources (core w)) with
  | r' :: _ => value r'
  | [] => value r
  end.

(** Modelled from the spec: [Conn.Conn], the connection a lease forwards
    to. *)
Definition Conn_Conn (c : Conn) : PgxConn := conn (value (res c)).

(** Modelled from the spec: release (4.3): if after_release is absent or
    returns true the resource goes back to the core pool, else it is
    destroyed. *)
Definition Conn_Release (p : Pool) (c : Conn) (w : World) : World :=
  match afterRelease p with
  | None => Resource_Release (res c) w
  | Some hook =>
    let '(ok, e) := hook (Conn_Conn c) (ext (env w)) in
    let w := set_env (set_ext e (env w)) w in
    if ok then Resource_Release (res c) w else Resource_Destroy (res c) w
  end.

(** Modelled from the spec: the lease forwards query, send-batch and
    begin-transaction to its connection (4.4). *)
Definition Conn_Query (ctx : Context) (c : Conn) (sql : string) (args : list Z) (w : World)
  : (error + PgxRows) * World :=
  let '(r, e) := pgx_Conn_Query ctx (Conn_Conn c) sql args (ext (env w)) in
  (r, set_env (set_ext e (env w)) w).

Definition Conn_SendBatch (ctx : Context) (c : Conn) (b : list string) (w : World)
  : PgxBatchResults * World :=
  let '(br, e) := pgx_Conn_SendBatch ctx (Conn_Conn c) b (ext (env w)) in
  (br, set_env (set_ext e (env w)) w).

Definition Conn_BeginTx (ctx : Context) (c : Conn) (txOptions : string) (w : World)
  : (error + PgxTx) * World :=
  let '(r, e) := pgx_Conn_BeginTx ctx (Conn_Conn c) txOptions (ext (env w)) in
  (r, set_env (set_ext e (env w)) w).

(** Modelled from the spec: [Conn.getPoolRows], which takes the wrapper from
    the arena of the lease's resource. *)
Definition Conn_getPoolRows (c : Conn) (r : PgxRows) (w : World) : Rows * World :=
  let '(rows, cr) := getPoolRows (current_value (res c) w) c r in
  (rows, store_value (res c) cr w).

(** Modelled from the spec: the methods of the error sentinels that report
    an error ([Err], [Scan], [Values] of [errRows]; [Exec], [Query],
    [Close] of [errBatchResults]): each yields the stored error. *)
Inductive rows_method : Type := RowsErr | RowsScan | RowsValues.
Inductive batch_method : Type := BatchExec | BatchQuery | BatchClose.

Definition errRows_call (err : error) (m : rows_method) : error := err.
Definition errBatchResults_call (err : error) (m : batch_method) : error := err.

(** *** Pool *)

(** The factory closure of [ConnectConfig]. *)
Definition poolConstructor (p : Pool) (ctx : Context) (e : E) : (error + connResource) * E :=
  let connConfig := ConnConfig (config p) in
  let '(err, connConfig, e) :=
    match beforeConnect p with
    | Some hook =>
      let '((err, connConfig), e) := hook ctx (ConnConfig_Copy (ConnConfig (config p))) e in
      (err, connConfig, e)
    | None => (None, connConfig, e)
    end in
  match err with
  | Some err => (inl err, e)
  | None =>
    match pgx_ConnectConfig ctx connConfig e with
    | (inl err, e) => (inl err, e)
    | (inr conn, e) =>
      let '(err, e) :=
        match afterConnect p with
        | Some hook => hook ctx conn e
        | None => (None, e)
        end in
      match err with
      | Some err => (inl err, pgx_Conn_Close ctx conn e)
      | None => (inr {| conn := conn; conns := 64; poolRows := 64; poolRowss := 64 |}, e)
      end
    end
  end.

(** The destructor closure of [ConnectConfig]: close within 15 seconds. *)
Definition poolDestructor (value : connResource) (e : E) : E :=
  let ctx := context_WithTimeout context_Background (15 * time_Second) in
  pgx_Conn_Close ctx (conn value) e.

(** [Pool.Close]: [close(p.closeChan)], then the core pool is closed. (A
    second close of the channel would panic; no call in this file closes
    twice.) *)
Definition Pool_Close (w : World) : outcome World unit :=
  puddle_Close {| core := core w; closeChan := true; env := env w |}.

(** The result of [ConnectConfig]: a panic before any pool exists, or the
    returned pair with the world the pool lives in. *)
Inductive connect_result : Type :=
| ConnectPanic (msg : string) (v : Env)
| ConnectDone (r : error + Pool) (w : World)
| ConnectParked (w : World).

Definition ConnectConfig (ctx : Context) (config : Config) (v : Env) : connect_result :=
  if negb (createdByParseConfig config) then
    ConnectPanic "config must be created by ParseConfig" v
  else
    let p := {| config := config;
                beforeConnect := BeforeConnect config;
                afterConnect := AfterConnect config;
                beforeAcquire := BeforeAcquire config;
                afterRelease := AfterRelease config;
                minConns := MinConns config;
                maxConnLifetime := MaxConnLifetime config;
                maxConnIdleTime := MaxConnIdleTime config;
                healthCheckPeriod := HealthCheckPeriod config |} in
    let w := {| core := puddle_NewPool (poolConstructor p) poolDestructor (MaxConns config);
                closeChan := false;
                env := v |} in
    let w := set_env (go GoBackgroundHealthCheck (env w)) w in
    if negb (LazyConnect config) then
      match puddle_Acquire ctx w with
      | Done (inl err) w =>
        match Pool_Close w with
        | Done _ w => ConnectDone (inl err) w
        | Parked w => ConnectParked w
        end
      | Done (inr res) w => ConnectDone (inr p) (Resource_Release res w)
      | Parked w => ConnectParked w
      end
    else ConnectDone (inr p) w.

(** [p.beforeAcquire == nil || p.beforeAcquire(ctx, cr.conn)], with the
    outside world after the call. *)
Definition beforeAcquire_allows (p : Pool) (ctx : Context) (c : PgxConn) (e : E) : bool * E :=
  match beforeAcquire p with
  | None => (true, e)
  | Some hook => hook ctx c e
  end.

(** [Pool.Acquire]. One unit of fuel is one turn of the loop. *)
Fixpoint Acquire (fuel : nat) (p : Pool) (ctx : Context) (w : World)
  : option (outcome World (error + Conn)) :=
  match fuel with
  | O => None
  | S fuel =>
    match puddle_Acquire ctx w with
    | Done (inl err) w => Some (Done (inl err) w)
    | Done (inr res) w =>
      let cr := value res in
      let '(ok, e) := beforeAcquire_allows p ctx (conn cr) (ext (env w)) in
      let w := set_env (set_ext e (env w)) w in
      if ok then
        let '(c, cr) := getConn cr res in
        Some (Done (inr c) (store_value res cr w))
      else Acquire fuel p ctx (Resource_Destroy res w)
    | Parked w => Some (Parked w)
    end
  end.

(** A resource is leased when the core pool accounts for it as acquired. *)
Definition is_leased (r : Resource) (w : World) : bool :=
  existsb (same_res r) (acquiredResources (core w)).

(** The hook accepts every connection the factory has just constructed. *)
Definition accepts_fresh (p : Pool) (w : World) : Prop :=
  forall (ctx : Context) (e e' : E) (cr : connResource),
    constructor (core w) ctx e = (inr cr, e') ->
    fst (beforeAcquire_allows p ctx (conn cr) e') = true.

(** A turn of the loop of [Acquire] that ends in a rejection, as the world
    in which the next turn starts: the core pool handed out a resource and
    the hook refused its connection, which was destroyed. [None] for a turn
    in which [Acquire] returns. *)
Definition rejected_turn (p : Pool) (ctx : Context) (w : World) : option World :=
  match puddle_Acquire ctx w with
  | Done (inr res) w =>
    let '(ok, e) := beforeAcquire_allows p ctx (conn (value res)) (ext (env w)) in
    let w := set_env (set_ext e (env w)) w in
    if ok then None else Some (Resource_Destroy res w)
  | _ => None
  end.

(** [Pool.Stat().TotalConns()]. *)
Definition Pool_TotalConns (w : World) : Z := Stat_TotalConns w.

(** The loop of [checkIdleConnsHealth] over the resources it acquired. *)
Fixpoint checkIdleLoop (p : Pool) (now : Z) (resources : list Resource) (w : World) : World :=
  match resources with
  | [] => w
  | res :: resources =>
    let w :=
      if maxConnLifetime p <? now - creationTime res then Resource_Destroy res w
      else if maxConnIdleTime p <? Resource_IdleDuration res w then Resource_Destroy res w
      else Resource_ReleaseUnused res w in
    checkIdleLoop p now resources w
  end.

Definition checkIdleConnsHealth (p : Pool) (w : World) : World :=
  let '(resources, w) := puddle_AcquireAllIdle w in
  let now := clock (env w) in
  checkIdleLoop p now resources w.

(** The three branches of the loop, by name. *)
Inductive scan_action : Type :=
| DestroyForAge
| DestroyForIdle
| ReleaseUnused.

Definition scan_action_of (p : Pool) (now : Z) (r : Resource) : scan_action :=
  if maxConnLifetime p <? now - creationTime r then DestroyForAge
  else if maxConnIdleTime p <? now - lastUsedNano r then DestroyForIdle
  else ReleaseUnused.

Definition scan_keeps (p : Pool) (now : Z) (r : Resource) : bool :=
  match scan_action_of p now r with
  | ReleaseUnused => true
  | _ => false
  end.

(** What is observed of the scan of one resource. *)
Definition scan_event (p : Pool) (now : Z) (r : Resource) : event :=
  match scan_action_of p now r with
  | ReleaseUnused => EvReleaseUnused (res_id r)
  | _ => EvDestructor (conn (value r))
  end.

(** No two resources of the accounting are the same resource. *)
Definition distinct_resources (w : World) : Prop :=
  NoDup (map res_id (acquiredResources (core w) ++ idleResources (core w))).

(** The body of the goroutine [checkMinConns] launches: the context it
    builds, and the call; the error is dropped. *)
Definition createTask_ctx : Context := context_WithTimeout context_Background time_Minute.

Definition createTask (w : World) : World :=
  snd (puddle_CreateResource createTask_ctx w).

(** The loop of [checkMinConns]: [for i := ...; i > 0; i--], [i] an [int32].
    [n] bounds the number of turns. *)
Fixpoint checkMinLoop (n : nat) (i : Z) (w : World) : World :=
  match n with
  | O => w
  | S n =>
    if 0 <? i then checkMinLoop n (int32 (i - 1)) (set_env (go GoCreateResource (env w)) w)
    else w
  end.

Definition checkMinConns (p : Pool) (w : World) : World :=
  let i := int32 (minConns p - Pool_TotalConns w) in
  checkMinLoop (Z.to_nat i) i w.

(** What [select] picks in one turn of [backgroundHealthCheck]. *)
Inductive signal : Type :=
| SigClose
| SigTick.

(** The [case <-ticker.C] of [backgroundHealthCheck]: one tick. *)
Definition healthTick (p : Pool) (w : World) : World :=
  let w := checkIdleConnsHealth p w in
  checkMinConns p w.

(** The [for]/[select] of [backgroundHealthCheck] on the signals it
    receives; when they run out it waits. *)
Fixpoint healthLoop (p : Pool) (signals : list signal) (w : World) : World :=
  match signals with
  | [] => w
  | SigClose :: _ => w
  | SigTick :: signals => healthLoop p signals (healthTick p w)
  end.

(** [backgroundHealthCheck]. [time.NewTicker] panics on a period that is not
    positive. *)
Definition backgroundHealthCheck (p : Pool) (signals : list signal) (w : World)
  : string + World :=
  if healthCheckPeriod p <=? 0 then inl "non-positive interval for NewTicker"
  else inr (healthLoop p signals w).

(** Some of the launched goroutines run their body, in the given number. *)
Fixpoint run_createTasks (n : nat) (w : World) : World :=
  match n with
  | O => w
  | S n => run_createTasks n (createTask w)
  end.

(** [Pool.Query]: the returned pair. *)
Definition Query (fuel : nat) (p : Pool) (ctx : Context) (sql : string) (args : list Z)
    (w : World) : option (outcome World (Rows * option error)) :=
  match Acquire fuel p ctx w with
  | Some (Done (inl err) w) => Some (Done (ErrRows err, Some err) w)
  | Some (Done (inr c) w) =>
    match Conn_Query ctx c sql args w with
    | (inl err, w) => Some (Done (ErrRows err, Some err) (Conn_Release p c w))
    | (inr rows, w) =>
      let '(r, w) := Conn_getPoolRows c rows w in
      Some (Done (r, None) w)
    end
  | Some (Parked w) => Some (Parked w)
  | None => None
  end.

(** [Pool.SendBatch]. *)
Definition SendBatch (fuel : nat) (p : Pool) (ctx : Context) (b : list string) (w : World)
  : option (outcome World BatchResults) :=
  match Acquire fuel p ctx w with
  | Some (Done (inl err) w) => Some (Done (ErrBatchResults err) w)
  | Some (Done (inr c) w) =>
    let '(br, w) := Conn_SendBatch ctx c b w in
    Some (Done (PoolBatchResults br c) w)
  | Some (Parked w) => Some (Parked w)
  | None => None
  end.

(** [Pool.BeginTx]: the returned pair; [None] in the first place is a nil
    transaction. *)
Definition BeginTx (fuel : nat) (p : Pool) (ctx : Context) (txOptions : string) (w : World)
  : option (outcome World (option Tx * option error)) :=
  match Acquire fuel p ctx w with
  | Some (Done (inl err) w) => Some (Done (None, Some err) w)
  | Some (Done (inr c) w) =>
    match Conn_BeginTx ctx c txOptions w with
    | (inl err, w) => Some (Done (None, Some err) (Conn_Release p c w))
    | (inr t, w) => Some (Done (Some {| Tx_t := t; Tx_c := c |}, None) w)
    end
  | Some (Parked w) => Some (Parked w)
  | None => None
  end.

End PoolModel.

Arguments Config : clear implicits.
Arguments Pool : clear implicits.
Arguments World E : clear implicits.
Arguments Env : clear implicits.
Arguments puddle_Pool : clear implicits.

(** ** The rest of the pool: the short-lived operations, [QueryRow],
    [AcquireAllIdle], [Connect] *)

(** [pgconn.CommandTag]; [None] is nil. *)
Definition CommandTag : Type := option string.

(** An opaque [pgx.Row]. *)
Definition PgxRow : Type := nat.

(** The statements of the wire-level connection the short-lived operations
    run. A pair result is the Go pair, kept as it is. The callback of
    [QueryFunc] acts on the outside world, once per row. *)
Class Statements (E : Type) : Type := {
  pgx_Conn_Exec : Context -> PgxConn -> string -> list Z -> E
                  -> (CommandTag * option error) * E;
  pgx_Conn_QueryRow : Context -> PgxConn -> string -> list Z -> E -> PgxRow * E;
  pgx_Conn_QueryFunc : Context -> PgxConn -> string -> list Z -> list Z
                       -> (PgxRow -> E -> option error * E) -> E
                       -> (CommandTag * option error) * E;
  pgx_Conn_CopyFrom : Context -> PgxConn -> list string -> list string -> list (list Z) -> E
                      -> (Z * option error) * E
}.



Section PoolOperations.
Context {E : Type} `{Driver E} `{Statements E}.

(** Modelled from the spec: the lease forwards exec, query-row, query-func
    and, through its connection, copy-from (4.4). *)
Definition Conn_Exec (ctx : Context) (c : Conn) (sql : string) (arguments : list Z)
    (w : World E) : (CommandTag * option error) * World E :=
  let '(r, e) := pgx_Conn_Exec ctx (Conn_Conn c) sql arguments (ext (env w)) in
  (r, set_env (set_ext e (env w)) w).


Definition Conn_QueryFunc (ctx : Context) (c : Conn) (sql : string) (args scans : list Z)
    (f : PgxRow -> E -> option error * E) (w : World E)
  : (CommandTag * option error) * World E :=
  let '(r, e) := pgx_Conn_QueryFunc ctx (Conn_Conn c) sql args scans f (ext (env w)) in
  (r, set_env (set_ext e (env w)) w).

Definition Conn_CopyFrom (ctx : Context) (c : Conn) (tableName columnNames : list string)
    (rowSrc : list (list Z)) (w : World E) : (Z * option error) * World E :=
  let '(r, e) := pgx_Conn_CopyFrom ctx (Conn_Conn c) tableName columnNames rowSrc
                   (ext (env w)) in
  (r, set_env (set_ext e (env w)) w).


(** [Pool.Exec]: the deferred release runs when the statement has
    returned. *)
Definition Exec (fuel : nat) (p : Pool E) (ctx : Context) (sql : string)
    (arguments : list Z) (w : World E)
  : option (outcome (World E) (CommandTag * option error)) :=
  match Acquire fuel p ctx w with
  | Some (Done (inl err) w) => Some (Done (None, Some err) w)
  | Some (Done (inr c) w) =>
    let '(r, w) := Conn_Exec ctx c sql arguments w in
    Some (Done r (Conn_Release p c w))
  | Some (Parked w) => Some (Parked w)
  | None => None
  end.


(** [Pool.QueryFunc]. *)
Definition QueryFunc (fuel : nat) (p : Pool E) (ctx : Context) (sql : string)
    (args scans : list Z) (f : PgxRow -> E -> option error * E) (w : World E)
  : option (outcome (World E) (CommandTag * option error)) :=
  match Acquire fuel p ctx w with
  | Some (Done (inl err) w) => Some (Done (None, Some err) w)
  | Some (Done (inr c) w) =>
    let '(r, w) := Conn_QueryFunc ctx c sql args scans f w in
    Some (Done r (Conn_Release p c w))
  | Some (Parked w) => Some (Parked w)
  | None => None
  end.

(** [Pool.CopyFrom]. *)
Definition CopyFrom (fuel : nat) (p : Pool E) (ctx : Context)
    (tableName columnNames : list string) (rowSrc : list (list Z)) (w : World E)
  : option (outcome (World E) (Z * option error)) :=
  match Acquire fuel p ctx w with
  | Some (Done (inl err) w) => Some (Done (0, Some err) w)
  | Some (Done (inr c) w) =>
    let '(r, w) := Conn_CopyFrom ctx c tableName columnNames rowSrc w in
    Some (Done r (Conn_Release p c w))
  | Some (Parked w) => Some (Parked w)
  | None => None
  end.

(** [Pool.Begin]: [BeginTx] with the zero [TxOptions]. *)
Definition Begin (fuel : nat) (p : Pool E) (ctx : Context) (w : World E)
  : option (outcome (World E) (option Tx * option error)) :=
  BeginTx fuel p ctx EmptyString w.




(** The identity of every resource of the accounting is below the next
    identity the core pool hands out. *)
Definition fresh_ids (w : World E) : Prop :=
  Forall (fun r => (res_id r < nextID (core w))%nat)
         (acquiredResources (core w) ++ idleResources (core w)).

(** The accounting of the core pool is in order. *)
Definition well_formed (w : World E) : Prop :=
  distinct_resources w /\ fresh_ids w.

(** The pool holds no more resources than its bound. *)
Definition within_bound (w : World E) : Prop :=
  TotalResources (core w) <= maxSize (core w).

End PoolOperations.

(** The world an outcome leaves. *)
Definition world_after {W A : Type} (o : outcome W A) : W :=
  match o with
  | Done _ w => w
  | Parked w => w
  end.

(** [store_value], on one entry. *)
Definition with_value (v : connResource) (r : Resource) : Resource :=
  {| res_id := res_id r; value := v;
     creationTime := creationTime r; lastUsedNano := lastUsedNano r |}.

(** The accounting after an operation that holds no lease when it returns,
    against the accounting before it: the leases are those there were, and
    the accounting is in order. *)
Definition lease_returned {E : Type} (w w' : World E) : Prop :=
  acquiredResources (core w') = acquiredResources (core w)
  /\ well_formed w'.

(** The accounting after an operation whose result holds the lease [c]:
    the leases are those there were and, last, the one on the resource of
    [c]; the accounting is in order. *)
Definition lease_kept {E : Type} (w w' : World E) (c : Conn) : Prop :=
  (exists r', acquiredResources (core w') = acquiredResources (core w) ++ [r']
              /\ res_id r' = res_id (res c))
  /\ well_formed w'.

(** The [Pool] value [ConnectConfig] builds from a configuration. *)
Definition ConnectConfig_pool {E : Type} (config : Config E) : Pool E :=
  {| config := config;
     beforeConnect := BeforeConnect config;
     afterConnect := AfterConnect config;
     beforeAcquire := BeforeAcquire config;
     afterRelease := AfterRelease config;
     minConns := MinConns config;
     maxConnLifetime := MaxConnLifetime config;
     maxConnIdleTime := MaxConnIdleTime config;
     healthCheckPeriod := HealthCheckPeriod config |}.

(** ** A sample world to evaluate the model on *)

(** Words of a string separated by single spaces. *)
Fixpoint fields (s : string) : list string :=
  match s with
  | EmptyString => [EmptyString]
  | String c s' =>
    if Ascii.eqb c " "%char then EmptyString :: fields s'
    else match fields s' with
         | w :: ws => String c w :: ws
         | [] => [String c EmptyString]
         end
  end.

(** [key=value] cut at the first [=]. *)
Fixpoint cut_eq (s : string) : option (string * string) :=
  match s with
  | EmptyString => None
  | String c s' =>
    if Ascii.eqb c "="%char then Some (EmptyString, s')
    else match cut_eq s' with
         | Some (k, v) => Some (String c k, v)
         | None => None
         end
  end.

Definition transport_keys : list string :=
  ["host"; "port"; "dbname"; "user"; "password"; "sslmode"].

Fixpoint dsn_params (words : list string) : option (gmap string string) :=
  match words with
  | [] => Some ∅
  | w :: words =>
    match dsn_params words with
    | None => None
    | Some m =>
      if String.eqb w "" then Some m
      else match cut_eq w with
           | None => None
           | Some (k, v) =>
             if bool_decide (k ∈ transport_keys) then Some m else Some (<[k := v]> m)
           end
    end
  end.

(** A stand-in for [pgx.ParseConfig] on keyword/value strings without
    quoting: the transport keys stay with the transport, every other setting
    becomes a runtime parameter. *)
Definition dsn_ParseConfig (connString : string) : error + pgx_ConnConfig :=
  match dsn_params (fields connString) with
  | None => inl (ErrOpaque "cannot parse connection string")
  | Some m => inr {| RuntimeParams := m; Transport := connString |}
  end.

Fixpoint span_digits (s : string) : string * string :=
  match s with
  | EmptyString => (EmptyString, EmptyString)
  | String c s' =>
    if is_digit c then let '(d, r) := span_digits s' in (String c d, r)
    else (EmptyString, s)
  end.

Definition unit_of (u : string) : option Z :=
  if String.eqb u "ns" then Some time_Nanosecond
  else if String.eqb u "us" then Some (1000 * time_Nanosecond)
  else if String.eqb u "ms" then Some (1000000 * time_Nanosecond)
  else if String.eqb u "s" then Some time_Second
  else if String.eqb u "m" then Some time_Minute
  else if String.eqb u "h" then Some time_Hour
  else None.

(** A stand-in for [time.ParseDuration] on durations of one whole-number
    segment ([90s], [-1h], [0]); it refuses every other string, also those
    Go accepts ([1h30m], [1.5h]). *)
Definition simple_ParseDuration (s : string) : error + Z :=
  let bad := inl (ErrOpaque ("time: invalid duration " +:+ s)) in
  let '(neg, body) :=
    match s with
    | String c s' =>
      if Ascii.eqb c "-"%char then (true, s')
      else if Ascii.eqb c "+"%char then (false, s')
      else (false, s)
    | EmptyString => (false, s)
    end in
  if String.eqb body "0" then inr 0
  else
    let '(ds, u) := span_digits body in
    match ds, parse_digits 0 ds, unit_of u with
    | String _ _, Some n, Some k =>
      if 2 ^ 63 - 1 <? n * k then bad else inr (if neg then - (n * k) else n * k)
    | _, _, _ => bad
    end.

#[export] Instance sample_ParseEnv : ParseEnv := {
  pgx_ParseConfig := dsn_ParseConfig;
  time_ParseDuration := simple_ParseDuration;
  runtime_NumCPU := 8
}.

(** The outside world of the sample: how often the before-acquire hook ran,
    the next connection the server hands out, the connections closed so
    far, and whether the server refuses connections. *)
Record sample_ext : Type := {
  hook_calls : nat;
  next_conn : nat;
  closed_conns : list PgxConn;
  refusing : bool
}.

Definition sample_ext0 : sample_ext :=
  {| hook_calls := 0; next_conn := 0; closed_conns := []; refusing := false |}.

#[export] Instance sample_Driver : Driver sample_ext := {
  pgx_ConnectConfig _ _ e :=
    if refusing e then (inl (ErrOpaque "connection refused"), e)
    else (inr (next_conn e),
          {| hook_calls := hook_calls e; next_conn := S (next_conn e);
             closed_conns := closed_conns e; refusing := refusing e |});
  pgx_Conn_Close _ c e :=
    {| hook_calls := hook_calls e; next_conn := next_conn e;
       closed_conns := closed_conns e ++ [c]; refusing := refusing e |};
  pgx_Conn_Query _ _ sql _ e :=
    if String.eqb sql "" then (inl (ErrOpaque "empty query"), e) else (inr 0%nat, e);
  pgx_Conn_SendBatch _ _ _ e := (0%nat, e);
  pgx_Conn_BeginTx _ _ txOptions e :=
    if String.eqb txOptions "bogus" then (inl (ErrOpaque "bad isolation level"), e)
    else (inr 0%nat, e)
}.

(** Statements of the sample: an empty statement fails, a row source is
    copied whole, the callback of [QueryFunc] sees one row. *)
#[export] Instance sample_Statements : Statements sample_ext := {
  pgx_Conn_Exec _ _ sql _ e :=
    if String.eqb sql "" then ((None, Some (ErrOpaque "empty query")), e)
    else ((Some "OK", None), e);
  pgx_Conn_QueryRow _ _ _ _ e := (0%nat, e);
  pgx_Conn_QueryFunc _ _ sql _ _ f e :=
    if String.eqb sql "" then ((None, Some (ErrOpaque "empty query")), e)
    else match f 0%nat e with
         | (Some err, e) => ((None, Some err), e)
         | (None, e) => ((Some "SELECT 1", None), e)
         end;
  pgx_Conn_CopyFrom _ _ _ _ rowSrc e := ((Z.of_nat (length rowSrc), None), e)
}.

(** A before-acquire hook that rejects the first [k] connections it sees and
    accepts thereafter, and one that rejects every connection. *)
Definition reject_first (k : nat) (_ : Context) (_ : PgxConn) (e : sample_ext)
  : bool * sample_ext :=
  (Nat.leb k (hook_calls e),
   {| hook_calls := S (hook_calls e); next_conn := next_conn e;
      closed_conns := closed_conns e; refusing := refusing e |}).

Definition reject_all (_ : Context) (_ : PgxConn) (e : sample_ext) : bool * sample_ext :=
  (false, e).

Definition sample_env : Env sample_ext :=
  {| ext := sample_ext0; clock := 0; log := []; goroutines := [] |}.

(** The configuration [ParseConfig] builds, with a before-acquire hook and
    lazy connection set afterwards. *)
Definition with_BeforeAcquire {E : Type}
    (hook : option (Context -> PgxConn -> E -> bool * E)) (c : Config E) : Config E :=
  {| ConnConfig := ConnConfig c;
     BeforeConnect := BeforeConnect c; AfterConnect := AfterConnect c;
     BeforeAcquire := hook; AfterRelease := AfterRelease c;
     MaxConnLifetime := MaxConnLifetime c; MaxConnIdleTime := MaxConnIdleTime c;
     MaxConns := MaxConns c; MinConns := MinConns c;
     HealthCheckPeriod := HealthCheckPeriod c;
     LazyConnect := true;
     createdByParseConfig := createdByParseConfig c |}.

(** A pool and the world it starts in: what [ConnectConfig] returns for a
    lazily connected configuration with the given hook, and an empty core
    pool otherwise. *)
Definition sample_config (connString : string)
    (hook : option (Context -> PgxConn -> sample_ext -> bool * sample_ext))
  : Config sample_ext :=
  match ParseConfig connString with
  | inr c => with_BeforeAcquire hook c
  | inl _ => with_BeforeAcquire hook (newConfig {| RuntimeParams := ∅; Transport := "" |})
  end.

Definition pool_of (c : Config sample_ext) : Pool sample_ext :=
  {| config := c;
     beforeConnect := BeforeConnect c; afterConnect := AfterConnect c;
     beforeAcquire := BeforeAcquire c; afterRelease := AfterRelease c;
     minConns := MinConns c;
     maxConnLifetime := MaxConnLifetime c; maxConnIdleTime := MaxConnIdleTime c;
     healthCheckPeriod := HealthCheckPeriod c |}.

Definition world_of (c : Config sample_ext) : World sample_ext :=
  match ConnectConfig context_Background c sample_env with
  | ConnectDone _ w => w
  | ConnectParked w => w
  | ConnectPanic _ v =>
    {| core := puddle_NewPool (poolConstructor (pool_of c)) poolDestructor (MaxConns c);
       closeChan := false; env := v |}
  end.

(** The pools of the examples: lazily connected, at most two connections,
    with a hook that rejects the first connection it sees, with one that
    rejects every connection, and with none. *)
Definition retry_config : Config sample_ext :=
  sample_config "host=db pool_max_conns=2" (Some (reject_first 1)).

Definition stubborn_config : Config sample_ext :=
  sample_config "host=db pool_max_conns=2" (Some reject_all).

Definition plain_config : Config sample_ext :=
  sample_config "host=db pool_max_conns=2" None.

(** A configuration written by hand, not by [ParseConfig]. *)
Definition foreign_config : Config sample_ext :=
  {| ConnConfig := {| RuntimeParams := ∅; Transport := "host=db" |};
     BeforeConnect := None; AfterConnect := None;
     BeforeAcquire := None; AfterRelease := None;
     MaxConnLifetime := time_Hour; MaxConnIdleTime := time_Minute;
     MaxConns := 4; MinConns := 0;
     HealthCheckPeriod := time_Minute;
     LazyConnect := true;
     createdByParseConfig := false |}.

(** A token that has fired. *)
Definition cancelled_ctx : Context :=
  {| ctx_err := Some (ErrOpaque "context canceled"); ctx_timeout := None |}.

(** A pool for the health maintainer, and two hours of its life: a first
    connection is created at once and a second after ninety minutes; ten
    milliseconds before the end the first is leased and released and a
    third is created. *)
Definition health_config : Config sample_ext :=
  sample_config
    "host=db pool_max_conns=5 pool_min_conns=3 pool_max_conn_lifetime=1h pool_max_conn_idle_time=50ms"
    None.

Definition health_world : World sample_ext :=
  let p := pool_of health_config in
  let later (d : Z) (w : World sample_ext) := set_env (advance d (env w)) w in
  let w := createTask (world_of health_config) in
  let w := createTask (later (90 * time_Minute) w) in
  let w := later (30 * time_Minute - 10 * time_Millisecond) w in
  let w := match Acquire 1 p context_Background w with
           | Some (Done (inr c) w') => Conn_Release p c w'
           | _ => w
           end in
  let w := createTask w in
  later (10 * time_Millisecond) w.

(** The configuration [ParseConfig] builds for the least [int32] as the
    minimum, connected at once: its pool starts with one connection. *)
Definition least_min_config : Config sample_ext :=
  match ParseConfig "host=db pool_max_conns=2 pool_min_conns=-2147483648" with
  | inr c => c
  | inl _ => foreign_config
  end.


(** The worlds the pool whose hook rejects every connection goes through:
    open, empty, with room, and a server that accepts connections. *)
Definition stubborn_world (w : World sample_ext) : Prop :=
  closed (core w) = false
  /\ idleResources (core w) = []
  /\ acquiredResources (core w) = []
  /\ maxSize (core w) = 2
  /\ constructor (core w) = poolConstructor (pool_of stubborn_config)
  /\ destructor (core w) = poolDestructor
  /\ refusing (ext (env w)) = false.

(** The worlds the pool whose hook rejects the first connection it sees
    goes through, and the rejections its hook has left. *)
Definition retry_world (w : World sample_ext) : Prop :=
  constructor (core w) = poolConstructor (pool_of retry_config)
  /\ destructor (core w) = poolDestructor.

Definition rejections_left (w : World sample_ext) : nat :=
  (1 - hook_calls (ext (env w)))%nat.

(** * Properties *)

(** ** Configuration parsing *)

Section ParseConfigProperties.
Context {E : Type} `{ParseEnv}.

Ltac stage_lookup :=
  cbn [stage ConnConfig RuntimeParams take pool_keys foldl];
  rewrite ?lookup_delete_ne by discriminate.

Ltac stage_eq :=
  unfold stage, delete_param, set_RuntimeParams, set_MaxConns, set_MinConns,
    set_MaxConnLifetime, set_MaxConnIdleTime, set_HealthCheckPeriod, parsed_config,
    int_setting, duration_setting;
  cbn [ConnConfig RuntimeParams Transport take pool_keys foldl Nat.leb
       BeforeConnect AfterConnect BeforeAcquire AfterRelease MaxConnLifetime
       MaxConnIdleTime MaxConns MinConns HealthCheckPeriod LazyConnect
       createdByParseConfig].

Lemma step_max_conns (cc : pgx_ConnConfig) :
  parse_pool_max_conns (E:=E) (newConfig cc) = step_result 1 "pool_max_conns" cc.
Proof.
  destruct cc as [params transport].
  unfold parse_pool_max_conns, step_result, key_error, max_conns_error.
  cbn [newConfig ConnConfig RuntimeParams String.eqb Ascii.eqb Bool.eqb].
  destruct (params !! "pool_max_conns") as [v|] eqn:Hk.
  - destruct (strconv_ParseInt v 32) as [err|n] eqn:Hp; [reflexivity|].
    destruct (n <? 1); [reflexivity|].
    stage_eq. now rewrite Hk, Hp.
  - stage_eq. rewrite Hk, (delete_id _ _ Hk).
    now destruct (defaultMaxConns <? int32 runtime_NumCPU).
Qed.

Lemma step_min_conns (cc : pgx_ConnConfig) :
  parse_pool_min_conns (E:=E) (stage 1 cc) = step_result 2 "pool_min_conns" cc.
Proof.
  destruct cc as [params transport].
  unfold parse_pool_min_conns, step_result, key_error, min_conns_error.
  stage_lookup. cbn [String.eqb Ascii.eqb Bool.eqb].
  destruct (params !! "pool_min_conns") as [v|] eqn:Hk.
  - destruct (strconv_ParseInt v 32) as [err|n] eqn:Hp; [reflexivity|].
    stage_eq. now rewrite Hk, Hp.
  - stage_eq. rewrite Hk.
    now rewrite (delete_id (delete _ params) "pool_min_conns")
      by (rewrite ?lookup_delete_ne by discriminate; exact Hk).
Qed.

Lemma step_duration (n : nat) (key : string) (cc : pgx_ConnConfig)
    (parse : Config E -> error + Config E) :
  (n, key, parse) = (3%nat, "pool_max_conn_lifetime", parse_pool_max_conn_lifetime)
  \/ (n, key, parse) = (4%nat, "pool_max_conn_idle_time", parse_pool_max_conn_idle_time)
  \/ (n, key, parse) = (5%nat, "pool_health_check_period", parse_pool_health_check_period) ->
  parse (stage (pred n) cc) = step_result n key cc.
Proof.
  destruct cc as [params transport].
  intros [Hcase|[Hcase|Hcase]]; injection Hcase as -> -> ->;
    unfold parse_pool_max_conn_lifetime, parse_pool_max_conn_idle_time,
      parse_pool_health_check_period, step_result, key_error, duration_error;
    cbn [pred]; stage_lookup; cbn [String.eqb Ascii.eqb Bool.eqb String.append];
    match goal with |- context [params !! ?k] => destruct (params !! k) as [v|] eqn:Hk end.
  1,3,5: destruct (time_ParseDuration v) as [err|d] eqn:Hp; [reflexivity|];
    stage_eq; now rewrite Hk, Hp.
  all: stage_eq; rewrite Hk;
    match goal with |- context [delete ?k (delete ?k' ?m)] =>
      now rewrite (delete_id (delete k' m) k)
        by (rewrite ?lookup_delete_ne by discriminate; exact Hk)
    end.
Qed.

Lemma stage_last (cc : pgx_ConnConfig) : stage (E:=E) 5 cc = parsed_config cc.
Proof.
  destruct cc as [params transport]. stage_eq. do 2 f_equal.
  apply map_eq. intros k. unfold pool_keys. cbn [foldr].
  rewrite !lookup_delete.
  repeat case_decide; congruence.
Qed.

(** One block, followed by the rest of [ParseConfig]. *)
Lemma chain_step (n : nat) (key : string) (keys : list string) (cc : pgx_ConnConfig)
    (rest : Config E -> error + Config E) (r : error + Config E) :
  rest (stage n cc)
  = match first_error keys (RuntimeParams cc) with
    | Some (_, err) => inl err
    | None => r
    end ->
  and_then (step_result n key cc) rest
  = match first_error (key :: keys) (RuntimeParams cc) with
    | Some (_, err) => inl err
    | None => r
    end.
Proof.
  intros Hrest. unfold step_result, and_then. cbn [first_error].
  destruct (RuntimeParams cc !! key) as [v|]; [|exact Hrest].
  destruct (key_error key v); [reflexivity|exact Hrest].
Qed.

(** [ParseConfig] computes what the table of keys says. *)
Lemma ParseConfig_by_key (connString : string) :
  ParseConfig (E:=E) connString
  = match pgx_ParseConfig connString with
    | inl err => inl err
    | inr connConfig =>
      match first_error pool_keys (RuntimeParams connConfig) with
      | Some (_, err) => inl err
      | None => inr (parsed_config connConfig)
      end
    end.
Proof.
  unfold ParseConfig.
  destruct (pgx_ParseConfig connString) as [err|cc]; [reflexivity|].
  cbn [and_then]. unfold pool_keys.
  rewrite step_max_conns. apply chain_step.
  rewrite step_min_conns. apply chain_step.
  rewrite (step_duration 3 "pool_max_conn_lifetime") by auto. apply chain_step.
  rewrite (step_duration 4 "pool_max_conn_idle_time") by auto. apply chain_step.
  rewrite (step_duration 5 "pool_health_check_period") by auto. apply chain_step.
  cbn [first_error]. now rewrite stage_last.
Qed.

Lemma first_error_Some (keys : list string) (params : gmap string string)
    (key : string) (err : error) :
  first_error keys params = Some (key, err) ->
  key ∈ keys /\ exists v, params !! key = Some v /\ key_error key v = Some err.
Proof.
  induction keys as [|k keys IH]; cbn [first_error]; [discriminate|].
  intros Hfirst.
  assert (Htail : first_error keys params = Some (key, err) ->
                  key ∈ k :: keys
                  /\ exists v, params !! key = Some v /\ key_error key v = Some err).
  { intros Hin. destruct (IH Hin) as [Hmem Hv]. split; [now right|exact Hv]. }
  destruct (params !! k) as [v|] eqn:Hk; [|now apply Htail].
  destruct (key_error k v) as [e|] eqn:He; [|now apply Htail].
  injection Hfirst as <- <-. split; [now left|]. now exists v.
Qed.

Lemma first_error_None (keys : list string) (params : gmap string string)
    (key v : string) :
  first_error keys params = None -> key ∈ keys -> params !! key = Some v ->
  key_error key v = None.
Proof.
  induction keys as [|k keys IH]; cbn [first_error]; intros Hnone Hin Hv.
  - now apply elem_of_nil in Hin.
  - apply elem_of_cons in Hin as [->|Hin].
    + rewrite Hv in Hnone. now destruct (key_error k v).
    + apply IH; [|exact Hin|exact Hv].
      destruct (params !! k) as [v'|]; [|exact Hnone].
      now destruct (key_error k v').
Qed.

(** The refused key is the first one in the order of the keys: every key
    before it is absent or has an accepted value. *)
Lemma first_error_first (keys : list string) (params : gmap string string)
    (key : string) (err : error) :
  first_error keys params = Some (key, err) ->
  exists pre post : list string,
    keys = pre ++ key :: post
    /\ forall key' v', key' ∈ pre -> params !! key' = Some v' -> key_error key' v' = None.
Proof.
  induction keys as [|k keys IH]; cbn [first_error]; [discriminate|].
  intros Hfirst.
  assert (Htail : (forall v', params !! k = Some v' -> key_error k v' = None) ->
                  first_error keys params = Some (key, err) ->
                  exists pre post : list string,
                    k :: keys = pre ++ key :: post
                    /\ forall key' v', key' ∈ pre -> params !! key' = Some v' ->
                                       key_error key' v' = None).
  { intros Hk Hin. destruct (IH Hin) as (pre & post & -> & Hpre).
    exists (k :: pre), post. split; [reflexivity|].
    intros key' v' Hmem Hv. apply elem_of_cons in Hmem as [->|Hmem];
      [now apply Hk|now apply Hpre]. }
  destruct (params !! k) as [v|] eqn:Hk; [|apply Htail; [discriminate|exact Hfirst]].
  destruct (key_error k v) as [e|] eqn:He.
  - injection Hfirst as <- <-. exists [], keys. split; [reflexivity|].
    intros key' v' Hmem. now apply elem_of_nil in Hmem.
  - apply Htail; [|exact Hfirst]. intros v' [= <-]. exact He.
Qed.

(** The error [ParseConfig] has for a refused value, key by key. *)
Lemma key_error_shape (key v : string) (err : error) :
  key ∈ pool_keys -> key_error key v = Some err ->
  (key = "pool_max_conns"
   /\ ((exists e, strconv_ParseInt v 32 = inl e
                  /\ err = Errorf_w "cannot parse pool_max_conns: " e)
       \/ (exists n, strconv_ParseInt v 32 = inr n /\ n < 1
                     /\ err = Errorf_d "pool_max_conns too small: " n)))
  \/ (key = "pool_min_conns"
      /\ exists e, strconv_ParseInt v 32 = inl e
                   /\ err = Errorf_w "cannot parse pool_min_conns: " e)
  \/ (key ∈ duration_keys
      /\ exists e, time_ParseDuration v = inl e
                   /\ err = Errorf_w ("invalid " +:+ key +:+ ": ") e).
Proof.
  intros Hin Herr.
  unfold pool_keys in Hin. rewrite !elem_of_cons in Hin.
  destruct Hin as [->|[->|[->|[->|[->|Hin]]]]]; [..|now apply elem_of_nil in Hin];
    unfold key_error, max_conns_error, min_conns_error, duration_error in Herr;
    cbn [String.eqb Ascii.eqb Bool.eqb] in Herr.
  - left. split; [reflexivity|].
    destruct (strconv_ParseInt v 32) as [e|n].
    + injection Herr as <-. left. now exists e.
    + destruct (n <? 1) eqn:Hlt; [|discriminate].
      apply Z.ltb_lt in Hlt. injection Herr as <-. right. now exists n.
  - right. left. split; [reflexivity|].
    destruct (strconv_ParseInt v 32) as [e|n]; [|discriminate].
    injection Herr as <-. now exists e.
  - right. right. split; [unfold duration_keys; rewrite !elem_of_cons; tauto|].
    destruct (time_ParseDuration v) as [e|d]; [|discriminate].
    injection Herr as <-. now exists e.
  - right. right. split; [unfold duration_keys; rewrite !elem_of_cons; tauto|].
    destruct (time_ParseDuration v) as [e|d]; [|discriminate].
    injection Herr as <-. now exists e.
  - right. right. split; [unfold duration_keys; rewrite !elem_of_cons; tauto|].
    destruct (time_ParseDuration v) as [e|d]; [|discriminate].
    injection Herr as <-. now exists e.
Qed.

(** The error for a refused value names the key. *)
Lemma key_error_names (key v : string) (err : error) :
  key ∈ pool_keys -> key_error key v = Some err -> names_key err key.
Proof.
  intros Hin Herr. unfold names_key.
  unfold pool_keys in Hin. rewrite !elem_of_cons in Hin.
  destruct Hin as [->|[->|[->|[->|[->|Hin]]]]]; [..|now apply elem_of_nil in Hin];
    unfold key_error, max_conns_error, min_conns_error, duration_error in Herr;
    cbn [String.eqb Ascii.eqb Bool.eqb String.append] in Herr.
  - destruct (strconv_ParseInt v 32) as [e|n].
    + injection Herr as <-. now exists "cannot parse ", (": " +:+ Error e).
    + destruct (n <? 1); [|discriminate].
      injection Herr as <-. now exists "", (" too small: " +:+ pretty n).
  - destruct (strconv_ParseInt v 32) as [e|n]; [|discriminate].
    injection Herr as <-. now exists "cannot parse ", (": " +:+ Error e).
  - destruct (time_ParseDuration v) as [e|d]; [|discriminate].
    injection Herr as <-. now exists "invalid ", (": " +:+ Error e).
  - destruct (time_ParseDuration v) as [e|d]; [|discriminate].
    injection Herr as <-. now exists "invalid ", (": " +:+ Error e).
  - destruct (time_ParseDuration v) as [e|d]; [|discriminate].
    injection Herr as <-. now exists "invalid ", (": " +:+ Error e).
Qed.

(** What each key refuses. *)
Lemma key_error_meaning (v : string) :
  (key_error "pool_max_conns" v = None
   <-> exists n, strconv_ParseInt v 32 = inr n /\ 1 <= n)
  /\ (key_error "pool_min_conns" v = None <-> exists n, strconv_ParseInt v 32 = inr n)
  /\ (forall key, key ∈ duration_keys ->
        (key_error key v = None <-> exists d, time_ParseDuration v = inr d)).
Proof.
  unfold key_error, max_conns_error, min_conns_error.
  cbn [String.eqb Ascii.eqb Bool.eqb].
  split; [|split].
  - destruct (strconv_ParseInt v 32) as [e|n].
    + split; [discriminate|]. now intros [n [Hn _]].
    + destruct (n <? 1) eqn:Hlt.
      * split; [discriminate|]. intros [n' [Hn Hle]]. injection Hn as <-. lia.
      * split; [|reflexivity]. intros _. exists n. split; [reflexivity|lia].
  - destruct (strconv_ParseInt v 32) as [e|n].
    + split; [discriminate|]. now intros [n Hn].
    + split; [|reflexivity]. intros _. now exists n.
  - intros key Hin. unfold duration_keys in Hin. rewrite !elem_of_cons in Hin.
    destruct Hin as [->|[->|[->|Hin]]]; [..|now apply elem_of_nil in Hin];
      cbn [String.eqb Ascii.eqb Bool.eqb]; unfold duration_error;
      (destruct (time_ParseDuration v) as [e|d];
       [split; [discriminate|now intros [d Hd]]|split; [now exists d|reflexivity]]).
Qed.

(** C6, as the code has it. After the connection string itself has parsed:
    every error of [ParseConfig] is the error of the first recognised key,
    in the order [ParseConfig] reads them, that is present with a refused
    value -- every key before it is absent or accepted -- and it names that
    key; a present key whose value is refused makes [ParseConfig] fail,
    where [pool_max_conns] refuses what is not a 32-bit integer or is below
    1, [pool_min_conns] what is not a 32-bit integer, and the three
    durations what [time.ParseDuration] refuses; the error for a refused
    value is [cannot parse <key>: ...] around the error of
    [strconv.ParseInt], [pool_max_conns too small: <n>], or
    [invalid <key>: ...] around the error of [time.ParseDuration]; and when
    no present value is refused and [pool_min_conns] is not negative,
    [ParseConfig] succeeds with the values as parsed: durations of any
    sign, and a minimum that is not compared with the maximum. *)
Theorem ParseConfig_rejections (connString : string) (cc : pgx_ConnConfig) :
  pgx_ParseConfig connString = inr cc ->
  (forall err, ParseConfig (E:=E) connString = inl err ->
     exists (key v : string) (pre post : list string),
       pool_keys = pre ++ key :: post
       /\ RuntimeParams cc !! key = Some v
       /\ key_error key v = Some err
       /\ names_key err key
       /\ forall key' v', key' ∈ pre -> RuntimeParams cc !! key' = Some v' ->
                          key_error key' v' = None)
  /\ (forall key v, key ∈ pool_keys -> RuntimeParams cc !! key = Some v ->
        key_error key v <> None ->
        exists err, ParseConfig (E:=E) connString = inl err)
  /\ (forall v,
        (key_error "pool_max_conns" v = None
         <-> exists n, strconv_ParseInt v 32 = inr n /\ 1 <= n)
        /\ (key_error "pool_min_conns" v = None
            <-> exists n, strconv_ParseInt v 32 = inr n)
        /\ (forall key, key ∈ duration_keys ->
              (key_error key v = None <-> exists d, time_ParseDuration v = inr d)))
  /\ (forall key v err, key ∈ pool_keys -> key_error key v = Some err ->
        (key = "pool_max_conns"
         /\ ((exists e, strconv_ParseInt v 32 = inl e
                        /\ err = Errorf_w "cannot parse pool_max_conns: " e)
             \/ (exists n, strconv_ParseInt v 32 = inr n /\ n < 1
                           /\ err = Errorf_d "pool_max_conns too small: " n)))
        \/ (key = "pool_min_conns"
            /\ exists e, strconv_ParseInt v 32 = inl e
                         /\ err = Errorf_w "cannot parse pool_min_conns: " e)
        \/ (key ∈ duration_keys
            /\ exists e, time_ParseDuration v = inl e
                         /\ err = Errorf_w ("invalid " +:+ key +:+ ": ") e))
  /\ ((forall key v, key ∈ pool_keys -> RuntimeParams cc !! key = Some v ->
         key_error key v = None) ->
      0 <= MinConns (parsed_config (E:=E) cc) ->
      ParseConfig (E:=E) connString = inr (parsed_config cc)).
Proof.
  intros Hpgx. rewrite ParseConfig_by_key, Hpgx.
  split; [|split; [|split; [|split]]].
  - intros err Herr.
    destruct (first_error pool_keys (RuntimeParams cc)) as [[key e]|] eqn:Hfirst;
      [|discriminate].
    injection Herr as ->.
    destruct (first_error_Some _ _ _ _ Hfirst) as [Hin [v [Hv He]]].
    destruct (first_error_first _ _ _ _ Hfirst) as (pre & post & Hkeys & Hpre).
    exists key, v, pre, post. split; [exact Hkeys|]. split; [exact Hv|].
    split; [exact He|]. split; [now apply (key_error_names key v)|exact Hpre].
  - intros key v Hin Hv Hrefused.
    destruct (first_error pool_keys (RuntimeParams cc)) as [[key' e]|] eqn:Hfirst.
    + now exists e.
    + now rewrite (first_error_None _ _ _ _ Hfirst Hin Hv) in Hrefused.
  - exact key_error_meaning.
  - exact key_error_shape.
  - intros Hok _.
    destruct (first_error pool_keys (RuntimeParams cc)) as [[key e]|] eqn:Hfirst;
      [|reflexivity].
    destruct (first_error_Some _ _ _ _ Hfirst) as [Hin [v [Hv He]]].
    now rewrite (Hok key v Hin Hv) in He.
Qed.

(** C7. When the connection string parses and [ParseConfig] succeeds, the
    field of every recognised key that is absent has its default: the
    larger of 4 and the number of CPUs, 0, one hour, thirty minutes and one
    minute (in nanoseconds). *)
Theorem ParseConfig_defaults (connString : string) (cc : pgx_ConnConfig) (cfg : Config E) :
  pgx_ParseConfig connString = inr cc ->
  ParseConfig connString = inr cfg ->
  - 2 ^ 31 <= runtime_NumCPU < 2 ^ 31 ->
  (RuntimeParams cc !! "pool_max_conns" = None -> MaxConns cfg = Z.max 4 runtime_NumCPU)
  /\ (RuntimeParams cc !! "pool_min_conns" = None -> MinConns cfg = 0)
  /\ (RuntimeParams cc !! "pool_max_conn_lifetime" = None ->
      MaxConnLifetime cfg = 3600 * 1000000000)
  /\ (RuntimeParams cc !! "pool_max_conn_idle_time" = None ->
      MaxConnIdleTime cfg = 1800 * 1000000000)
  /\ (RuntimeParams cc !! "pool_health_check_period" = None ->
      HealthCheckPeriod cfg = 60 * 1000000000).
Proof.
  intros Hpgx Hparse Hcpu. rewrite ParseConfig_by_key, Hpgx in Hparse.
  destruct (first_error pool_keys (RuntimeParams cc)) as [[key e]|]; [discriminate|].
  injection Hparse as <-.
  unfold parsed_config.
  cbn [MaxConns MinConns MaxConnLifetime MaxConnIdleTime HealthCheckPeriod].
  repeat split; intros ->; cbn [int_setting duration_setting]; try reflexivity.
  assert (Hwrap : int32 runtime_NumCPU = runtime_NumCPU).
  { unfold int32. rewrite Z.mod_small by lia. lia. }
  rewrite Hwrap. change defaultMaxConns with 4.
  destruct (4 <? runtime_NumCPU) eqn:Hlt; lia.
Qed.

(** C8. When the connection string parses and [ParseConfig] succeeds, no
    recognised key is left in the runtime parameters of the result, every
    other key has the value it had, and the transport settings are the
    same. *)
Theorem ParseConfig_consumes_pool_keys (connString : string) (cc : pgx_ConnConfig)
    (cfg : Config E) :
  pgx_ParseConfig connString = inr cc ->
  ParseConfig connString = inr cfg ->
  (forall key, key ∈ pool_keys -> RuntimeParams (ConnConfig cfg) !! key = None)
  /\ (forall key, key ∉ pool_keys ->
        RuntimeParams (ConnConfig cfg) !! key = RuntimeParams cc !! key)
  /\ Transport (ConnConfig cfg) = Transport cc.
Proof.
  intros Hpgx Hparse. rewrite ParseConfig_by_key, Hpgx in Hparse.
  destruct (first_error pool_keys (RuntimeParams cc)) as [[key e]|]; [discriminate|].
  injection Hparse as <-.
  unfold parsed_config. cbn [ConnConfig RuntimeParams Transport].
  split; [|split; [|reflexivity]]; intros key Hkey.
  - induction pool_keys as [|k keys IH]; [now apply elem_of_nil in Hkey|].
    cbn [foldr]. apply elem_of_cons in Hkey as [->|Hkey].
    + apply lookup_delete_eq.
    + rewrite lookup_delete. case_decide; [reflexivity|now apply IH].
  - induction pool_keys as [|k keys IH]; [reflexivity|].
    cbn [foldr]. rewrite not_elem_of_cons in Hkey. destruct Hkey as [Hne Hkey].
    rewrite lookup_delete_ne by congruence. now apply IH.
Qed.

End ParseConfigProperties.


(** ** The argument converter *)

Section Converter.
Context {V : Type} `{GoValue V}.

Lemma insert_at_length (done : list V) (x y : V) (todo : list V) :
  <[length done := y]> (done ++ x :: todo) = done ++ y :: todo.
Proof.
  induction done as [|d done IH]; simpl; [reflexivity|].
  now rewrite IH.
Qed.

Lemma lookup_at_length (done : list V) (x : V) (todo : list V) :
  (done ++ x :: todo) !! length done = Some x.
Proof. now apply list_lookup_middle. Qed.

(** The slot after the type assertion: the inner value when the argument is
    a [SensitiveData], the argument itself otherwise. *)
Lemma unwrap_in_place (done todo : list V) (arg0 : V) :
  match asSensitiveData arg0 with
  | Some _ => <[length done := unwrapSensitive arg0]> (done ++ arg0 :: todo)
  | None => done ++ arg0 :: todo
  end = done ++ unwrapSensitive arg0 :: todo.
Proof.
  unfold unwrapSensitive.
  destruct (asSensitiveData arg0) as [inner|]; [|reflexivity].
  apply insert_at_length.
Qed.

(** The loop, started after a prefix [done] that is already converted. *)
Lemma convertLoop_from (todo done : list V) :
  convertLoop (length todo) (length done) (done ++ todo)
  = match firstFailure todo with
    | None => (done ++ map convertedArg todo, inr (done ++ map convertedArg todo))
    | Some (k, err) =>
      (done ++ map convertedArg (take k todo) ++ map unwrapSensitive (take 1 (drop k todo))
         ++ drop (S k) todo, inl err)
    end.
Proof.
  revert done.
  induction todo as [|arg0 todo IH]; intros done.
  - reflexivity.
  - cbn [convertLoop length firstFailure].
    rewrite lookup_at_length, unwrap_in_place.
    assert (Hnext : forall x : V,
               convertLoop (length todo) (S (length done)) (done ++ x :: todo)
               = convertLoop (length todo) (length (done ++ [x])) ((done ++ [x]) ++ todo)).
    { intros x. rewrite length_app, <- app_assoc. simpl.
      now replace (length done + 1)%nat with (S (length done)) by lia. }
    assert (Hrest : forall x : V, argFailure arg0 = None -> convertedArg arg0 = x ->
               convertLoop (length todo) (S (length done)) (done ++ x :: todo)
               = match firstFailure (arg0 :: todo) with
                 | None => (done ++ map convertedArg (arg0 :: todo),
                            inr (done ++ map convertedArg (arg0 :: todo)))
                 | Some (k, err) =>
                   (done ++ map convertedArg (take k (arg0 :: todo))
                      ++ map unwrapSensitive (take 1 (drop k (arg0 :: todo)))
                      ++ drop (S k) (arg0 :: todo), inl err)
                 end).
    { intros x Hnone Hconv. rewrite Hnext, IH.
      cbn [firstFailure]. rewrite Hnone.
      destruct (firstFailure todo) as [[k err]|];
        cbn [map take drop]; rewrite Hconv, <- ?app_assoc; reflexivity. }
    cbn [firstFailure] in Hrest.
    destruct (type_switch (unwrapSensitive arg0)) eqn:Hsw.
    1-2,4: apply Hrest; [unfold argFailure|unfold convertedArg]; now rewrite Hsw.
    destruct (callValuerValue (unwrapSensitive arg0)) as [err|v] eqn:Hval.
    + assert (Hfail : argFailure arg0 = Some err)
        by (unfold argFailure; now rewrite Hsw, Hval).
      rewrite Hfail. cbn [take drop map app]. now rewrite drop_0.
    + rewrite insert_at_length.
      apply Hrest; [unfold argFailure|unfold convertedArg]; now rewrite Hsw, Hval.
Qed.

Lemma firstFailure_lt (args : list V) (k : nat) (err : error) :
  firstFailure args = Some (k, err) -> (k < length args)%nat.
Proof.
  revert k.
  induction args as [|a args IH]; intros k Hfail; simpl in *; [discriminate|].
  destruct (argFailure a); [injection Hfail as <- _; lia|].
  destruct (firstFailure args) as [[k' err']|]; [|discriminate].
  injection Hfail as <- <-. specialize (IH k' eq_refl). lia.
Qed.

(** The slice after the call, from its first element on. *)
Lemma convertedSlice_cons (arg0 : V) (args : list V) :
  convertedSlice (arg0 :: args)
  = match argFailure arg0 with
    | Some _ => unwrapSensitive arg0 :: args
    | None => convertedArg arg0 :: convertedSlice args
    end.
Proof.
  unfold convertedSlice. cbn [firstFailure].
  destruct (argFailure arg0) as [err|]; [reflexivity|].
  destruct (firstFailure args) as [[k err]|]; reflexivity.
Qed.

(** The loop, as the slice it leaves and the pair it returns. *)
Lemma convertDriverValuers_slice (args : list V) :
  convertDriverValuers args
  = (convertedSlice args,
     match firstFailure args with
     | None => inr (convertedSlice args)
     | Some (_, err) => inl err
     end).
Proof.
  unfold convertDriverValuers, convertedSlice.
  pose proof (convertLoop_from args []) as Hloop. cbn [length app] in Hloop.
  rewrite Hloop. now destruct (firstFailure args) as [[k err]|].
Qed.

Lemma unwrapped_unwrapSensitive (arg0 u : V) :
  unwrapped arg0 u <-> u = unwrapSensitive arg0.
Proof. unfold unwrapped, unwrapSensitive. now destruct (asSensitiveData arg0). Qed.

(** An argument that is converted does not fail, and its slot is the one
    the loop leaves. *)
Lemma replaced_by_loop (arg0 slot : V) :
  replaced_by arg0 slot -> argFailure arg0 = None /\ convertedArg arg0 = slot.
Proof.
  intros (u & Hu & Hcases). apply unwrapped_unwrapSensitive in Hu. subst u.
  unfold argFailure, convertedArg, type_switch.
  destruct Hcases as [(Hb & ->)|[(Hb & Ht & ->)|[(Hb & Ht & Hv & Hval)|(Hb & Ht & Hv & ->)]]].
  - now rewrite Hb.
  - now rewrite Hb, Ht.
  - now rewrite Hb, Ht, Hv, Hval.
  - now rewrite Hb, Ht, Hv.
Qed.

Lemma fails_with_loop (arg0 u : V) (err : error) :
  fails_with arg0 u err -> argFailure arg0 = Some err /\ unwrapSensitive arg0 = u.
Proof.
  intros (Hu & Hb & Ht & Hv & Hval). apply unwrapped_unwrapSensitive in Hu. subst u.
  unfold argFailure, type_switch. now rewrite Hb, Ht, Hv, Hval.
Qed.

(** Every argument is converted or fails. *)
Lemma converted_or_failing (arg0 : V) :
  (exists slot, replaced_by arg0 slot) \/ (exists u err, fails_with arg0 u err).
Proof.
  assert (Hu : unwrapped arg0 (unwrapSensitive arg0))
    by (now apply unwrapped_unwrapSensitive).
  destruct (isBinaryEncoder (unwrapSensitive arg0)) eqn:Hb.
  { left. exists (unwrapSensitive arg0), (unwrapSensitive arg0). split; [exact Hu|]. now left. }
  destruct (isTextEncoder (unwrapSensitive arg0)) eqn:Ht.
  { left. exists (unwrapSensitive arg0), (unwrapSensitive arg0). split; [exact Hu|].
    right. left. now repeat split. }
  destruct (isValuer (unwrapSensitive arg0)) eqn:Hv.
  - destruct (callValuerValue (unwrapSensitive arg0)) as [err|v] eqn:Hval.
    + right. exists (unwrapSensitive arg0), err. now repeat split.
    + left. exists v, (unwrapSensitive arg0). split; [exact Hu|].
      right. right. left. now repeat split.
  - left. exists (unwrapSensitive arg0), (unwrapSensitive arg0). split; [exact Hu|].
    right. right. right. now repeat split.
Qed.

(** C10. What [convertDriverValuers] does to the caller's slice (the first
    component) and what it returns (the second), told of the arguments as
    they are observed. When every argument is converted -- a
    [SensitiveData] unwrapped to its inner value first; then left as it is
    when it is a [BinaryEncoder] or a [TextEncoder], which take precedence,
    or no [driver.Valuer]; replaced by the result of its [Value] method
    otherwise -- the slice holds the converted arguments and is itself
    returned. When the arguments before some argument are converted and
    the [Value] method of that one fails, the result is nil with that
    error, the slots before it hold their replacements, its own slot holds
    the unwrapped argument, and the later slots are untouched. One of the
    two is the case for every slice. *)
Theorem convertDriverValuers_in_place :
  (forall args slots : list V,
     Forall2 replaced_by args slots ->
     convertDriverValuers args = (slots, inr slots))
  /\ (forall (pre post slots : list V) (arg0 u : V) (err : error),
        Forall2 replaced_by pre slots ->
        fails_with arg0 u err ->
        convertDriverValuers (pre ++ arg0 :: post) = (slots ++ u :: post, inl err))
  /\ (forall args : list V,
        (exists slots, Forall2 replaced_by args slots)
        \/ (exists (pre post slots : list V) (arg0 u : V) (err : error),
              args = pre ++ arg0 :: post
              /\ Forall2 replaced_by pre slots /\ fails_with arg0 u err)).
Proof.
  split; [|split].
  - intros args slots Hall. rewrite convertDriverValuers_slice.
    assert (Hsame : convertedSlice args = slots /\ firstFailure args = None).
    { induction Hall as [|arg0 slot args slots Harg _ [IHs IHf]]; [now split|].
      destruct (replaced_by_loop arg0 slot Harg) as [Hfail Hconv].
      rewrite convertedSlice_cons. cbn [firstFailure].
      now rewrite Hfail, Hconv, IHs, IHf. }
    destruct Hsame as [-> ->]. reflexivity.
  - intros pre post slots arg0 u err Hall Hfails. rewrite convertDriverValuers_slice.
    destruct (fails_with_loop arg0 u err Hfails) as [Hfail Hunwrap].
    assert (Hsame : convertedSlice (pre ++ arg0 :: post) = slots ++ u :: post
                    /\ exists k, firstFailure (pre ++ arg0 :: post) = Some (k, err)).
    { induction Hall as [|x slot pre slots Hx _ [IHs [k IHf]]].
      - cbn [app]. rewrite convertedSlice_cons. cbn [firstFailure].
        rewrite Hfail, Hunwrap. split; [reflexivity|now exists 0%nat].
      - destruct (replaced_by_loop x slot Hx) as [Hxfail Hxconv].
        cbn [app]. rewrite convertedSlice_cons. cbn [firstFailure].
        rewrite Hxfail, Hxconv, IHs, IHf. split; [reflexivity|now exists (S k)]. }
    destruct Hsame as [-> [k ->]]. reflexivity.
  - intros args. induction args as [|arg0 args IH].
    + left. exists []. constructor.
    + destruct (converted_or_failing arg0) as [[slot Hslot]|(u & err & Hfails)].
      * destruct IH as [[slots Hall]|(pre & post & slots & a & u & err & -> & Hall & Hfails)].
        -- left. exists (slot :: slots). now constructor.
        -- right. exists (arg0 :: pre), post, (slot :: slots), a, u, err.
           split; [reflexivity|]. split; [now constructor|exact Hfails].
      * right. exists [], args, [], arg0, u, err.
        split; [reflexivity|]. split; [constructor|exact Hfails].
Qed.

(** The order of the type switch: an encoder is left as it is even when it
    is a [driver.Valuer] too. *)
Lemma encoder_takes_precedence (arg0 : V) :
  isBinaryEncoder (unwrapSensitive arg0) || isTextEncoder (unwrapSensitive arg0) = true ->
  convertedArg arg0 = unwrapSensitive arg0 /\ argFailure arg0 = None.
Proof.
  intros Henc. unfold convertedArg, argFailure, type_switch.
  destruct (isBinaryEncoder (unwrapSensitive arg0)); [now split|].
  destruct (isTextEncoder (unwrapSensitive arg0)); [now split|].
  discriminate.
Qed.

(** A [driver.Valuer] that is no encoder is replaced by its value, or stops
    the conversion with the error of [Value]. *)
Lemma valuer_is_replaced (arg0 : V) :
  isBinaryEncoder (unwrapSensitive arg0) = false ->
  isTextEncoder (unwrapSensitive arg0) = false ->
  isValuer (unwrapSensitive arg0) = true ->
  match callValuerValue (unwrapSensitive arg0) with
  | inr v => convertedArg arg0 = v /\ argFailure arg0 = None
  | inl err => argFailure arg0 = Some err
  end.
Proof.
  intros Hb Ht Hv. unfold convertedArg, argFailure, type_switch.
  rewrite Hb, Ht, Hv.
  destruct (callValuerValue (unwrapSensitive arg0)); [reflexivity|now split].
Qed.

End Converter.

(** ** The pool *)

Section PoolProperties.
Context {E : Type} `{Driver E}.

Implicit Types (p : Pool E) (w : World E) (ctx : Context) (r : Resource).

(** One turn of the loop of [Acquire]. *)
Lemma Acquire_turn (fuel : nat) p ctx w :
  Acquire (S fuel) p ctx w
  = match puddle_Acquire ctx w with
    | Done (inl err) w => Some (Done (inl err) w)
    | Done (inr res) w =>
      let '(ok, e) := beforeAcquire_allows p ctx (conn (value res)) (ext (env w)) in
      let w := set_env (set_ext e (env w)) w in
      if ok then
        let '(c, cr) := getConn (value res) res in
        Some (Done (inr c) (store_value res cr w))
      else Acquire fuel p ctx (Resource_Destroy res w)
    | Parked w => Some (Parked w)
    end.
Proof. reflexivity. Qed.

(** C9. A configuration whose [createdByParseConfig] flag is unset makes
    [ConnectConfig] panic, before a pool is built or a goroutine launched:
    the panic leaves the environment as it was. *)
Theorem ConnectConfig_panics_on_foreign_config ctx (config : Config E) (v : Env E) :
  createdByParseConfig config = false ->
  ConnectConfig ctx config v = ConnectPanic "config must be created by ParseConfig" v.
Proof. intros Hflag. unfold ConnectConfig. now rewrite Hflag. Qed.

(** A configuration with the flag set never panics. *)
Lemma ConnectConfig_no_panic ctx (config : Config E) (v : Env E) :
  createdByParseConfig config = true ->
  forall msg v', ConnectConfig ctx config v <> ConnectPanic msg v'.
Proof.
  intros Hflag msg v'. unfold ConnectConfig. rewrite Hflag. cbn [negb].
  destruct (negb (LazyConnect config)); [|discriminate].
  destruct (puddle_Acquire _ _) as [[err|res] w|w]; try discriminate.
  destruct (Pool_Close w); discriminate.
Qed.

(** *** The resources a world accounts for *)

Lemma remove_res_not_leased r (l : list Resource) :
  existsb (same_res r) (remove_res r l) = false.
Proof.
  induction l as [|r' l IH]; [reflexivity|].
  unfold remove_res in *. cbn [List.filter].
  destruct (same_res r r') eqn:Hsame; cbn [negb]; [exact IH|].
  cbn [existsb]. now rewrite Hsame, IH.
Qed.

Lemma Resource_Release_not_leased r w : is_leased r (Resource_Release r w) = false.
Proof. unfold is_leased, Resource_Release. cbn. apply remove_res_not_leased. Qed.

Lemma Resource_Destroy_not_leased r w : is_leased r (Resource_Destroy r w) = false.
Proof. unfold is_leased, Resource_Destroy. cbn. apply remove_res_not_leased. Qed.

(** A released lease is no longer leased, whatever the after-release hook
    answers. *)
Lemma Conn_Release_not_leased p (c : Conn) w : is_leased (res c) (Conn_Release p c w) = false.
Proof.
  unfold Conn_Release.
  destruct (afterRelease p) as [hook|]; [|apply Resource_Release_not_leased].
  destruct (hook _ _) as [[|] e];
    [apply Resource_Release_not_leased|apply Resource_Destroy_not_leased].
Qed.

Lemma is_leased_store_value r r' (v : connResource) w :
  is_leased r (store_value r' v w) = is_leased r w.
Proof.
  unfold is_leased, store_value. cbn [core set_core set_resources acquiredResources].
  induction (acquiredResources (core w)) as [|x l IH]; [reflexivity|].
  cbn [map existsb]. rewrite IH. f_equal.
  unfold same_res. now destruct (Nat.eqb (res_id r') (res_id x)).
Qed.

Lemma existsb_app_last r (l : list Resource) :
  existsb (same_res r) (l ++ [r]) = true.
Proof.
  rewrite existsb_app. cbn [existsb]. unfold same_res at 2.
  rewrite Nat.eqb_refl. now destruct (existsb (same_res r) l).
Qed.

(** The resource the core pool hands out is leased. *)
Lemma puddle_Acquire_leases ctx w r w' :
  puddle_Acquire ctx w = Done (inr r) w' -> is_leased r w' = true.
Proof.
  unfold puddle_Acquire, is_leased.
  destruct (closed (core w)); [discriminate|].
  destruct (ctx_err ctx); [discriminate|].
  destruct (idleResources (core w)) as [|r0 idle] eqn:Hidle.
  - destruct (TotalResources (core w) <? maxSize (core w)); [|discriminate].
    destruct (construct ctx w) as [[err|v] w1]; [discriminate|].
    intros Hdone. injection Hdone as <- <-. cbn. apply existsb_app_last.
  - intros Hdone. injection Hdone as <- <-. cbn. apply existsb_app_last.
Qed.

(** The lease [Acquire] returns is leased in the world it returns. *)
Lemma Acquire_leases (fuel : nat) p ctx w (c : Conn) w' :
  Acquire fuel p ctx w = Some (Done (inr c) w') -> is_leased (res c) w' = true.
Proof.
  revert w. induction fuel as [|fuel IH]; intros w; [discriminate|].
  rewrite Acquire_turn.
  destruct (puddle_Acquire ctx w) as [[err|r] w1|w1] eqn:Hacq; try discriminate.
  destruct (beforeAcquire_allows _ _ _ _) as [[|] e]; cbn zeta.
  - cbn [getConn]. intros Hdone. injection Hdone as <- <-. cbn [res].
    rewrite is_leased_store_value.
    exact (puddle_Acquire_leases ctx w _ _ Hacq).
  - apply IH.
Qed.

(** What the wire-level calls of a lease leave alone. *)
Lemma Conn_Query_core ctx (c : Conn) (sql : string) (args : list Z) w :
  core (snd (Conn_Query ctx c sql args w)) = core w.
Proof. unfold Conn_Query. now destruct (pgx_Conn_Query _ _ _ _ _). Qed.

Lemma Conn_SendBatch_core ctx (c : Conn) (b : list string) w :
  core (snd (Conn_SendBatch ctx c b w)) = core w.
Proof. unfold Conn_SendBatch. now destruct (pgx_Conn_SendBatch _ _ _ _). Qed.

Lemma Conn_BeginTx_core ctx (c : Conn) (txOptions : string) w :
  core (snd (Conn_BeginTx ctx c txOptions w)) = core w.
Proof. unfold Conn_BeginTx. now destruct (pgx_Conn_BeginTx _ _ _ _). Qed.

Lemma is_leased_core r w w' : core w' = core w -> is_leased r w' = is_leased r w.
Proof. unfold is_leased. now intros ->. Qed.

(** C3, as the code has it. [Query]: when acquisition fails, the error
    sentinel [errRows] with that error is returned beside the error, and no
    lease exists; when the query fails, the lease is released at once and
    the sentinel with the query's error is returned beside it; otherwise the
    lease stays with the returned rows. [SendBatch]: when acquisition fails
    the sentinel [errBatchResults] is returned; otherwise the batch is sent,
    which reports no error at this point, and the lease stays with the
    returned results. [BeginTx]: when acquisition or the begin fails a nil
    transaction is returned beside the error, the lease, if there was one,
    released at once; otherwise the lease stays with the transaction. Each
    error-reporting method of a sentinel yields the stored error. *)
Theorem long_lived_operations_on_failure (fuel : nat) p ctx w :
  (forall (sql : string) (args : list Z),
     match Acquire fuel p ctx w with
     | Some (Done (inl err) w1) =>
       Query fuel p ctx sql args w = Some (Done (ErrRows err, Some err) w1)
     | Some (Done (inr c) w1) =>
       match Conn_Query ctx c sql args w1 with
       | (inl err, w2) =>
         Query fuel p ctx sql args w
         = Some (Done (ErrRows err, Some err) (Conn_Release p c w2))
         /\ is_leased (res c) (Conn_Release p c w2) = false
       | (inr rows, w2) =>
         exists w3, Query fuel p ctx sql args w = Some (Done (PoolRows c rows, None) w3)
                    /\ is_leased (res c) w3 = true
       end
     | Some (Parked w1) => Query fuel p ctx sql args w = Some (Parked w1)
     | None => Query fuel p ctx sql args w = None
     end)
  /\ (forall b : list string,
        match Acquire fuel p ctx w with
        | Some (Done (inl err) w1) =>
          SendBatch fuel p ctx b w = Some (Done (ErrBatchResults err) w1)
        | Some (Done (inr c) w1) =>
          exists br w2, SendBatch fuel p ctx b w = Some (Done (PoolBatchResults br c) w2)
                        /\ is_leased (res c) w2 = true
        | Some (Parked w1) => SendBatch fuel p ctx b w = Some (Parked w1)
        | None => SendBatch fuel p ctx b w = None
        end)
  /\ (forall txOptions : string,
        match Acquire fuel p ctx w with
        | Some (Done (inl err) w1) =>
          BeginTx fuel p ctx txOptions w = Some (Done (None, Some err) w1)
        | Some (Done (inr c) w1) =>
          match Conn_BeginTx ctx c txOptions w1 with
          | (inl err, w2) =>
            BeginTx fuel p ctx txOptions w
            = Some (Done (None, Some err) (Conn_Release p c w2))
            /\ is_leased (res c) (Conn_Release p c w2) = false
          | (inr t, w2) =>
            BeginTx fuel p ctx txOptions w
            = Some (Done (Some {| Tx_t := t; Tx_c := c |}, None) w2)
            /\ is_leased (res c) w2 = true
          end
        | Some (Parked w1) => BeginTx fuel p ctx txOptions w = Some (Parked w1)
        | None => BeginTx fuel p ctx txOptions w = None
        end)
  /\ (forall (err : error) (m : rows_method), errRows_call err m = err)
  /\ (forall (err : error) (m : batch_method), errBatchResults_call err m = err).
Proof.
  split; [|split; [|split; [|split]]]; try reflexivity.
  - intros sql args. unfold Query.
    destruct (Acquire fuel p ctx w) as [[[err|c] w1|w1]|] eqn:Hacq; try reflexivity.
    pose proof (Acquire_leases _ _ _ _ _ _ Hacq) as Hleased.
    pose proof (Conn_Query_core ctx c sql args w1) as Hcore.
    destruct (Conn_Query ctx c sql args w1) as [[err|rows] w2]; cbn [snd] in Hcore.
    + split; [reflexivity|apply Conn_Release_not_leased].
    + unfold Conn_getPoolRows, getPoolRows. eexists. split; [reflexivity|].
      rewrite is_leased_store_value. now rewrite (is_leased_core _ _ _ Hcore).
  - intros b. unfold SendBatch.
    destruct (Acquire fuel p ctx w) as [[[err|c] w1|w1]|] eqn:Hacq; try reflexivity.
    pose proof (Acquire_leases _ _ _ _ _ _ Hacq) as Hleased.
    pose proof (Conn_SendBatch_core ctx c b w1) as Hcore.
    destruct (Conn_SendBatch ctx c b w1) as [br w2]; cbn [snd] in Hcore.
    exists br, w2. split; [reflexivity|]. now rewrite (is_leased_core _ _ _ Hcore).
  - intros txOptions. unfold BeginTx.
    destruct (Acquire fuel p ctx w) as [[[err|c] w1|w1]|] eqn:Hacq; try reflexivity.
    pose proof (Acquire_leases _ _ _ _ _ _ Hacq) as Hleased.
    pose proof (Conn_BeginTx_core ctx c txOptions w1) as Hcore.
    destruct (Conn_BeginTx ctx c txOptions w1) as [[err|t] w2]; cbn [snd] in Hcore.
    + split; [reflexivity|apply Conn_Release_not_leased].
    + split; [reflexivity|]. now rewrite (is_leased_core _ _ _ Hcore).
Qed.

Lemma remove_res_last r (l : list Resource) :
  existsb (same_res r) l = false -> remove_res r (l ++ [r]) = l.
Proof.
  intros Hnot. unfold remove_res. rewrite List.filter_app. cbn [List.filter].
  unfold same_res at 2. rewrite Nat.eqb_refl. cbn [negb]. rewrite app_nil_r.
  induction l as [|x l IH]; [reflexivity|].
  cbn [existsb] in Hnot. apply orb_false_elim in Hnot as [Hx Hl].
  cbn [List.filter]. rewrite Hx. cbn [negb]. now rewrite IH.
Qed.

(** The core acquire on a pool with nothing idle and room for one more:
    the factory is called, and its connection is a new leased resource. *)
Lemma puddle_Acquire_constructs ctx w (cr : connResource) (e1 : E) :
  closed (core w) = false -> ctx_err ctx = None ->
  idleResources (core w) = [] ->
  TotalResources (core w) < maxSize (core w) ->
  constructor (core w) ctx (ext (env w)) = (inr cr, e1) ->
  let r := {| res_id := nextID (core w); value := cr;
              creationTime := clock (env w); lastUsedNano := clock (env w) |} in
  puddle_Acquire ctx w
  = Done (inr r)
         (set_core (bump_nextID (set_resources [] (acquiredResources (core w) ++ [r]) (core w)))
                   (set_env (emit EvFactory (set_ext e1 (env w))) w)).
Proof.
  intros Hopen Hctx Hidle Hroom Hcons. cbn zeta.
  unfold puddle_Acquire. rewrite Hopen, Hctx, Hidle.
  apply Z.ltb_lt in Hroom. rewrite Hroom.
  unfold construct. rewrite Hcons.
  unfold newResource. cbn. now rewrite Hidle.
Qed.

(** C1. One turn of [Acquire]: an error of the core acquire is returned
    unchanged, in the world the core left; a connection the before-acquire
    hook accepts -- and a nil hook accepts every connection -- is returned
    as a lease on that resource, with no destructor run; a connection the
    hook rejects is destroyed (it is no longer leased, and the destructor
    ran on it) and the loop goes on from there. In particular, on a pool
    with no resource and room for one, a hook that rejects the first
    connection and accepts the second makes [Acquire] return a lease on the
    second after exactly two factory calls and one destructor call, on the
    first connection. *)
Theorem Acquire_retries_on_rejection (fuel : nat) p ctx w :
  (forall err w1, puddle_Acquire ctx w = Done (inl err) w1 ->
     Acquire (S fuel) p ctx w = Some (Done (inl err) w1))
  /\ (forall res w1 e,
        puddle_Acquire ctx w = Done (inr res) w1 ->
        beforeAcquire_allows p ctx (conn (value res)) (ext (env w1)) = (true, e) ->
        exists w2, Acquire (S fuel) p ctx w = Some (Done (inr {| res := res |}) w2)
                   /\ is_leased res w2 = true
                   /\ log (env w2) = log (env w1))
  /\ (forall res w1 e,
        puddle_Acquire ctx w = Done (inr res) w1 ->
        beforeAcquire_allows p ctx (conn (value res)) (ext (env w1)) = (false, e) ->
        let w2 := Resource_Destroy res (set_env (set_ext e (env w1)) w1) in
        Acquire (S fuel) p ctx w = Acquire fuel p ctx w2
        /\ is_leased res w2 = false
        /\ log (env w2) = log (env w1) ++ [EvDestructor (conn (value res))])
  /\ (beforeAcquire p = None ->
      forall (c : PgxConn) (e : E), beforeAcquire_allows p ctx c e = (true, e))
  /\ (forall (cr1 cr2 : connResource) (e1 e2 e3 e4 : E),
        closed (core w) = false -> ctx_err ctx = None ->
        idleResources (core w) = [] -> acquiredResources (core w) = [] ->
        0 < maxSize (core w) ->
        constructor (core w) ctx (ext (env w)) = (inr cr1, e1) ->
        beforeAcquire_allows p ctx (conn cr1) e1 = (false, e2) ->
        constructor (core w) ctx (destructor (core w) cr1 e2) = (inr cr2, e3) ->
        beforeAcquire_allows p ctx (conn cr2) e3 = (true, e4) ->
        exists (c : Conn) w',
          Acquire (S (S fuel)) p ctx w = Some (Done (inr c) w')
          /\ conn (value (res c)) = conn cr2
          /\ log (env w') = log (env w) ++ [EvFactory; EvDestructor (conn cr1); EvFactory]
          /\ factory_calls (log (env w')) = (factory_calls (log (env w)) + 2)%nat
          /\ destructor_calls (log (env w')) = (destructor_calls (log (env w)) + 1)%nat).
Proof.
  split; [|split; [|split; [|split]]].
  - intros err w1 Hacq. now rewrite Acquire_turn, Hacq.
  - intros r w1 e Hacq Hhook. rewrite Acquire_turn, Hacq, Hhook. cbn zeta.
    cbn [getConn]. eexists. split; [reflexivity|].
    rewrite is_leased_store_value. split; [|reflexivity].
    exact (puddle_Acquire_leases ctx w _ _ Hacq).
  - intros r w1 e Hacq Hhook. cbn zeta. rewrite Acquire_turn, Hacq, Hhook. cbn zeta.
    split; [reflexivity|]. split; [apply Resource_Destroy_not_leased|reflexivity].
  - intros Hnil c e. unfold beforeAcquire_allows. now rewrite Hnil.
  - intros cr1 cr2 e1 e2 e3 e4 Hopen Hctx Hidle Hacq Hroom Hc1 Hh1 Hc2 Hh2.
    assert (Hroom' : TotalResources (core w) < maxSize (core w)).
    { unfold TotalResources. rewrite Hidle, Hacq. exact Hroom. }
    rewrite Acquire_turn.
    rewrite (puddle_Acquire_constructs ctx w cr1 e1 Hopen Hctx Hidle Hroom' Hc1).
    cbn [value conn env ext set_env set_ext emit set_core]. rewrite Hh1. cbn zeta.
    rewrite Hacq. cbn [app].
    match goal with |- context [Acquire (S fuel) p ctx ?w2] => set (w2' := w2) end.
    assert (Hacq2 : acquiredResources (core w2') = []).
    { unfold w2', Resource_Destroy. cbn. unfold same_res. cbn [res_id].
      now rewrite Nat.eqb_refl. }
    assert (Hroom2 : TotalResources (core w2') < maxSize (core w2')).
    { unfold TotalResources. rewrite Hacq2. exact Hroom. }
    rewrite Acquire_turn.
    rewrite (puddle_Acquire_constructs ctx w2' cr2 e3 Hopen Hctx eq_refl Hroom2 Hc2).
    cbn [value conn env ext set_env set_ext emit set_core]. rewrite Hh2. cbn zeta.
    cbn [getConn]. eexists _, _. split; [reflexivity|].
    split; [reflexivity|].
    cbn [store_value env set_core set_env set_ext log emit w2' Resource_Destroy core
         value conn].
    rewrite <- !app_assoc. cbn [app].
    split; [reflexivity|].
    unfold factory_calls, destructor_calls.
    rewrite !List.filter_app, !length_app. cbn [List.filter length]. lia.
Qed.

(** More fuel does not change a result. *)
Lemma Acquire_fuel_mono (fuel fuel' : nat) p ctx w (o : outcome (World E) (error + Conn)) :
  Acquire fuel p ctx w = Some o -> (fuel <= fuel')%nat -> Acquire fuel' p ctx w = Some o.
Proof.
  revert fuel' w. induction fuel as [|fuel IH]; intros fuel' w; [discriminate|].
  intros Hrun Hle. destruct fuel' as [|fuel']; [lia|].
  rewrite Acquire_turn in *.
  destruct (puddle_Acquire ctx w) as [[err|r] w1|w1]; try exact Hrun.
  destruct (beforeAcquire_allows _ _ _ _) as [[|] e]; [exact Hrun|].
  cbn zeta in *. apply IH; [exact Hrun|lia].
Qed.

(** A rejection leaves one idle resource fewer: the destroyed resource was
    popped from the idle resources, and destroying it adds none. *)
Lemma rejection_shrinks_idle ctx w r w1 (e : E) (idle : list Resource) :
  idleResources (core w) = r :: idle ->
  puddle_Acquire ctx w = Done (inr r) w1 ->
  idleResources (core (Resource_Destroy r (set_env (set_ext e (env w1)) w1))) = idle.
Proof.
  intros Hidle. unfold puddle_Acquire. rewrite Hidle.
  destruct (closed (core w)); [discriminate|].
  destruct (ctx_err ctx); [discriminate|].
  intros Hdone. injection Hdone as <-. reflexivity.
Qed.

Lemma puddle_Acquire_constructor ctx w (a : error + Resource) w1 :
  puddle_Acquire ctx w = Done a w1 -> constructor (core w1) = constructor (core w).
Proof.
  unfold puddle_Acquire.
  destruct (closed (core w)); [now intros [= <- <-]|].
  destruct (ctx_err ctx); [now intros [= <- <-]|].
  destruct (idleResources (core w)) as [|r idle]; [|now intros [= <- <-]].
  destruct (TotalResources (core w) <? maxSize (core w)); [|discriminate].
  unfold construct. destruct (constructor (core w) ctx (ext (env w))) as [[err|v] e].
  - now intros [= <- <-].
  - now intros [= <- <-].
Qed.

(** The turns [Acquire] needs at most: one per idle resource, and one more. *)
Lemma Acquire_returns_within (n : nat) p ctx w :
  accepts_fresh p w ->
  length (idleResources (core w)) = n ->
  exists o, Acquire (S n) p ctx w = Some o.
Proof.
  revert w. induction n as [|n IH]; intros w Hfresh Hlen; rewrite Acquire_turn.
  - destruct (puddle_Acquire ctx w) as [[err|r] w1|w1] eqn:Hacq; [now eexists| |now eexists].
    (* nothing was idle: the resource is fresh from the factory *)
    assert (Hacc : fst (beforeAcquire_allows p ctx (conn (value r)) (ext (env w1))) = true).
    { unfold puddle_Acquire in Hacq.
      destruct (closed (core w)); [discriminate|].
      destruct (ctx_err ctx); [discriminate|].
      destruct (idleResources (core w)) as [|r0 idle]; [|discriminate].
      destruct (TotalResources (core w) <? maxSize (core w)); [|discriminate].
      unfold construct in Hacq.
      destruct (constructor (core w) ctx (ext (env w))) as [[err|v] e] eqn:Hcons;
        [discriminate|].
      injection Hacq as <- <-. cbn. exact (Hfresh ctx _ _ _ Hcons). }
    destruct (beforeAcquire_allows _ _ _ _) as [ok e]. cbn [fst] in Hacc. subst ok.
    cbn zeta. cbn [getConn]. now eexists.
  - destruct (puddle_Acquire ctx w) as [[err|r] w1|w1] eqn:Hacq; [now eexists| |now eexists].
    destruct (beforeAcquire_allows _ _ _ _) as [[|] e]; cbn zeta.
    + cbn [getConn]. now eexists.
    + destruct (idleResources (core w)) as [|r0 idle] eqn:Hidle; [discriminate|].
      assert (r0 = r) as ->.
      { unfold puddle_Acquire in Hacq. rewrite Hidle in Hacq.
        destruct (closed (core w)); [discriminate|].
        destruct (ctx_err ctx); [discriminate|]. now injection Hacq. }
      apply IH.
      * intros ctx' e0 e0' cr Hcons. apply (Hfresh ctx' e0 e0' cr).
        rewrite <- (puddle_Acquire_constructor _ _ _ _ Hacq). exact Hcons.
      * rewrite (rejection_shrinks_idle ctx w r w1 e idle Hidle Hacq).
        cbn [length] in Hlen. lia.
Qed.

(** The loop of [Acquire], turn by turn: a turn returns, or it is a
    rejected turn and the loop goes on in the world that turn leaves, in
    which the idle resource that was first, if there was one, is gone. *)
Lemma Acquire_by_turn p ctx w :
  match rejected_turn p ctx w with
  | None => exists o, forall fuel : nat, Acquire (S fuel) p ctx w = Some o
  | Some w2 =>
    (forall fuel : nat, Acquire (S fuel) p ctx w = Acquire fuel p ctx w2)
    /\ idleResources (core w2) = tl (idleResources (core w))
  end.
Proof.
  unfold rejected_turn.
  destruct (puddle_Acquire ctx w) as [[err|r] w1|w1] eqn:Hacq.
  - eexists. intros fuel. rewrite Acquire_turn, Hacq. reflexivity.
  - destruct (beforeAcquire_allows p ctx (conn (value r)) (ext (env w1))) as [[|] e] eqn:Hhook.
    + eexists. intros fuel. rewrite Acquire_turn, Hacq, Hhook. cbn zeta. cbn [getConn].
      reflexivity.
    + split.
      * intros fuel. now rewrite Acquire_turn, Hacq, Hhook.
      * unfold puddle_Acquire in Hacq.
        destruct (closed (core w)); [discriminate|].
        destruct (ctx_err ctx); [discriminate|].
        destruct (idleResources (core w)) as [|r0 idle] eqn:Hidle.
        -- destruct (TotalResources (core w) <? maxSize (core w)); [|discriminate].
           unfold construct in Hacq.
           destruct (constructor (core w) ctx (ext (env w))) as [[err|v] e0];
             [discriminate|].
           injection Hacq as <- <-. cbn. exact Hidle.
        -- injection Hacq as <- <-. reflexivity.
  - eexists. intros fuel. rewrite Acquire_turn, Hacq. reflexivity.
Qed.

(** With a rank that every rejected turn lowers, the loop returns within
    one turn more than the rank. *)
Lemma Acquire_returns_by_rank p ctx (Inv : World E -> Prop) (rank : World E -> nat) :
  (forall w1 w2, Inv w1 -> rejected_turn p ctx w1 = Some w2 ->
                 Inv w2 /\ (rank w2 < rank w1)%nat) ->
  forall (n : nat) w, Inv w -> (rank w <= n)%nat ->
                      exists o, Acquire (S n) p ctx w = Some o.
Proof.
  intros Hstep. induction n as [|n IH]; intros w Hinv Hrank;
    pose proof (Acquire_by_turn p ctx w) as Hturn;
    destruct (rejected_turn p ctx w) as [w2|] eqn:Hrejected.
  - destruct (Hstep w w2 Hinv Hrejected) as [_ Hlt]. lia.
  - destruct Hturn as [o Ho]. now exists o.
  - destruct (Hstep w w2 Hinv Hrejected) as [Hinv2 Hlt].
    destruct Hturn as [Hnext _]. rewrite Hnext. apply IH; [exact Hinv2|lia].
  - destruct Hturn as [o Ho]. now exists o.
Qed.

(** C2, as the code has it. A turn of the loop of [Acquire] returns -- with
    a lease, with the error of the core acquire, or parked inside it -- or
    is a rejected turn: the rejected connection is destroyed and the loop
    goes on, in a world in which the idle resource that was first, if there
    was one, is gone. The loop ends whenever the rejected turns are
    bounded: with a rank of the worlds that every rejected turn lowers (an
    invariant of the worlds the loop goes through may be used), [Acquire]
    returns within one turn more than the rank, and more fuel gives the same
    result. In particular a hook that accepts every connection the factory
    has just constructed (a nil hook does) makes it return within one turn
    per idle resource and one more. *)
Theorem Acquire_terminates p ctx w :
  match rejected_turn p ctx w with
  | None => exists o, forall fuel : nat, Acquire (S fuel) p ctx w = Some o
  | Some w2 =>
    (forall fuel : nat, Acquire (S fuel) p ctx w = Acquire fuel p ctx w2)
    /\ idleResources (core w2) = tl (idleResources (core w))
  end
  /\ (forall (Inv : World E -> Prop) (rank : World E -> nat),
        Inv w ->
        (forall w1 w2, Inv w1 -> rejected_turn p ctx w1 = Some w2 ->
                       Inv w2 /\ (rank w2 < rank w1)%nat) ->
        exists o, forall fuel : nat, (rank w < fuel)%nat -> Acquire fuel p ctx w = Some o)
  /\ (accepts_fresh p w ->
      exists o, forall fuel : nat, (length (idleResources (core w)) < fuel)%nat ->
                                   Acquire fuel p ctx w = Some o).
Proof.
  split; [apply Acquire_by_turn|]. split.
  - intros Inv rank Hinv Hstep.
    destruct (Acquire_returns_by_rank p ctx Inv rank Hstep (rank w) w Hinv (Nat.le_refl _))
      as [o Ho].
    exists o. intros fuel Hfuel.
    apply (Acquire_fuel_mono _ _ _ _ _ _ Ho). lia.
  - intros Hfresh.
    destruct (Acquire_returns_within _ p ctx w Hfresh eq_refl) as [o Ho].
    exists o. intros fuel Hfuel.
    apply (Acquire_fuel_mono _ _ _ _ _ _ Ho). lia.
Qed.

(** A nil hook accepts every connection. *)
Lemma nil_hook_accepts_fresh p w : beforeAcquire p = None -> accepts_fresh p w.
Proof.
  intros Hnil ctx e e' cr _. unfold beforeAcquire_allows. now rewrite Hnil.
Qed.

(** *** The health maintainer *)

Lemma filter_others r (l : list Resource) :
  res_id r ∉ map res_id l ->
  remove_res r l = l /\ entries_of r l = [].
Proof.
  unfold remove_res, entries_of.
  induction l as [|x l IH]; intros Hnot; [now split|].
  cbn [map] in Hnot. apply not_elem_of_cons in Hnot as [Hne Hnot].
  destruct (IH Hnot) as [IHr IHe]. cbn [List.filter].
  assert (Hx : same_res r x = false) by (now apply Nat.eqb_neq).
  rewrite Hx. cbn [negb]. now rewrite IHr, IHe.
Qed.

(** In an accounting without duplicates, a handle stands for one entry. *)
Lemma filter_middle r (A rs : list Resource) :
  NoDup (map res_id (A ++ r :: rs)) ->
  remove_res r (A ++ r :: rs) = A ++ rs /\ entries_of r (A ++ r :: rs) = [r].
Proof.
  intros Hnodup. rewrite map_app in Hnodup. cbn [map] in Hnodup.
  apply NoDup_app in Hnodup as (_ & Hdisj & Htail).
  apply NoDup_cons in Htail as [Hnot_rs _].
  assert (Hnot_A : res_id r ∉ map res_id A).
  { intros Hin. apply (Hdisj _ Hin). now left. }
  destruct (filter_others r A Hnot_A) as [HrA HeA].
  destruct (filter_others r rs Hnot_rs) as [Hrrs Hers].
  unfold remove_res, entries_of in *.
  rewrite !List.filter_app. cbn [List.filter].
  assert (Hr : same_res r r = true) by apply Nat.eqb_refl.
  rewrite Hr. cbn [negb]. now rewrite HrA, HeA, Hrrs, Hers.
Qed.

Lemma NoDup_drop_middle (A rs : list Resource) r :
  NoDup (map res_id (A ++ r :: rs)) -> NoDup (map res_id (A ++ rs)).
Proof.
  rewrite !map_app. cbn [map]. intros Hnodup.
  apply NoDup_app in Hnodup as (HA & Hdisj & Htail).
  apply NoDup_cons in Htail as [_ Hrs].
  apply NoDup_app. split; [exact HA|]. split; [|exact Hrs].
  intros x Hx Hin. apply (Hdisj x Hx). now right.
Qed.

(** The loop of the idle scan, resource by resource. *)
Lemma checkIdleLoop_scan p (now : Z) (rs : list Resource) :
  forall w (A : list Resource),
    clock (env w) = now ->
    acquiredResources (core w) = A ++ rs ->
    NoDup (map res_id (A ++ rs)) ->
    let w' := checkIdleLoop p now rs w in
    acquiredResources (core w') = A
    /\ idleResources (core w') = idleResources (core w) ++ List.filter (scan_keeps p now) rs
    /\ log (env w') = log (env w) ++ map (scan_event p now) rs
    /\ goroutines (env w') = goroutines (env w)
    /\ clock (env w') = now
    /\ maxSize (core w') = maxSize (core w)
    /\ closed (core w') = closed (core w).
Proof.
  induction rs as [|r rs IH]; intros w A Hclock Hacq Hnodup; cbn zeta.
  - cbn [checkIdleLoop List.filter map]. rewrite !app_nil_r in *. now repeat split.
  - cbn [checkIdleLoop].
    destruct (filter_middle r A rs Hnodup) as [Hremove Hentries].
    pose proof (NoDup_drop_middle A rs r Hnodup) as Hnodup'.
    unfold scan_keeps, scan_event, scan_action_of, Resource_IdleDuration.
    cbn [List.filter map]. rewrite Hclock.
    assert (Hdestroy :
      let w' := checkIdleLoop p now rs (Resource_Destroy r w) in
      acquiredResources (core w') = A
      /\ idleResources (core w') = idleResources (core w) ++ List.filter (scan_keeps p now) rs
      /\ log (env w')
         = log (env w) ++ EvDestructor (conn (value r)) :: map (scan_event p now) rs
      /\ goroutines (env w') = goroutines (env w)
      /\ clock (env w') = now
      /\ maxSize (core w') = maxSize (core w)
      /\ closed (core w') = closed (core w)).
    { specialize (IH (Resource_Destroy r w) A).
      cbn zeta in IH |- *. unfold Resource_Destroy in IH |- *.
      cbn [core env set_core set_env set_resources acquiredResources idleResources
           clock log goroutines emit set_ext maxSize closed] in IH |- *.
      rewrite Hacq, Hremove in IH |- *.
      destruct (IH Hclock eq_refl Hnodup') as (H1 & H2 & H3 & H4 & H5 & H6 & H7).
      rewrite H1, H2, H3, H4, H5, H6, H7, <- ?app_assoc. now repeat split. }
    destruct (maxConnLifetime p <? now - creationTime r); [exact Hdestroy|].
    destruct (maxConnIdleTime p <? now - lastUsedNano r); [exact Hdestroy|].
    clear Hdestroy.
    specialize (IH (Resource_ReleaseUnused r w) A).
    cbn zeta in IH. unfold Resource_ReleaseUnused in IH |- *.
    cbn [core env set_core set_env set_resources acquiredResources idleResources
         clock log goroutines emit set_ext maxSize closed] in IH |- *.
    rewrite Hacq, Hremove, Hentries in IH |- *.
    destruct (IH Hclock eq_refl Hnodup') as (H1 & H2 & H3 & H4 & H5 & H6 & H7).
    rewrite H1, H2, H3, H4, H5, H6, H7, <- ?app_assoc. now repeat split.
Qed.

Lemma int32_range (n : Z) : - 2 ^ 31 <= int32 n < 2 ^ 31.
Proof. unfold int32. pose proof (Z.mod_pos_bound (n + 2 ^ 31) (2 ^ 32)). lia. Qed.

Lemma int32_small (n : Z) : - 2 ^ 31 <= n < 2 ^ 31 -> int32 n = n.
Proof. intros Hn. unfold int32. rewrite Z.mod_small by lia. lia. Qed.

(** The loop of [checkMinConns] launches one goroutine per unit of [i]. *)
Lemma checkMinLoop_launches (n : nat) :
  forall (i : Z) w,
    i < 2 ^ 31 -> n = Z.to_nat i ->
    let w' := checkMinLoop n i w in
    core w' = core w
    /\ closeChan w' = closeChan w
    /\ ext (env w') = ext (env w)
    /\ clock (env w') = clock (env w)
    /\ log (env w') = log (env w) ++ repeat (EvGo GoCreateResource) n
    /\ goroutines (env w') = goroutines (env w) ++ repeat GoCreateResource n.
Proof.
  induction n as [|n IH]; intros i w Hi Hn; cbn zeta; cbn [checkMinLoop repeat].
  - rewrite !app_nil_r. now repeat split.
  - assert (Hpos : 0 < i) by lia.
    apply Z.ltb_lt in Hpos as Hpos'. rewrite Hpos'.
    rewrite int32_small by lia.
    specialize (IH (i - 1) (set_env (go GoCreateResource (env w)) w)).
    cbn zeta in IH.
    destruct IH as (H1 & H2 & H3 & H4 & H5 & H6); [lia|lia|].
    rewrite H1, H2, H3, H4, H5, H6. cbn. rewrite <- !app_assoc. now repeat split.
Qed.

(** What [checkMinConns] launches, for any pool and world: the [int32]
    difference of the two [int32] values, when it is positive. *)
Lemma checkMinConns_launches_int32 p w :
  let w' := checkMinConns p w in
  let n := Z.to_nat (int32 (minConns p - Pool_TotalConns w)) in
  core w' = core w
  /\ closeChan w' = closeChan w
  /\ ext (env w') = ext (env w)
  /\ clock (env w') = clock (env w)
  /\ log (env w') = log (env w) ++ repeat (EvGo GoCreateResource) n
  /\ goroutines (env w') = goroutines (env w) ++ repeat GoCreateResource n.
Proof.
  unfold checkMinConns. apply checkMinLoop_launches; [|reflexivity].
  apply int32_range.
Qed.

(** A creation task keeps the pool within its bound. *)
Lemma createTask_bound w :
  TotalResources (core w) <= maxSize (core w) ->
  TotalResources (core (createTask w)) <= maxSize (core (createTask w))
  /\ maxSize (core (createTask w)) = maxSize (core w).
Proof.
  intros Hbound. unfold createTask, puddle_CreateResource.
  destruct (closed (core w)); [now split|].
  destruct (maxSize (core w) <=? TotalResources (core w)) eqn:Hcap; [now split|].
  apply Z.leb_gt in Hcap.
  unfold construct.
  destruct (constructor (core w) createTask_ctx (ext (env w))) as [[err|v] e];
    cbn [snd]; [now split|].
  unfold TotalResources in *. cbn. rewrite length_app. cbn [length]. split; [lia|reflexivity].
Qed.

Lemma run_createTasks_bound (n : nat) w :
  TotalResources (core w) <= maxSize (core w) ->
  TotalResources (core (run_createTasks n w)) <= maxSize (core (run_createTasks n w))
  /\ maxSize (core (run_createTasks n w)) = maxSize (core w).
Proof.
  revert w. induction n as [|n IH]; intros w Hbound; [now split|].
  cbn [run_createTasks].
  destruct (createTask_bound w Hbound) as [Hb Hm].
  destruct (IH _ Hb) as [Hb' Hm']. split; [exact Hb'|congruence].
Qed.

(** A creation task calls the factory with a context of one minute, when
    it calls it. *)
Lemma createTask_calls_factory w :
  closed (core w) = false ->
  TotalResources (core w) < maxSize (core w) ->
  env (createTask w)
  = emit EvFactory
      (set_ext (snd (constructor (core w) createTask_ctx (ext (env w)))) (env w))
  /\ ctx_timeout createTask_ctx = Some (60 * 1000000000).
Proof.
  intros Hopen Hroom. unfold createTask, puddle_CreateResource. rewrite Hopen.
  apply Z.leb_gt in Hroom. rewrite Hroom. unfold construct.
  destruct (constructor (core w) createTask_ctx (ext (env w))) as [[err|v] e];
    now split.
Qed.

(** C4. One tick of the health maintainer scans the idle resources, then
    replenishes: the events of the scan come before the goroutines of the
    replenishment, whose number is computed from the total after the scan.
    The scan leaves the leased resources alone and treats every idle
    resource by the first branch that applies: destroyed when its age
    exceeds the maximum lifetime, whatever its idle time; else destroyed
    when its idle time exceeds the maximum idle time; else released as
    unused, and it stays idle, in the order it was in. *)
Theorem health_tick_scans_then_replenishes p w :
  distinct_resources w ->
  let now := clock (env w) in
  let scanned := checkIdleConnsHealth p w in
  (forall r,
     (maxConnLifetime p < now - creationTime r ->
      scan_action_of p now r = DestroyForAge)
     /\ (now - creationTime r <= maxConnLifetime p ->
         maxConnIdleTime p < now - lastUsedNano r ->
         scan_action_of p now r = DestroyForIdle)
     /\ (now - creationTime r <= maxConnLifetime p ->
         now - lastUsedNano r <= maxConnIdleTime p ->
         scan_action_of p now r = ReleaseUnused))
  /\ idleResources (core scanned)
     = List.filter (scan_keeps p now) (idleResources (core w))
  /\ acquiredResources (core scanned) = acquiredResources (core w)
  /\ log (env scanned) = log (env w) ++ map (scan_event p now) (idleResources (core w))
  /\ healthTick p w = checkMinConns p scanned
  /\ log (env (healthTick p w))
     = log (env w) ++ map (scan_event p now) (idleResources (core w))
         ++ repeat (EvGo GoCreateResource)
                   (Z.to_nat (int32 (minConns p - Pool_TotalConns scanned)))
  /\ goroutines (env scanned) = goroutines (env w)
  /\ (forall signals : list signal,
        healthLoop p (SigTick :: signals) w = healthLoop p signals (healthTick p w)).
Proof.
  intros Hdistinct. cbn zeta.
  pose proof (checkIdleLoop_scan p (clock (env w)) (idleResources (core w))
                (snd (puddle_AcquireAllIdle w)) (acquiredResources (core w))
                eq_refl eq_refl Hdistinct) as Hscan.
  cbn zeta in Hscan.
  change (checkIdleLoop p (clock (env w)) (idleResources (core w))
            (snd (puddle_AcquireAllIdle w)))
    with (checkIdleConnsHealth p w) in Hscan.
  destruct Hscan as (Hacq & Hidle & Hlog & Hgo & _).
  cbn [puddle_AcquireAllIdle snd core env set_core set_resources idleResources app log
       goroutines] in Hidle, Hlog, Hgo.
  split; [|repeat split; try assumption].
  - intros r. unfold scan_action_of. repeat split.
    + intros Hage. apply Z.ltb_lt in Hage. now rewrite Hage.
    + intros Hage Hidl. apply Z.ltb_ge in Hage. apply Z.ltb_lt in Hidl.
      now rewrite Hage, Hidl.
    + intros Hage Hidl. apply Z.ltb_ge in Hage. apply Z.ltb_ge in Hidl.
      now rewrite Hage, Hidl.
  - unfold healthTick.
    destruct (checkMinConns_launches_int32 p (checkIdleConnsHealth p w))
      as (_ & _ & _ & _ & Hlog' & _).
    rewrite Hlog', Hlog. now rewrite <- app_assoc.
Qed.

(** X1. What holds of C5: when the difference between the minimum and the
    total fits an [int32], [checkMinConns] launches exactly
    [max 0 (minConns - total)] goroutines, with one event each, and changes
    nothing else of the world: the core pool, the close channel, the outside
    world and the clock are as they were. *)
Theorem checkMinConns_replenishes p w :
  - 2 ^ 31 <= minConns p - Pool_TotalConns w < 2 ^ 31 ->
  let w' := checkMinConns p w in
  let deficit := Z.max 0 (minConns p - Pool_TotalConns w) in
  goroutines (env w') = goroutines (env w) ++ repeat GoCreateResource (Z.to_nat deficit)
  /\ log (env w') = log (env w) ++ repeat (EvGo GoCreateResource) (Z.to_nat deficit)
  /\ core w' = core w
  /\ closeChan w' = closeChan w
  /\ ext (env w') = ext (env w)
  /\ clock (env w') = clock (env w).
Proof.
  intros Hfits. cbn zeta.
  destruct (checkMinConns_launches_int32 p w)
    as (Hcore & Hchan & Hext & Hclock & Hlog & Hgo).
  rewrite int32_small in Hlog, Hgo by exact Hfits.
  assert (Hmax : Z.to_nat (Z.max 0 (minConns p - Pool_TotalConns w))
                 = Z.to_nat (minConns p - Pool_TotalConns w)) by lia.
  rewrite Hmax. now repeat split.
Qed.

(** Within the data model (a minimum that is not negative, a total that is
    an [int32]) the difference fits. *)
Lemma data_model_fits p w :
  0 <= minConns p < 2 ^ 31 ->
  TotalResources (core w) < 2 ^ 31 ->
  - 2 ^ 31 <= minConns p - Pool_TotalConns w < 2 ^ 31.
Proof.
  intros Hmin Htotal. unfold Pool_TotalConns, Stat_TotalConns.
  assert (0 <= TotalResources (core w)) by (unfold TotalResources; lia).
  rewrite int32_small by lia. lia.
Qed.

End PoolProperties.

(** ** The properties on the sample world *)

(** C10 on a slice whose third argument fails: the first argument is a
    [SensitiveData] around a [driver.Valuer] and is replaced by the value of
    the inner argument; the second is a [BinaryEncoder] that is a
    [driver.Valuer] too, and stays; the third fails; the fourth, a
    [driver.Valuer], is not reached. *)
Lemma conversion_stops_at_the_failing_valuer :
  Forall2 replaced_by [VSensitive (VValuer 7); VBinary 1] [VInt 7; VBinary 1]
  /\ fails_with (VBadValuer "boom") (VBadValuer "boom") (ErrOpaque "boom")
  /\ convertDriverValuers [VSensitive (VValuer 7); VBinary 1; VBadValuer "boom"; VValuer 9]
     = ([VInt 7; VBinary 1; VBadValuer "boom"; VValuer 9], inl (ErrOpaque "boom")).
Proof.
  assert (Hpre : Forall2 replaced_by [VSensitive (VValuer 7); VBinary 1]
                         [VInt 7; VBinary 1]).
  { constructor; [|constructor; [|constructor]].
    - exists (VValuer 7). split; [reflexivity|].
      right. right. left. now repeat split.
    - exists (VBinary 1). split; [reflexivity|]. left. now split. }
  assert (Hfails : fails_with (VBadValuer "boom") (VBadValuer "boom") (ErrOpaque "boom"))
    by (now repeat split).
  split; [exact Hpre|]. split; [exact Hfails|].
  exact (proj1 (proj2 convertDriverValuers_in_place)
           [VSensitive (VValuer 7); VBinary 1] [VValuer 9] [VInt 7; VBinary 1]
           (VBadValuer "boom") (VBadValuer "boom") (ErrOpaque "boom") Hpre Hfails).
Defined.

(** A lazily connected pool starts empty, with the health maintainer
    launched. *)
Example sample_connect_lazy :
  let c := sample_config "host=db pool_max_conns=2" None in
  exists w, ConnectConfig context_Background c sample_env = ConnectDone (inr (pool_of c)) w
            /\ idleResources (core w) = [] /\ acquiredResources (core w) = []
            /\ maxSize (core w) = 2 /\ log (env w) = [EvGo GoBackgroundHealthCheck].
Proof. eexists. vm_compute. repeat split; reflexivity. Qed.

(** C9 on a configuration written by hand. *)
Lemma foreign_config_panics :
  createdByParseConfig foreign_config = false
  /\ ConnectConfig context_Background foreign_config sample_env
     = ConnectPanic "config must be created by ParseConfig" sample_env.
Proof.
  split; [reflexivity|].
  apply ConnectConfig_panics_on_foreign_config. reflexivity.
Defined.

Ltac by_computation := apply (bool_decide_unpack _); vm_compute; exact I.

(** C8 on a connection string with a key the pool does not know. *)
Lemma application_name_passes_through :
  exists (cc : pgx_ConnConfig) (cfg : Config sample_ext),
    pgx_ParseConfig "host=db application_name=app pool_max_conns=3 pool_min_conns=1"
    = inr cc
    /\ ParseConfig "host=db application_name=app pool_max_conns=3 pool_min_conns=1"
       = inr cfg
    /\ RuntimeParams cc !! "pool_max_conns" = Some "3"
    /\ RuntimeParams cc !! "application_name" = Some "app"
    /\ RuntimeParams (ConnConfig cfg) !! "pool_max_conns" = None
    /\ RuntimeParams (ConnConfig cfg) !! "pool_min_conns" = None
    /\ RuntimeParams (ConnConfig cfg) !! "application_name" = Some "app".
Proof.
  destruct (pgx_ParseConfig
              "host=db application_name=app pool_max_conns=3 pool_min_conns=1")
    as [e|cc] eqn:Hpgx; [vm_compute in Hpgx; discriminate|].
  destruct (ParseConfig (E:=sample_ext)
              "host=db application_name=app pool_max_conns=3 pool_min_conns=1")
    as [e|cfg] eqn:Hparse; [vm_compute in Hparse; discriminate|].
  exists cc, cfg. split; [reflexivity|]. split; [reflexivity|].
  destruct (ParseConfig_consumes_pool_keys _ cc cfg Hpgx Hparse) as (Hgone & Hkept & _).
  assert (Hname : RuntimeParams cc !! "application_name" = Some "app").
  { vm_compute in Hpgx. injection Hpgx as <-. vm_compute. reflexivity. }
  assert (Hmax : RuntimeParams cc !! "pool_max_conns" = Some "3").
  { vm_compute in Hpgx. injection Hpgx as <-. vm_compute. reflexivity. }
  split; [exact Hmax|]. split; [exact Hname|].
  split; [apply Hgone; by_computation|].
  split; [apply Hgone; by_computation|].
  rewrite Hkept; [exact Hname|by_computation].
Defined.

(** C7 on a connection string without a pool key, on eight CPUs. *)
Lemma defaults_without_pool_keys :
  exists (cc : pgx_ConnConfig) (cfg : Config sample_ext),
    pgx_ParseConfig "host=db user=app" = inr cc
    /\ ParseConfig "host=db user=app" = inr cfg
    /\ - 2 ^ 31 <= runtime_NumCPU < 2 ^ 31
    /\ MaxConns cfg = 8 /\ MinConns cfg = 0
    /\ MaxConnLifetime cfg = 3600000000000
    /\ MaxConnIdleTime cfg = 1800000000000
    /\ HealthCheckPeriod cfg = 60000000000.
Proof.
  destruct (pgx_ParseConfig "host=db user=app") as [e|cc] eqn:Hpgx;
    [vm_compute in Hpgx; discriminate|].
  destruct (ParseConfig (E:=sample_ext) "host=db user=app") as [e|cfg] eqn:Hparse;
    [vm_compute in Hparse; discriminate|].
  exists cc, cfg. split; [reflexivity|]. split; [reflexivity|].
  assert (Hcpu : - 2 ^ 31 <= runtime_NumCPU < 2 ^ 31).
  { split; [apply Z.leb_le|apply Z.ltb_lt]; reflexivity. }
  split; [exact Hcpu|].
  assert (Habsent : forall key, RuntimeParams cc !! key = None).
  { intros key. vm_compute in Hpgx. injection Hpgx as <-. reflexivity. }
  destruct (ParseConfig_defaults _ cc cfg Hpgx Hparse Hcpu) as (H1 & H2 & H3 & H4 & H5).
  rewrite (H1 (Habsent _)), (H2 (Habsent _)), (H3 (Habsent _)), (H4 (Habsent _)),
    (H5 (Habsent _)).
  repeat split; reflexivity.
Defined.

(** C6, as the code has it, on a maximum that is accepted and a minimum
    that is no number: the error is the one of [pool_min_conns], the first
    key with a refused value, not of [pool_max_conns], which comes first
    and is present. *)
Lemma min_conns_abc_is_refused :
  exists (cc : pgx_ConnConfig) (err : error),
    pgx_ParseConfig "host=db pool_max_conns=5 pool_min_conns=abc" = inr cc
    /\ RuntimeParams cc !! "pool_max_conns" = Some "5"
    /\ ParseConfig (E:=sample_ext) "host=db pool_max_conns=5 pool_min_conns=abc" = inl err
    /\ err = Errorf_w "cannot parse pool_min_conns: " (ErrSyntax "ParseInt" "abc")
    /\ names_key err "pool_min_conns".
Proof.
  destruct (pgx_ParseConfig "host=db pool_max_conns=5 pool_min_conns=abc")
    as [e|cc] eqn:Hpgx; [vm_compute in Hpgx; discriminate|].
  destruct (ParseConfig_rejections (E:=sample_ext) _ cc Hpgx)
    as (Hfirst & Hrefused & _ & Hshape & _).
  assert (Hmax : RuntimeParams cc !! "pool_max_conns" = Some "5").
  { vm_compute in Hpgx. injection Hpgx as <-. vm_compute. reflexivity. }
  assert (Hmin : RuntimeParams cc !! "pool_min_conns" = Some "abc").
  { vm_compute in Hpgx. injection Hpgx as <-. vm_compute. reflexivity. }
  assert (Hdurations : forall key, key ∈ duration_keys -> RuntimeParams cc !! key = None).
  { intros key Hkey. vm_compute in Hpgx. injection Hpgx as <-.
    unfold duration_keys in Hkey. rewrite !elem_of_cons in Hkey.
    destruct Hkey as [->|[->|[->|Hkey]]]; [..|now apply elem_of_nil in Hkey];
      vm_compute; reflexivity. }
  destruct (Hrefused "pool_min_conns" "abc") as [err Herr];
    [by_computation|exact Hmin|discriminate|].
  exists cc, err. split; [reflexivity|]. split; [exact Hmax|]. split; [exact Herr|].
  destruct (Hfirst err Herr) as (key & v & pre & post & Hkeys & Hv & Hkey & Hnames & Hpre).
  assert (Hin : key ∈ pool_keys) by (rewrite Hkeys; apply elem_of_app; right; now left).
  unfold pool_keys in Hin. rewrite !elem_of_cons in Hin.
  destruct Hin as [->|[->|[->|[->|[->|Hin]]]]]; [..|now apply elem_of_nil in Hin].
  - rewrite Hmax in Hv. injection Hv as <-. vm_compute in Hkey. discriminate.
  - rewrite Hmin in Hv. injection Hv as <-.
    assert (Herr' : err = Errorf_w "cannot parse pool_min_conns: "
                                   (ErrSyntax "ParseInt" "abc")).
    { vm_compute in Hkey. now injection Hkey as <-. }
    split; [exact Herr'|exact Hnames].
  - rewrite Hdurations in Hv by by_computation. discriminate.
  - rewrite Hdurations in Hv by by_computation. discriminate.
  - rewrite Hdurations in Hv by by_computation. discriminate.
Defined.

(** C6 as stated fails: a minimum above the maximum and a negative
    lifetime are accepted. *)
Lemma ParseConfig_accepts_out_of_bounds :
  exists cfg : Config sample_ext,
    ParseConfig "host=db pool_max_conns=2 pool_min_conns=5 pool_max_conn_lifetime=-1h"
    = inr cfg
    /\ MaxConns cfg = 2 /\ MinConns cfg = 5 /\ MaxConnLifetime cfg = -3600000000000.
Proof.
  destruct (ParseConfig (E:=sample_ext)
              "host=db pool_max_conns=2 pool_min_conns=5 pool_max_conn_lifetime=-1h")
    as [e|cfg] eqn:Hparse; [vm_compute in Hparse; discriminate|].
  exists cfg. split; [reflexivity|].
  vm_compute in Hparse. injection Hparse as <-. repeat split; reflexivity.
Qed.

(** C1 on the empty pool with the hook that rejects the first connection
    it sees (boundary scenario 3). *)
Lemma retry_after_one_rejection :
  exists (c : Conn) (w' : World sample_ext),
    Acquire 2 (pool_of retry_config) context_Background (world_of retry_config)
    = Some (Done (inr c) w')
    /\ Conn_Conn c = 1%nat
    /\ factory_calls (log (env w')) = 2%nat
    /\ destructor_calls (log (env w')) = 1%nat
    /\ closed_conns (ext (env w')) = [0%nat].
Proof.
  destruct (Acquire_retries_on_rejection 0 (pool_of retry_config) context_Background
              (world_of retry_config)) as (_ & _ & _ & _ & Hscenario).
  edestruct Hscenario as (c & w' & Hrun & Hconn & Hlog & Hfactory & Hdestructor);
    [reflexivity|reflexivity|reflexivity|reflexivity|reflexivity
    |vm_compute; reflexivity|vm_compute; reflexivity
    |vm_compute; reflexivity|vm_compute; reflexivity|].
  exists c, w'. split; [exact Hrun|].
  split; [exact Hconn|]. split; [exact Hfactory|]. split; [exact Hdestructor|].
  vm_compute in Hrun. injection Hrun as _ <-. reflexivity.
Defined.

Lemma stubborn_pool_spins (fuel : nat) :
  forall w, stubborn_world w ->
            Acquire fuel (pool_of stubborn_config) context_Background w = None.
Proof.
  induction fuel as [|fuel IH]; intros w Hw; [reflexivity|].
  destruct Hw as (Hopen & Hidle & Hacq & Hmax & Hcons & Hdes & Hserver).
  assert (Hroom : TotalResources (core w) < maxSize (core w)).
  { unfold TotalResources. rewrite Hidle, Hacq, Hmax. reflexivity. }
  assert (Hmade : constructor (core w) context_Background (ext (env w))
                  = (inr {| conn := next_conn (ext (env w)); conns := 64;
                            poolRows := 64; poolRowss := 64 |},
                     {| hook_calls := hook_calls (ext (env w));
                        next_conn := S (next_conn (ext (env w)));
                        closed_conns := closed_conns (ext (env w));
                        refusing := refusing (ext (env w)) |})).
  { rewrite Hcons. unfold poolConstructor.
    change (beforeConnect (pool_of stubborn_config)) with
      (@None (Context -> pgx_ConnConfig -> sample_ext
              -> (option error * pgx_ConnConfig) * sample_ext)).
    change (afterConnect (pool_of stubborn_config)) with
      (@None (Context -> PgxConn -> sample_ext -> option error * sample_ext)).
    cbn [pgx_ConnectConfig sample_Driver]. now rewrite Hserver. }
  rewrite Acquire_turn.
  rewrite (puddle_Acquire_constructs context_Background w _ _ Hopen eq_refl Hidle Hroom
             Hmade).
  cbn [value conn env ext set_env set_ext emit set_core].
  change (beforeAcquire_allows (pool_of stubborn_config) context_Background
            (next_conn (ext (env w)))
            {| hook_calls := hook_calls (ext (env w));
               next_conn := S (next_conn (ext (env w)));
               closed_conns := closed_conns (ext (env w));
               refusing := refusing (ext (env w)) |})
    with (false, {| hook_calls := hook_calls (ext (env w));
                    next_conn := S (next_conn (ext (env w)));
                    closed_conns := closed_conns (ext (env w));
                    refusing := refusing (ext (env w)) |}).
  cbn zeta. apply IH.
  unfold stubborn_world, Resource_Destroy. cbn.
  rewrite Hacq. cbn. unfold same_res. cbn. rewrite Nat.eqb_refl. cbn.
  rewrite Hdes. now repeat split.
Qed.

(** C2 as stated fails: with a hook that rejects every connection, on an
    open pool with room and a server that accepts connections, each turn
    constructs a connection and destroys it, and [Acquire] never returns. *)
Lemma stubborn_hook_never_returns :
  never_returns (fun fuel => Acquire fuel (pool_of stubborn_config) context_Background
                                     (world_of stubborn_config)).
Proof.
  intros fuel. apply stubborn_pool_spins.
  unfold stubborn_world. now repeat split.
Qed.

(** A rejected turn of that pool uses up the one rejection of its hook. *)
Lemma retry_rejection_is_the_last (w1 w2 : World sample_ext) :
  retry_world w1 ->
  rejected_turn (pool_of retry_config) context_Background w1 = Some w2 ->
  retry_world w2 /\ (rejections_left w2 < rejections_left w1)%nat.
Proof.
  intros [Hcons Hdes].
  assert (Hhook : forall (c : PgxConn) (e : sample_ext),
            beforeAcquire_allows (pool_of retry_config) context_Background c e
            = (Nat.leb 1 (hook_calls e),
               {| hook_calls := S (hook_calls e); next_conn := next_conn e;
                  closed_conns := closed_conns e; refusing := refusing e |}))
    by reflexivity.
  assert (Hmade : forall e : sample_ext,
            poolConstructor (pool_of retry_config) context_Background e
            = if refusing e then (inl (ErrOpaque "connection refused"), e)
              else (inr {| conn := next_conn e; conns := 64; poolRows := 64;
                           poolRowss := 64 |},
                    {| hook_calls := hook_calls e; next_conn := S (next_conn e);
                       closed_conns := closed_conns e; refusing := refusing e |})).
  { intros e. unfold poolConstructor.
    change (beforeConnect (pool_of retry_config)) with
      (@None (Context -> pgx_ConnConfig -> sample_ext
              -> (option error * pgx_ConnConfig) * sample_ext)).
    change (afterConnect (pool_of retry_config)) with
      (@None (Context -> PgxConn -> sample_ext -> option error * sample_ext)).
    cbn [pgx_ConnectConfig sample_Driver]. now destruct (refusing e). }
  unfold rejected_turn, puddle_Acquire.
  destruct (closed (core w1)); [discriminate|].
  cbn [ctx_err context_Background].
  destruct (idleResources (core w1)) as [|r idle].
  - destruct (TotalResources (core w1) <? maxSize (core w1)); [|discriminate].
    unfold construct. rewrite Hcons, Hmade.
    destruct (refusing (ext (env w1))); [discriminate|].
    cbn [value newResource conn env ext set_env set_ext emit set_core core].
    rewrite Hhook. cbn [hook_calls].
    destruct (Nat.leb 1 (hook_calls (ext (env w1)))) eqn:Hseen; [discriminate|].
    apply Nat.leb_gt in Hseen. intros [= <-].
    unfold retry_world, rejections_left, Resource_Destroy.
    cbn [core env ext set_env set_ext emit set_core set_resources bump_nextID
         constructor destructor].
    rewrite Hdes. cbn [poolDestructor pgx_Conn_Close sample_Driver hook_calls].
    split; [now split|lia].
  - cbn [value conn env ext set_env set_ext emit set_core core].
    rewrite Hhook.
    destruct (Nat.leb 1 (hook_calls (ext (env w1)))) eqn:Hseen; [discriminate|].
    apply Nat.leb_gt in Hseen. intros [= <-].
    unfold retry_world, rejections_left, Resource_Destroy.
    cbn [core env ext set_env set_ext emit set_core set_resources bump_nextID
         constructor destructor].
    rewrite Hdes. cbn [poolDestructor pgx_Conn_Close sample_Driver hook_calls].
    split; [now split|lia].
Qed.

(** C2, as the code has it, on the empty pool with the hook that rejects
    the first connection it sees (boundary scenario 3): the first turn is a
    rejected turn, so one turn is not enough, and [Acquire] returns in the
    second; and on the pool of the health maintainer, with no hook and three
    idle connections. *)
Lemma retry_loop_returns_in_the_second_turn :
  retry_world (world_of retry_config)
  /\ rejections_left (world_of retry_config) = 1%nat
  /\ Acquire 1 (pool_of retry_config) context_Background (world_of retry_config) = None
  /\ (exists o, forall fuel : nat, (1 < fuel)%nat ->
        Acquire fuel (pool_of retry_config) context_Background (world_of retry_config)
        = Some o)
  /\ accepts_fresh (pool_of health_config) health_world
  /\ length (idleResources (core health_world)) = 3%nat
  /\ (exists o, forall fuel : nat, (3 < fuel)%nat ->
        Acquire fuel (pool_of health_config) context_Background health_world = Some o).
Proof.
  assert (Hworld : retry_world (world_of retry_config)) by (now split).
  split; [exact Hworld|]. split; [reflexivity|]. split; [vm_compute; reflexivity|].
  split.
  - destruct (Acquire_terminates (pool_of retry_config) context_Background
                (world_of retry_config)) as (_ & Hrank & _).
    exact (Hrank retry_world rejections_left Hworld retry_rejection_is_the_last).
  - assert (Hfresh : accepts_fresh (pool_of health_config) health_world)
      by (apply nil_hook_accepts_fresh; reflexivity).
    split; [exact Hfresh|]. split; [reflexivity|].
    destruct (Acquire_terminates (pool_of health_config) context_Background health_world)
      as (_ & _ & Hidle).
    exact (Hidle Hfresh).
Defined.

(** C3 as stated fails for [BeginTx]: whether the token has fired before
    the acquisition or the begin fails, the transaction returned is nil, not
    an error sentinel. *)
Lemma BeginTx_returns_nil_on_failure :
  (exists w', BeginTx 1 (pool_of plain_config) cancelled_ctx "" (world_of plain_config)
              = Some (Done (None, Some (ErrOpaque "context canceled")) w'))
  /\ (exists w', BeginTx 1 (pool_of plain_config) context_Background "bogus"
                         (world_of plain_config)
                 = Some (Done (None, Some (ErrOpaque "bad isolation level")) w')
                 /\ acquiredResources (core w') = []).
Proof.
  split.
  - eexists. vm_compute. reflexivity.
  - eexists. split; vm_compute; reflexivity.
Qed.

(** C4 on the pool of the health maintainer after two hours (boundary
    scenario 5): the second connection is destroyed for its idle time, the
    first for its age although it was idle for ten milliseconds only, the
    third is released unused; then two goroutines are launched. *)
Lemma health_tick_after_two_hours :
  distinct_resources health_world
  /\ map res_id (idleResources (core health_world)) = [1; 0; 2]%nat
  /\ log (env (healthTick (pool_of health_config) health_world))
     = log (env health_world)
         ++ [EvDestructor 1%nat; EvDestructor 0%nat; EvReleaseUnused 2;
             EvGo GoCreateResource; EvGo GoCreateResource]
  /\ map res_id (idleResources (core (checkIdleConnsHealth (pool_of health_config)
                                                            health_world)))
     = [2%nat].
Proof.
  assert (Hdistinct : distinct_resources health_world) by by_computation.
  split; [exact Hdistinct|]. split; [reflexivity|].
  destruct (health_tick_scans_then_replenishes (pool_of health_config) health_world
              Hdistinct) as (_ & Hidle & _ & _ & _ & Hlog & _).
  rewrite Hlog, Hidle. split; vm_compute; reflexivity.
Defined.

(** X1 on the same pool after the scan: one connection is left of a
    minimum of three, so two goroutines are launched, and the core pool is
    as the scan left it. *)
Lemma two_creation_tasks_after_scan :
  let w := checkIdleConnsHealth (pool_of health_config) health_world in
  (- 2 ^ 31 <= minConns (pool_of health_config) - Pool_TotalConns w < 2 ^ 31)
  /\ minConns (pool_of health_config) = 3
  /\ Pool_TotalConns w = 1
  /\ goroutines (env (checkMinConns (pool_of health_config) w))
     = goroutines (env w) ++ [GoCreateResource; GoCreateResource]
  /\ core (checkMinConns (pool_of health_config) w) = core w.
Proof.
  cbn zeta.
  assert (Hfits : - 2 ^ 31
                  <= minConns (pool_of health_config)
                     - Pool_TotalConns (checkIdleConnsHealth (pool_of health_config)
                                                             health_world)
                  < 2 ^ 31).
  { split; [apply Z.leb_le|apply Z.ltb_lt]; vm_compute; reflexivity. }
  split; [exact Hfits|]. split; [reflexivity|]. split; [vm_compute; reflexivity|].
  destruct (checkMinConns_replenishes (pool_of health_config) _ Hfits)
    as (Hgo & _ & Hcore & _).
  split; [|exact Hcore].
  rewrite Hgo. f_equal.
Defined.

(** Boundary scenario 6: at most five connections, a minimum of three, lazy
    connection. The first tick launches three creation tasks; once they
    have run the pool holds three connections, and the next tick launches
    none. *)
Example replenishment_reaches_the_minimum :
  let p := pool_of health_config in
  let w1 := healthTick p (world_of health_config) in
  let w2 := run_createTasks 3 w1 in
  let w3 := healthTick p w2 in
  goroutines (env w1)
  = [GoBackgroundHealthCheck; GoCreateResource; GoCreateResource; GoCreateResource]
  /\ TotalResources (core w2) = 3
  /\ goroutines (env w3) = goroutines (env w2)
  /\ TotalResources (core w3) = 3.
Proof. vm_compute. repeat split; reflexivity. Qed.

(** Boundary scenario 4, on the pool above (a maximum idle time of fifty
    milliseconds): a connection released and then left idle for two hundred
    milliseconds is gone after the next tick. *)
Example idle_connection_expires :
  let p := pool_of health_config in
  let w := createTask (world_of health_config) in
  let w := set_env (advance (200 * time_Millisecond) (env w)) w in
  TotalResources (core w) = 1
  /\ TotalResources (core (checkIdleConnsHealth p w)) = 0
  /\ closed_conns (ext (env (checkIdleConnsHealth p w))) = [0%nat].
Proof. vm_compute. repeat split; reflexivity. Qed.

(** C5 at the least [int32] as the minimum, which [ParseConfig] accepts:
    with one connection in the pool the [int32] difference wraps around to
    the greatest [int32], and that many goroutines are launched, where the
    deficit is zero. *)
Lemma checkMinConns_wraps_around :
  ParseConfig "host=db pool_max_conns=2 pool_min_conns=-2147483648" = inr least_min_config
  /\ minConns (pool_of least_min_config) = -2147483648
  /\ Pool_TotalConns (world_of least_min_config) = 1
  /\ Z.max 0 (minConns (pool_of least_min_config)
               - Pool_TotalConns (world_of least_min_config)) = 0
  /\ goroutines (env (checkMinConns (pool_of least_min_config)
                                     (world_of least_min_config)))
     = goroutines (env (world_of least_min_config))
         ++ repeat GoCreateResource (Z.to_nat 2147483647).
Proof.
  split; [vm_compute; reflexivity|].
  split; [vm_compute; reflexivity|].
  split; [vm_compute; reflexivity|].
  split; [vm_compute; reflexivity|].
  destruct (checkMinConns_launches_int32 (pool_of least_min_config)
              (world_of least_min_config)) as (_ & _ & _ & _ & _ & Hgo).
  assert (Hwrap : int32 (minConns (pool_of least_min_config)
                          - Pool_TotalConns (world_of least_min_config))
                  = 2147483647) by (vm_compute; reflexivity).
  rewrite Hgo.
  exact (f_equal (fun n => goroutines (env (world_of least_min_config))
                            ++ repeat GoCreateResource (Z.to_nat n)) Hwrap).
Qed.

(** ** The accounting of the pool, operation by operation *)

Section Accounting.
Context {E : Type}.
Implicit Types (p : Pool E) (w : World E) (ctx : Context) (r : Resource).

Lemma remove_res_absent r (l : list Resource) :
  res_id r ∉ map res_id l -> remove_res r l = l.
Proof. intros Hnot. now destruct (filter_others r l Hnot). Qed.

(** The entry leased last, found by a handle on the same resource. *)
Lemma last_entry r r' (A : list Resource) :
  res_id r' = res_id r -> res_id r' ∉ map res_id A ->
  remove_res r (A ++ [r']) = A /\ entries_of r (A ++ [r']) = [r'].
Proof.
  intros Hid Hnot. rewrite Hid in Hnot.
  destruct (filter_others r A Hnot) as [Hrest Hnone].
  unfold remove_res, entries_of in *. rewrite !List.filter_app. cbn [List.filter].
  assert (Hr : same_res r r' = true) by (unfold same_res; rewrite Hid; apply Nat.eqb_refl).
  rewrite Hr, Hrest, Hnone. cbn [negb]. now rewrite app_nil_r.
Qed.

Lemma store_absent r (v : connResource) (l : list Resource) :
  res_id r ∉ map res_id l ->
  map (fun r' => if same_res r r' then with_value v r' else r') l = l.
Proof.
  induction l as [|x l IH]; intros Hnot; [reflexivity|].
  cbn [map] in Hnot. apply not_elem_of_cons in Hnot as [Hne Hnot].
  cbn [map]. rewrite (IH Hnot).
  assert (Hx : same_res r x = false) by (now apply Nat.eqb_neq).
  now rewrite Hx.
Qed.

(** In an accounting without duplicates, the last leased resource is in no
    other place. *)
Lemma last_leased_apart (A idle : list Resource) r :
  NoDup (map res_id ((A ++ [r]) ++ idle)) ->
  (res_id r ∉ map res_id A) /\ (res_id r ∉ map res_id idle).
Proof.
  rewrite <- app_assoc. cbn [app]. rewrite map_app. cbn [map]. intros Hnodup.
  apply NoDup_app in Hnodup as (_ & Hdisj & Htail).
  apply NoDup_cons in Htail as [Hnot _].
  split; [|exact Hnot].
  intros Hin. apply (Hdisj _ Hin). now left.
Qed.

Lemma store_value_last r r' (v : connResource) w (A : list Resource) :
  acquiredResources (core w) = A ++ [r'] ->
  res_id r' = res_id r ->
  distinct_resources w ->
  acquiredResources (core (store_value r v w)) = A ++ [with_value v r']
  /\ idleResources (core (store_value r v w)) = idleResources (core w).
Proof.
  intros Hacq Hid Hdistinct. unfold distinct_resources in Hdistinct.
  rewrite Hacq in Hdistinct.
  destruct (last_leased_apart _ _ _ Hdistinct) as [HA Hidle].
  rewrite Hid in HA, Hidle.
  unfold store_value. cbn [core set_core set_resources acquiredResources idleResources].
  rewrite Hacq, map_app. cbn [map].
  assert (Hr : same_res r r' = true) by (unfold same_res; rewrite Hid; apply Nat.eqb_refl).
  rewrite Hr.
  change (fun r' => if same_res r r' then
                      {| res_id := res_id r'; value := v; creationTime := creationTime r';
                         lastUsedNano := lastUsedNano r' |} else r')
    with (fun r' => if same_res r r' then with_value v r' else r').
  now rewrite (store_absent r v A HA), (store_absent r v _ Hidle).
Qed.


Lemma fresh_not_in (n : nat) (l : list Resource) :
  Forall (fun r => (res_id r < n)%nat) l -> n ∉ map res_id l.
Proof.
  induction l as [|x l IH]; intros Hall; [apply not_elem_of_nil|].
  apply Forall_cons in Hall as [Hx Hall]. cbn [map].
  apply not_elem_of_cons. split; [lia|now apply IH].
Qed.

(** The core acquire keeps the accounting in order. *)
Lemma puddle_Acquire_accounting ctx w (a : error + Resource) w1 :
  well_formed w -> puddle_Acquire ctx w = Done a w1 ->
  well_formed w1
  /\ maxSize (core w1) = maxSize (core w)
  /\ closed (core w1) = closed (core w)
  /\ idleResources (core w1) `suffix_of` idleResources (core w)
  /\ (within_bound w -> within_bound w1)
  /\ acquiredResources (core w1)
     = acquiredResources (core w) ++ match a with inr r => [r] | inl _ => [] end.
Proof.
  intros [Hdistinct Hfresh]. unfold puddle_Acquire.
  destruct (closed (core w)) eqn:Hclosed.
  { intros [= <- <-]. rewrite app_nil_r. now repeat split. }
  destruct (ctx_err ctx).
  { intros [= <- <-]. rewrite app_nil_r. now repeat split. }
  destruct (idleResources (core w)) as [|r idle] eqn:Hidle.
  - destruct (TotalResources (core w) <? maxSize (core w)) eqn:Hroom; [|discriminate].
    apply Z.ltb_lt in Hroom.
    unfold construct. destruct (constructor (core w) ctx (ext (env w))) as [[err|v] e].
    + intros [= <- <-]. rewrite app_nil_r.
      split; [split; [exact Hdistinct|exact Hfresh]|].
      cbn [core set_env]. rewrite Hidle. now repeat split.
    + intros [= <- <-].
      unfold well_formed, distinct_resources, fresh_ids, within_bound, TotalResources
        in *.
      cbn [core env set_env set_core bump_nextID set_resources idleResources
           acquiredResources nextID maxSize closed newResource] in *.
      rewrite Hidle in *. rewrite !app_nil_r in *. cbn [length] in *.
      repeat split; try reflexivity; try assumption.
      * rewrite map_app. unfold newResource. cbn [map res_id core set_env]. apply NoDup_app.
        split; [exact Hdistinct|]. split; [|apply NoDup_singleton].
        intros i Hi Hin. apply list_elem_of_singleton in Hin. subst i.
        now apply (fresh_not_in _ _ Hfresh).
      * apply Forall_app. split.
        -- eapply Forall_impl; [exact Hfresh|]. intros x Hx. cbn beta in Hx |- *. lia.
        -- apply Forall_singleton. unfold newResource. cbn [res_id core set_env]. lia.
      * intros _. rewrite length_app. cbn [length]. lia.
  - intros [= <- <-].
    unfold well_formed, distinct_resources, fresh_ids, within_bound, TotalResources in *.
    cbn [core env set_env set_core set_resources idleResources acquiredResources nextID
         maxSize closed] in *.
    rewrite Hidle in *. rewrite <- !app_assoc. cbn [app].
    repeat split; try assumption; try reflexivity.
    + now apply suffix_cons_r.
    + rewrite length_app. cbn [length] in *. lia.
Qed.

Lemma puddle_Acquire_parked ctx w w1 : puddle_Acquire ctx w = Parked w1 -> w1 = w.
Proof.
  unfold puddle_Acquire.
  destruct (closed (core w)); [discriminate|].
  destruct (ctx_err ctx); [discriminate|].
  destruct (idleResources (core w)); [|discriminate].
  destruct (TotalResources (core w) <? maxSize (core w)); [|now intros [= <-]].
  destruct (construct ctx w) as [[err|v] w2]; discriminate.
Qed.

(** Destroying the resource leased last restores the leases there were. *)
Lemma Resource_Destroy_last r r' w (A : list Resource) :
  acquiredResources (core w) = A ++ [r'] ->
  res_id r' = res_id r ->
  well_formed w ->
  let w' := Resource_Destroy r w in
  acquiredResources (core w') = A
  /\ idleResources (core w') = idleResources (core w)
  /\ well_formed w'
  /\ maxSize (core w') = maxSize (core w)
  /\ closed (core w') = closed (core w)
  /\ (within_bound w -> within_bound w').
Proof.
  intros Hacq Hid [Hdistinct Hfresh]. cbn zeta.
  unfold well_formed, distinct_resources, fresh_ids, within_bound, TotalResources,
    Resource_Destroy in *.
  cbn [core env set_env set_core set_resources idleResources acquiredResources nextID
       maxSize closed] in *.
  rewrite Hacq in *.
  destruct (last_leased_apart _ _ _ Hdistinct) as [HA Hidle].
  destruct (last_entry r r' A Hid HA) as [Hremove _]. rewrite Hremove.
  rewrite <- app_assoc in Hdistinct, Hfresh. cbn [app] in Hdistinct, Hfresh.
  repeat split; try reflexivity.
  - now apply NoDup_drop_middle in Hdistinct.
  - apply Forall_app in Hfresh as [HfA Hfr]. apply Forall_cons in Hfr as [_ HfI].
    apply Forall_app. now split.
  - rewrite length_app. cbn [length]. lia.
Qed.

(** Releasing the resource leased last restores the leases there were, and
    the resource is idle again, last in the queue. *)
Lemma Resource_Release_last r r' w (A : list Resource) :
  acquiredResources (core w) = A ++ [r'] ->
  res_id r' = res_id r ->
  well_formed w ->
  let w' := Resource_Release r w in
  acquiredResources (core w') = A
  /\ idleResources (core w') = idleResources (core w) ++ [touch (clock (env w)) r']
  /\ well_formed w'
  /\ maxSize (core w') = maxSize (core w)
  /\ closed (core w') = closed (core w)
  /\ (within_bound w -> within_bound w')
  /\ env w' = env w.
Proof.
  intros Hacq Hid [Hdistinct Hfresh]. cbn zeta.
  unfold well_formed, distinct_resources, fresh_ids, within_bound, TotalResources,
    Resource_Release in *.
  cbn [core env set_env set_core set_resources idleResources acquiredResources nextID
       maxSize closed] in *.
  rewrite Hacq in *.
  destruct (last_leased_apart _ _ _ Hdistinct) as [HA Hidle].
  destruct (last_entry r r' A Hid HA) as [Hremove Hentries]. rewrite Hremove, Hentries.
  cbn [map].
  rewrite <- app_assoc in Hdistinct, Hfresh. cbn [app] in Hdistinct, Hfresh.
  repeat split; try reflexivity.
  - rewrite !map_app in *. cbn [map touch res_id] in *.
    rewrite (Permutation_app_comm (map res_id (idleResources (core w))) [res_id r']).
    exact Hdistinct.
  - rewrite !Forall_app in *. rewrite Forall_cons in Hfresh. rewrite Forall_singleton.
    cbn [touch res_id]. tauto.
  - rewrite !length_app in *. cbn [length] in *. lia.
Qed.

End Accounting.

Section AcquireAccounting.
Context {E : Type}.
Implicit Types (p : Pool E) (w : World E) (ctx : Context) (r : Resource).

(** What the hook does to the world leaves the accounting alone. *)
Lemma well_formed_core w w' : core w' = core w -> well_formed w -> well_formed w'.
Proof.
  unfold well_formed, distinct_resources, fresh_ids. now intros ->.
Qed.

Lemma within_bound_core w w' : core w' = core w -> within_bound w -> within_bound w'.
Proof. unfold within_bound. now intros ->. Qed.

(** [Acquire] keeps the accounting in order: the leases there were are as
    they were, a returned lease is on a resource added at the end of the
    leased ones, with one slot taken from its arena, and the idle resources
    left are the last of those there were. *)
Lemma Acquire_accounting (fuel : nat) p ctx w (o : outcome (World E) (error + Conn)) :
  well_formed w -> Acquire fuel p ctx w = Some o ->
  well_formed (world_after o)
  /\ maxSize (core (world_after o)) = maxSize (core w)
  /\ closed (core (world_after o)) = closed (core w)
  /\ idleResources (core (world_after o)) `suffix_of` idleResources (core w)
  /\ (within_bound w -> within_bound (world_after o))
  /\ acquiredResources (core (world_after o))
     = acquiredResources (core w)
         ++ match o with
            | Done (inr c) _ => [with_value (snd (getConn (value (res c)) (res c))) (res c)]
            | _ => []
            end.
Proof.
  revert w. induction fuel as [|fuel IH]; intros w Hwf; [discriminate|].
  rewrite Acquire_turn.
  destruct (puddle_Acquire ctx w) as [[err|r] w1|w1] eqn:Hacq.
  - intros [= <-]. cbn [world_after].
    exact (puddle_Acquire_accounting ctx w _ w1 Hwf Hacq).
  - destruct (puddle_Acquire_accounting ctx w _ w1 Hwf Hacq) as (H1 & H2 & H3 & H4 & H5 & H6).
    destruct (beforeAcquire_allows p ctx (conn (value r)) (ext (env w1))) as [[|] e];
      cbn zeta.
    + cbn [getConn]. intros [= <-]. cbn [world_after res].
      set (w2 := set_env (set_ext e (env w1)) w1).
      assert (Hwf2 : well_formed w2) by exact H1.
      destruct (store_value_last r r
                  {| conn := conn (value r);
                     conns := ((if Nat.eqb (conns (value r)) 0 then 128%nat
                                else conns (value r)) - 1)%nat;
                     poolRows := poolRows (value r); poolRowss := poolRowss (value r) |}
                  w2 (acquiredResources (core w)) H6 eq_refl (proj1 Hwf2)) as [Hs1 Hs2].
      split; [|split; [|split; [|split; [|split]]]].
      * destruct Hwf2 as [Hd2 Hf2].
        unfold well_formed, distinct_resources, fresh_ids in *.
        rewrite Hs1, Hs2.
        change (nextID (core (store_value r _ w2))) with (nextID (core w1)).
        change (acquiredResources (core w2)) with (acquiredResources (core w1)) in *.
        change (idleResources (core w2)) with (idleResources (core w1)) in *.
        change (nextID (core w2)) with (nextID (core w1)) in *.
        rewrite H6 in Hd2, Hf2.
        rewrite !map_app in *. cbn [map with_value res_id] in *.
        split; [exact Hd2|].
        rewrite !Forall_app in *. rewrite !Forall_singleton in *. exact Hf2.
      * exact H2.
      * exact H3.
      * rewrite Hs2. exact H4.
      * intros Hb. specialize (H5 Hb). unfold within_bound, TotalResources in *.
        rewrite Hs1, Hs2.
        change (maxSize (core (store_value r _ w2))) with (maxSize (core w1)).
        change (idleResources (core w2)) with (idleResources (core w1)).
        rewrite H6 in H5. rewrite !length_app in *. exact H5.
      * exact Hs1.
    + intros Hrun.
      set (w2 := set_env (set_ext e (env w1)) w1) in *.
      assert (Hwf2 : well_formed w2) by exact H1.
      destruct (Resource_Destroy_last r r w2 (acquiredResources (core w)) H6 eq_refl Hwf2)
        as (Hd1 & Hd2 & Hd3 & Hd4 & Hd5 & Hd6).
      destruct (IH _ Hd3 Hrun) as (I1 & I2 & I3 & I4 & I5 & I6).
      split; [exact I1|].
      split; [rewrite I2, Hd4; exact H2|]. split; [rewrite I3, Hd5; exact H3|].
      split; [|split].
      * rewrite Hd2 in I4. now transitivity (idleResources (core w1)).
      * intros Hb. apply I5, Hd6, H5, Hb.
      * rewrite I6, Hd1. reflexivity.
  - intros [= <-]. cbn [world_after].
    apply puddle_Acquire_parked in Hacq. subst w1. rewrite app_nil_r.
    split; [exact Hwf|]. now repeat split.
Qed.



End AcquireAccounting.

Section OperationProperties.
Context {E : Type} `{Driver E} `{Statements E}.
Implicit Types (p : Pool E) (w : World E) (ctx : Context) (r : Resource).

(** Releasing the lease taken last, whatever the after-release hook
    answers. *)
Lemma Conn_Release_last p (c : Conn) r' w (A : list Resource) :
  acquiredResources (core w) = A ++ [r'] ->
  res_id r' = res_id (res c) ->
  well_formed w ->
  let w' := Conn_Release p c w in
  acquiredResources (core w') = A
  /\ well_formed w'
  /\ (within_bound w -> within_bound w')
  /\ maxSize (core w') = maxSize (core w)
  /\ closed (core w') = closed (core w)
  /\ (idleResources (core w') = idleResources (core w) ++ [touch (clock (env w)) r']
      \/ idleResources (core w') = idleResources (core w)
         /\ log (env w') = log (env w) ++ [EvDestructor (Conn_Conn c)]).
Proof.
  intros Hacq Hid Hwf. cbn zeta. unfold Conn_Release.
  destruct (afterRelease p) as [hook|].
  - destruct (hook (Conn_Conn c) (ext (env w))) as [[|] e].
    + set (w2 := set_env (set_ext e (env w)) w).
      destruct (Resource_Release_last (res c) r' w2 A Hacq Hid Hwf)
        as (H1 & H2 & H3 & H4 & H5 & H6 & H7).
      split; [exact H1|]. split; [exact H3|]. split; [exact H6|].
      split; [exact H4|]. split; [exact H5|]. left. exact H2.
    + set (w2 := set_env (set_ext e (env w)) w).
      destruct (Resource_Destroy_last (res c) r' w2 A Hacq Hid Hwf)
        as (H1 & H2 & H3 & H4 & H5 & H6).
      split; [exact H1|]. split; [exact H3|]. split; [exact H6|].
      split; [exact H4|]. split; [exact H5|]. right. split; [exact H2|reflexivity].
  - destruct (Resource_Release_last (res c) r' w A Hacq Hid Hwf)
      as (H1 & H2 & H3 & H4 & H5 & H6 & H7).
    split; [exact H1|]. split; [exact H3|]. split; [exact H6|].
    split; [exact H4|]. split; [exact H5|]. left. exact H2.
Qed.

Lemma Conn_Exec_core ctx (c : Conn) (sql : string) (args : list Z) w :
  core (snd (Conn_Exec ctx c sql args w)) = core w.
Proof. unfold Conn_Exec. now destruct (pgx_Conn_Exec _ _ _ _ _). Qed.


Lemma Conn_QueryFunc_core ctx (c : Conn) (sql : string) (args scans : list Z)
    (f : PgxRow -> E -> option error * E) w :
  core (snd (Conn_QueryFunc ctx c sql args scans f w)) = core w.
Proof. unfold Conn_QueryFunc. now destruct (pgx_Conn_QueryFunc _ _ _ _ _ _ _). Qed.

Lemma Conn_CopyFrom_core ctx (c : Conn) (tableName columnNames : list string)
    (rowSrc : list (list Z)) w :
  core (snd (Conn_CopyFrom ctx c tableName columnNames rowSrc w)) = core w.
Proof. unfold Conn_CopyFrom. now destruct (pgx_Conn_CopyFrom _ _ _ _ _ _). Qed.

(** A lease acquired, something done that leaves the core pool alone, and
    the lease released: the leases are those there were. *)
Lemma acquire_use_release (fuel : nat) p ctx w (c : Conn) w1 w2 :
  well_formed w ->
  Acquire fuel p ctx w = Some (Done (inr c) w1) ->
  core w2 = core w1 ->
  lease_returned w (Conn_Release p c w2).
Proof.
  intros Hwf Hacq Hcore.
  destruct (Acquire_accounting fuel p ctx w _ Hwf Hacq) as (H1 & H2 & H3 & H4 & H5 & H6).
  cbn [world_after] in *.
  assert (Hwf2 : well_formed w2) by (now apply (well_formed_core w1)).
  rewrite <- Hcore in H6.
  destruct (Conn_Release_last p c _ w2 _ H6 eq_refl Hwf2) as (R1 & R2 & R3 & R4 & R5 & _).
  unfold lease_returned. split; [exact R1|exact R2].
Qed.

(** X6. The short-lived operations [Exec], [QueryFunc] and [CopyFrom], on
    an accounting that is in order. When the acquisition fails its error is
    returned, beside a nil command tag or a count of zero, in the world the
    acquisition left: the statement is not run. When the caller is parked
    the operation is. Otherwise the operation returns what the statement
    returned on the connection of the lease, whether that is an error or
    not, and the deferred release has run: the leases are those there were
    before the call, and the accounting is in order. *)
Theorem short_lived_operations_return_the_lease (fuel : nat) p ctx w :
  well_formed w ->
  (forall (sql : string) (arguments : list Z),
     match Acquire fuel p ctx w with
     | Some (Done (inl err) w1) =>
       Exec fuel p ctx sql arguments w = Some (Done (None, Some err) w1)
     | Some (Done (inr c) w1) =>
       exists w',
         Exec fuel p ctx sql arguments w
         = Some (Done (fst (pgx_Conn_Exec ctx (Conn_Conn c) sql arguments (ext (env w1)))) w')
         /\ lease_returned w w'
     | Some (Parked w1) => Exec fuel p ctx sql arguments w = Some (Parked w1)
     | None => Exec fuel p ctx sql arguments w = None
     end)
  /\ (forall (sql : string) (args scans : list Z) (f : PgxRow -> E -> option error * E),
        match Acquire fuel p ctx w with
        | Some (Done (inl err) w1) =>
          QueryFunc fuel p ctx sql args scans f w = Some (Done (None, Some err) w1)
        | Some (Done (inr c) w1) =>
          exists w',
            QueryFunc fuel p ctx sql args scans f w
            = Some (Done (fst (pgx_Conn_QueryFunc ctx (Conn_Conn c) sql args scans f
                                 (ext (env w1)))) w')
            /\ lease_returned w w'
        | Some (Parked w1) => QueryFunc fuel p ctx sql args scans f w = Some (Parked w1)
        | None => QueryFunc fuel p ctx sql args scans f w = None
        end)
  /\ (forall (tableName columnNames : list string) (rowSrc : list (list Z)),
        match Acquire fuel p ctx w with
        | Some (Done (inl err) w1) =>
          CopyFrom fuel p ctx tableName columnNames rowSrc w = Some (Done (0, Some err) w1)
        | Some (Done (inr c) w1) =>
          exists w',
            CopyFrom fuel p ctx tableName columnNames rowSrc w
            = Some (Done (fst (pgx_Conn_CopyFrom ctx (Conn_Conn c) tableName columnNames
                                 rowSrc (ext (env w1)))) w')
            /\ lease_returned w w'
        | Some (Parked w1) =>
          CopyFrom fuel p ctx tableName columnNames rowSrc w = Some (Parked w1)
        | None => CopyFrom fuel p ctx tableName columnNames rowSrc w = None
        end).
Proof.
  intros Hwf. split; [|split].
  - intros sql arguments. unfold Exec.
    destruct (Acquire fuel p ctx w) as [[[err|c] w1|w1]|] eqn:Hacq; try reflexivity.
    pose proof (Conn_Exec_core ctx c sql arguments w1) as Hcore.
    unfold Conn_Exec in *.
    destruct (pgx_Conn_Exec ctx (Conn_Conn c) sql arguments (ext (env w1))) as [r e].
    cbn [fst snd] in *. eexists. split; [reflexivity|].
    exact (acquire_use_release fuel p ctx w c w1 _ Hwf Hacq Hcore).
  - intros sql args scans f. unfold QueryFunc.
    destruct (Acquire fuel p ctx w) as [[[err|c] w1|w1]|] eqn:Hacq; try reflexivity.
    pose proof (Conn_QueryFunc_core ctx c sql args scans f w1) as Hcore.
    unfold Conn_QueryFunc in *.
    destruct (pgx_Conn_QueryFunc ctx (Conn_Conn c) sql args scans f (ext (env w1)))
      as [r e].
    cbn [fst snd] in *. eexists. split; [reflexivity|].
    exact (acquire_use_release fuel p ctx w c w1 _ Hwf Hacq Hcore).
  - intros tableName columnNames rowSrc. unfold CopyFrom.
    destruct (Acquire fuel p ctx w) as [[[err|c] w1|w1]|] eqn:Hacq; try reflexivity.
    pose proof (Conn_CopyFrom_core ctx c tableName columnNames rowSrc w1) as Hcore.
    unfold Conn_CopyFrom in *.
    destruct (pgx_Conn_CopyFrom ctx (Conn_Conn c) tableName columnNames rowSrc
                (ext (env w1))) as [r e].
    cbn [fst snd] in *. eexists. split; [reflexivity|].
    exact (acquire_use_release fuel p ctx w c w1 _ Hwf Hacq Hcore).
Qed.




(** An acquisition that gives no lease leaves the leases as they were. *)
Lemma acquire_without_lease (fuel : nat) p ctx w (o : outcome (World E) (error + Conn)) :
  well_formed w ->
  Acquire fuel p ctx w = Some o ->
  match o with Done (inr _) _ => False | _ => True end ->
  lease_returned w (world_after o).
Proof.
  intros Hwf Hacq Hnone.
  destruct (Acquire_accounting fuel p ctx w _ Hwf Hacq) as (H1 & H2 & H3 & H4 & H5 & H6).
  unfold lease_returned. split; [|exact H1].
  destruct o as [[err|c] w1|w1]; [|contradiction|]; now rewrite app_nil_r in H6.
Qed.

(** A lease acquired and kept, whatever is done with its connection and
    whatever is stored as the value of its resource. *)
Lemma acquire_and_keep (fuel : nat) p ctx w (c : Conn) w1 w2 :
  well_formed w ->
  Acquire fuel p ctx w = Some (Done (inr c) w1) ->
  core w2 = core w1 ->
  lease_kept w w2 c /\ forall v : connResource, lease_kept w (store_value (res c) v w2) c.
Proof.
  intros Hwf Hacq Hcore.
  destruct (Acquire_accounting fuel p ctx w _ Hwf Hacq) as (H1 & H2 & H3 & H4 & H5 & H6).
  cbn [world_after] in *.
  assert (Hwf2 : well_formed w2) by (now apply (well_formed_core w1)).
  rewrite <- Hcore in H6.
  split.
  - split; [eexists; split; [exact H6|reflexivity]|exact Hwf2].
  - intros v.
    destruct (store_value_last (res c) _ v w2 _ H6 eq_refl (proj1 Hwf2)) as [Hs1 Hs2].
    split; [eexists; split; [exact Hs1|reflexivity]|].
    destruct Hwf2 as [Hd Hf]. unfold well_formed, distinct_resources, fresh_ids in *.
    rewrite Hs1, Hs2.
    change (nextID (core (store_value (res c) v w2))) with (nextID (core w2)).
    rewrite H6 in Hd, Hf.
    rewrite !map_app in *. cbn [map with_value res_id] in *.
    split; [exact Hd|].
    rewrite !Forall_app in *. rewrite !Forall_singleton in *. exact Hf.
Qed.

(** X12. The long-lived operations [Query], [SendBatch], [BeginTx] and
    [Begin], on an accounting that is in order. When the result holds a
    lease (the rows, the batch results, the transaction), the leases are
    those there were and, last, that one; when it holds none (an error
    sentinel, a nil transaction, a parked caller) the leases are those there
    were: a lease taken for a query or a begin that failed has been given
    back. In both cases the accounting is in order. *)
Theorem long_lived_operations_keep_the_accounting (fuel : nat) p ctx w :
  well_formed w ->
  (forall (sql : string) (args : list Z) o,
     Query fuel p ctx sql args w = Some o ->
     match o with
     | Done (PoolRows c _, _) w' => lease_kept w w' c
     | Done (ErrRows _, _) w' | Parked w' => lease_returned w w'
     end)
  /\ (forall (b : list string) o,
        SendBatch fuel p ctx b w = Some o ->
        match o with
        | Done (PoolBatchResults _ c) w' => lease_kept w w' c
        | Done (ErrBatchResults _) w' | Parked w' => lease_returned w w'
        end)
  /\ (forall (txOptions : string) o,
        BeginTx fuel p ctx txOptions w = Some o ->
        match o with
        | Done (Some tx, _) w' => lease_kept w w' (Tx_c tx)
        | Done (None, _) w' | Parked w' => lease_returned w w'
        end)
  /\ (forall o,
        Begin fuel p ctx w = Some o ->
        match o with
        | Done (Some tx, _) w' => lease_kept w w' (Tx_c tx)
        | Done (None, _) w' | Parked w' => lease_returned w w'
        end).
Proof.
  intros Hwf.
  assert (Hbegin : forall (txOptions : string) o,
            BeginTx fuel p ctx txOptions w = Some o ->
            match o with
            | Done (Some tx, _) w' => lease_kept w w' (Tx_c tx)
            | Done (None, _) w' | Parked w' => lease_returned w w'
            end).
  { intros txOptions o. unfold BeginTx.
    destruct (Acquire fuel p ctx w) as [[[err|c] w1|w1]|] eqn:Hacq; [| | |discriminate].
    - intros [= <-]. exact (acquire_without_lease fuel p ctx w _ Hwf Hacq I).
    - pose proof (Conn_BeginTx_core ctx c txOptions w1) as Hcore.
      destruct (Conn_BeginTx ctx c txOptions w1) as [[err|t] w2]; cbn [snd] in Hcore;
        intros [= <-].
      + exact (acquire_use_release fuel p ctx w c w1 w2 Hwf Hacq Hcore).
      + cbn [Tx_c]. exact (proj1 (acquire_and_keep fuel p ctx w c w1 w2 Hwf Hacq Hcore)).
    - intros [= <-]. exact (acquire_without_lease fuel p ctx w _ Hwf Hacq I). }
  split; [|split; [|split; [exact Hbegin|exact (Hbegin EmptyString)]]].
  - intros sql args o. unfold Query.
    destruct (Acquire fuel p ctx w) as [[[err|c] w1|w1]|] eqn:Hacq; [| | |discriminate].
    + intros [= <-]. exact (acquire_without_lease fuel p ctx w _ Hwf Hacq I).
    + pose proof (Conn_Query_core ctx c sql args w1) as Hcore.
      destruct (Conn_Query ctx c sql args w1) as [[err|rows] w2]; cbn [snd] in Hcore.
      * intros [= <-]. exact (acquire_use_release fuel p ctx w c w1 w2 Hwf Hacq Hcore).
      * unfold Conn_getPoolRows, getPoolRows. intros [= <-].
        exact (proj2 (acquire_and_keep fuel p ctx w c w1 w2 Hwf Hacq Hcore) _).
    + intros [= <-]. exact (acquire_without_lease fuel p ctx w _ Hwf Hacq I).
  - intros b o. unfold SendBatch.
    destruct (Acquire fuel p ctx w) as [[[err|c] w1|w1]|] eqn:Hacq; [| | |discriminate].
    + intros [= <-]. exact (acquire_without_lease fuel p ctx w _ Hwf Hacq I).
    + pose proof (Conn_SendBatch_core ctx c b w1) as Hcore.
      destruct (Conn_SendBatch ctx c b w1) as [br w2]; cbn [snd] in Hcore.
      intros [= <-]. exact (proj1 (acquire_and_keep fuel p ctx w c w1 w2 Hwf Hacq Hcore)).
    + intros [= <-]. exact (acquire_without_lease fuel p ctx w _ Hwf Hacq I).
Qed.

End OperationProperties.

Section AcquireAllIdleProperties.
Context {E : Type}.
Implicit Types (p : Pool E) (w : World E) (ctx : Context) (r : Resource).








End AcquireAllIdleProperties.

Section CloseProperties.
Context {E : Type} `{Driver E} `{Statements E}.
Implicit Types (p : Pool E) (w : World E) (ctx : Context) (r : Resource).



End CloseProperties.

(** ** Configurations and connecting *)

Section ParseConfigResult.
Context {E : Type} `{ParseEnv}.

Lemma parseUint_loop_range (maxVal : Z) (s : string) :
  forall n m : Z, 0 <= n -> parseUint_loop maxVal n s = UintOk m -> 0 <= m.
Proof.
  induction s as [|c s IH]; intros n m Hn; cbn [parseUint_loop].
  - now intros [= <-].
  - destruct (is_digit c) eqn:Hdigit; [|discriminate].
    cbn zeta. destruct (maxVal <? 10 * n + digit_value c); [discriminate|].
    apply IH. unfold is_digit in Hdigit. unfold digit_value.
    apply andb_true_iff in Hdigit as [Hlo _]. apply Z.leb_le in Hlo. lia.
Qed.

(** [strconv.ParseInt(s, 10, 32)] returns a number only when it fits an
    [int32]. *)
Lemma strconv_ParseInt_range (s : string) (n : Z) :
  strconv_ParseInt s 32 = inr n -> - 2 ^ 31 <= n < 2 ^ 31.
Proof.
  unfold strconv_ParseInt. destruct s as [|c s']; [discriminate|].
  assert (Hbody : forall (neg : bool) (body : string),
            match strconv_ParseUint body 32 with
            | UintSyntax => inl (ErrSyntax "ParseInt" (String c s'))
            | r =>
              let un := match r with UintOk n => n | _ => 2 ^ 32 - 1 end in
              let cutoff := 2 ^ (32 - 1) in
              if negb neg && (cutoff <=? un) then inl (ErrRange "ParseInt" (String c s'))
              else if neg && (cutoff <? un) then inl (ErrRange "ParseInt" (String c s'))
                   else inr (if neg then - un else un)
            end = inr n -> - 2 ^ 31 <= n < 2 ^ 31).
  { intros neg body.
    destruct (strconv_ParseUint body 32) as [un| |] eqn:Hdigits; [|discriminate|].
    - assert (Hun : 0 <= un).
      { unfold strconv_ParseUint in Hdigits. destruct body as [|b body']; [discriminate|].
        exact (parseUint_loop_range _ _ _ _ (Z.le_refl 0) Hdigits). }
      cbn zeta. change (2 ^ (32 - 1)) with (2 ^ 31).
      destruct neg; cbn [negb andb].
      + destruct (2 ^ 31 <? un) eqn:Hcut; [discriminate|].
        apply Z.ltb_ge in Hcut. intros [= <-]. lia.
      + destruct (2 ^ 31 <=? un) eqn:Hcut; [discriminate|].
        apply Z.leb_gt in Hcut. intros [= <-]. lia.
    - cbn zeta. destruct neg; cbn [negb andb]; discriminate. }
  destruct (Ascii.eqb c "+"); [exact (Hbody false s')|].
  destruct (Ascii.eqb c "-"); [exact (Hbody true s')|exact (Hbody false (String c s'))].
Qed.

Lemma int_setting_read (v : option string) (default : Z) (s : string) (n : Z) :
  v = Some s -> strconv_ParseInt s 32 = inr n ->
  int_setting v default = n /\ strconv_ParseInt s 32 = inr (int_setting v default).
Proof.
  intros -> Hparse. unfold int_setting. rewrite Hparse.
  rewrite (int32_small n (strconv_ParseInt_range s n Hparse)). now split.
Qed.

(** The configuration [ParseConfig] returns, field by field. *)
Lemma ParseConfig_fields (connString : string) (cfg : Config E) :
  ParseConfig connString = inr cfg ->
  exists cc,
    pgx_ParseConfig connString = inr cc
    /\ cfg = parsed_config cc
    /\ 1 <= MaxConns cfg < 2 ^ 31
    /\ - 2 ^ 31 <= MinConns cfg < 2 ^ 31
    /\ (forall s, RuntimeParams cc !! "pool_max_conns" = Some s ->
          strconv_ParseInt s 32 = inr (MaxConns cfg))
    /\ (forall s, RuntimeParams cc !! "pool_min_conns" = Some s ->
          strconv_ParseInt s 32 = inr (MinConns cfg))
    /\ (forall s, RuntimeParams cc !! "pool_max_conn_lifetime" = Some s ->
          time_ParseDuration s = inr (MaxConnLifetime cfg))
    /\ (forall s, RuntimeParams cc !! "pool_max_conn_idle_time" = Some s ->
          time_ParseDuration s = inr (MaxConnIdleTime cfg))
    /\ (forall s, RuntimeParams cc !! "pool_health_check_period" = Some s ->
          time_ParseDuration s = inr (HealthCheckPeriod cfg)).
Proof.
  intros Hparse. rewrite ParseConfig_by_key in Hparse.
  destruct (pgx_ParseConfig connString) as [err|cc]; [discriminate|].
  destruct (first_error pool_keys (RuntimeParams cc)) as [[key e]|] eqn:Hfirst;
    [discriminate|].
  injection Hparse as <-. exists cc. split; [reflexivity|]. split; [reflexivity|].
  assert (Hok : forall key v, key ∈ pool_keys -> RuntimeParams cc !! key = Some v ->
                              key_error key v = None)
    by (intros key v; apply first_error_None; exact Hfirst).
  assert (Hmax : forall s, RuntimeParams cc !! "pool_max_conns" = Some s ->
                           exists n, strconv_ParseInt s 32 = inr n /\ 1 <= n).
  { intros s Hs. apply (key_error_meaning s). apply Hok; [by_computation|exact Hs]. }
  assert (Hmin : forall s, RuntimeParams cc !! "pool_min_conns" = Some s ->
                           exists n, strconv_ParseInt s 32 = inr n).
  { intros s Hs. apply (key_error_meaning s). apply Hok; [by_computation|exact Hs]. }
  assert (Hdur : forall key s, key ∈ duration_keys -> key ∈ pool_keys ->
                               RuntimeParams cc !! key = Some s ->
                               exists d, time_ParseDuration s = inr d).
  { intros key s Hkey Hpool Hs.
    destruct (key_error_meaning s) as (_ & _ & Hd). apply (Hd key Hkey).
    now apply Hok. }
  unfold parsed_config.
  cbn [MaxConns MinConns MaxConnLifetime MaxConnIdleTime HealthCheckPeriod].
  split; [|split; [|split; [|split; [|split; [|split]]]]].
  - destruct (RuntimeParams cc !! "pool_max_conns") as [s|] eqn:Hs.
    + destruct (Hmax s eq_refl) as (n & Hn & Hle).
      destruct (int_setting_read (Some s) (if defaultMaxConns <? int32 runtime_NumCPU
                                            then int32 runtime_NumCPU else defaultMaxConns)
                  s n eq_refl Hn) as [-> _].
      pose proof (strconv_ParseInt_range s n Hn). lia.
    + cbn [int_setting]. pose proof (int32_range runtime_NumCPU) as Hcpu.
      change defaultMaxConns with 4.
      destruct (4 <? int32 runtime_NumCPU) eqn:Hlt; [apply Z.ltb_lt in Hlt|]; lia.
  - destruct (RuntimeParams cc !! "pool_min_conns") as [s|] eqn:Hs.
    + destruct (Hmin s eq_refl) as (n & Hn).
      destruct (int_setting_read (Some s) defaultMinConns s n eq_refl Hn) as [-> _].
      exact (strconv_ParseInt_range s n Hn).
    + cbn [int_setting]. change defaultMinConns with 0. lia.
  - intros s Hs. destruct (Hmax s Hs) as (n & Hn & _). rewrite Hs.
    now destruct (int_setting_read (Some s) (if defaultMaxConns <? int32 runtime_NumCPU
                                             then int32 runtime_NumCPU else defaultMaxConns)
                    s n eq_refl Hn).
  - intros s Hs. destruct (Hmin s Hs) as (n & Hn). rewrite Hs.
    now destruct (int_setting_read (Some s) defaultMinConns s n eq_refl Hn).
  - intros s Hs. destruct (Hdur "pool_max_conn_lifetime" s) as (d & Hd);
      [by_computation|by_computation|exact Hs|].
    rewrite Hs. cbn [duration_setting]. now rewrite Hd.
  - intros s Hs. destruct (Hdur "pool_max_conn_idle_time" s) as (d & Hd);
      [by_computation|by_computation|exact Hs|].
    rewrite Hs. cbn [duration_setting]. now rewrite Hd.
  - intros s Hs. destruct (Hdur "pool_health_check_period" s) as (d & Hd);
      [by_computation|by_computation|exact Hs|].
    rewrite Hs. cbn [duration_setting]. now rewrite Hd.
Qed.

(** X2. Every configuration [ParseConfig] returns: the flag
    [createdByParseConfig] is set, the connection is not lazy and no hook is
    set; the maximum is at least 1 and the minimum is an [int32]; and each
    field of a key that is present holds what its parser returned for the
    value -- the conversion to [int32] of the two integers loses nothing,
    because [strconv.ParseInt] was asked for 32 bits. *)
Theorem ParseConfig_result_is_in_range (connString : string) (cfg : Config E) :
  ParseConfig connString = inr cfg ->
  createdByParseConfig cfg = true
  /\ LazyConnect cfg = false
  /\ BeforeConnect cfg = None /\ AfterConnect cfg = None
  /\ BeforeAcquire cfg = None /\ AfterRelease cfg = None
  /\ 1 <= MaxConns cfg < 2 ^ 31
  /\ - 2 ^ 31 <= MinConns cfg < 2 ^ 31
  /\ exists cc,
       pgx_ParseConfig connString = inr cc
       /\ (forall s, RuntimeParams cc !! "pool_max_conns" = Some s ->
             strconv_ParseInt s 32 = inr (MaxConns cfg))
       /\ (forall s, RuntimeParams cc !! "pool_min_conns" = Some s ->
             strconv_ParseInt s 32 = inr (MinConns cfg))
       /\ (forall s, RuntimeParams cc !! "pool_max_conn_lifetime" = Some s ->
             time_ParseDuration s = inr (MaxConnLifetime cfg))
       /\ (forall s, RuntimeParams cc !! "pool_max_conn_idle_time" = Some s ->
             time_ParseDuration s = inr (MaxConnIdleTime cfg))
       /\ (forall s, RuntimeParams cc !! "pool_health_check_period" = Some s ->
             time_ParseDuration s = inr (HealthCheckPeriod cfg)).
Proof.
  intros Hparse.
  destruct (ParseConfig_fields connString cfg Hparse)
    as (cc & Hpgx & Hcfg & Hmax & Hmin & Hrest).
  assert (Hzero : createdByParseConfig cfg = true /\ LazyConnect cfg = false
                  /\ BeforeConnect cfg = None /\ AfterConnect cfg = None
                  /\ BeforeAcquire cfg = None /\ AfterRelease cfg = None)
    by (rewrite Hcfg; now repeat split).
  destruct Hzero as (Z1 & Z2 & Z3 & Z4 & Z5 & Z6).
  split; [exact Z1|]. split; [exact Z2|]. split; [exact Z3|]. split; [exact Z4|].
  split; [exact Z5|]. split; [exact Z6|]. split; [exact Hmax|]. split; [exact Hmin|].
  exists cc. split; [exact Hpgx|exact Hrest].
Qed.

End ParseConfigResult.

Section ConnectProperties.
Context {E : Type} `{Driver E} `{ParseEnv}.
Implicit Types (p : Pool E) (w : World E) (ctx : Context) (r : Resource).

(** [ConnectConfig] on a configuration it accepts, with room for a
    connection: what it returns and the world it leaves. *)
Lemma ConnectConfig_cases ctx (config : Config E) (v : Env E) :
  createdByParseConfig config = true ->
  0 < MaxConns config ->
  let p := ConnectConfig_pool config in
  exists (a : error + Pool E) w,
    ConnectConfig ctx config v = ConnectDone a w
    /\ goroutines (env w) = goroutines v ++ [GoBackgroundHealthCheck]
    /\ acquiredResources (core w) = []
    /\ maxSize (core w) = MaxConns config
    /\ constructor (core w) = poolConstructor p
    /\ destructor (core w) = poolDestructor
    /\ well_formed w
    /\ destructor_calls (log (env w)) = destructor_calls (log v)
    /\ match a with
       | inr p' =>
         p' = p
         /\ closed (core w) = false /\ closeChan w = false
         /\ if LazyConnect config
            then idleResources (core w) = [] /\ env w = go GoBackgroundHealthCheck v
            else exists r,
                idleResources (core w) = [r]
                /\ ctx_err ctx = None
                /\ poolConstructor p ctx (ext v) = (inr (value r), ext (env w))
                /\ creationTime r = clock v
                /\ factory_calls (log (env w)) = S (factory_calls (log v))
       | inl err =>
         LazyConnect config = false
         /\ closed (core w) = true /\ closeChan w = true
         /\ idleResources (core w) = []
         /\ (ctx_err ctx = Some err /\ env w = go GoBackgroundHealthCheck v
             \/ ctx_err ctx = None
                /\ poolConstructor p ctx (ext v) = (inl err, ext (env w))
                /\ factory_calls (log (env w)) = S (factory_calls (log v)))
       end.
Proof.
  intros Hflag Hmax. cbn zeta. unfold ConnectConfig. rewrite Hflag. cbn [negb].
  change {| config := config;
            beforeConnect := BeforeConnect config;
            afterConnect := AfterConnect config;
            beforeAcquire := BeforeAcquire config;
            afterRelease := AfterRelease config;
            minConns := MinConns config;
            maxConnLifetime := MaxConnLifetime config;
            maxConnIdleTime := MaxConnIdleTime config;
            healthCheckPeriod := HealthCheckPeriod config |}
    with (ConnectConfig_pool config).
  set (p := ConnectConfig_pool config).
  assert (Hdes : forall l : list event,
            destructor_calls (l ++ [EvGo GoBackgroundHealthCheck]) = destructor_calls l).
  { intros l. unfold destructor_calls.
    rewrite List.filter_app, length_app. cbn [List.filter length]. lia. }
  assert (Hdes2 : forall l : list event,
            destructor_calls ((l ++ [EvGo GoBackgroundHealthCheck]) ++ [EvFactory])
            = destructor_calls l).
  { intros l. unfold destructor_calls.
    rewrite !List.filter_app, !length_app. cbn [List.filter length]. lia. }
  assert (Hfac : forall l : list event,
            factory_calls ((l ++ [EvGo GoBackgroundHealthCheck]) ++ [EvFactory])
            = S (factory_calls l)).
  { intros l. unfold factory_calls.
    rewrite !List.filter_app, !length_app. cbn [List.filter length]. lia. }
  assert (Hwf0 : forall (n : nat) (c : bool) (ch : bool) (v' : Env E),
            well_formed {| core := {| constructor := poolConstructor p;
                                      destructor := poolDestructor;
                                      maxSize := MaxConns config;
                                      idleResources := []; acquiredResources := [];
                                      closed := c; nextID := n |};
                           closeChan := ch; env := v' |}).
  { intros n c ch v'. split; [apply NoDup_nil_2|apply Forall_nil_2]. }
  apply Z.ltb_lt in Hmax as Hroom.
  destruct (LazyConnect config) eqn:Hlazy; cbn [negb].
  - eexists (inr p), _. split; [reflexivity|].
    cbn [env core set_env go goroutines acquiredResources puddle_NewPool maxSize
         constructor destructor log closed closeChan idleResources].
    rewrite Hdes.
    split; [reflexivity|]. split; [reflexivity|]. split; [reflexivity|].
    split; [reflexivity|]. split; [reflexivity|]. split; [apply Hwf0|].
    now repeat split.
  - unfold puddle_Acquire.
    cbn [env core set_env go puddle_NewPool closed idleResources].
    destruct (ctx_err ctx) as [err|] eqn:Hctx.
    + eexists (inl err), _. split; [reflexivity|].
      cbn [env core set_env go goroutines acquiredResources puddle_NewPool maxSize
           constructor destructor log closed closeChan idleResources set_core set_closed
           set_resources app destroy_all].
      rewrite Hdes.
      split; [reflexivity|]. split; [reflexivity|]. split; [reflexivity|].
      split; [reflexivity|]. split; [reflexivity|]. split; [apply Hwf0|].
      split; [reflexivity|].
      split; [reflexivity|]. split; [reflexivity|]. split; [reflexivity|].
      split; [reflexivity|]. left. now split.
    + unfold TotalResources at 1.
      cbn [core puddle_NewPool idleResources acquiredResources length maxSize Nat.add].
      change (Z.of_nat 0) with 0. rewrite Hroom.
      unfold construct.
      cbn [core env set_env go puddle_NewPool constructor ext].
      destruct (poolConstructor p ctx (ext v)) as [[err|cr] e] eqn:Hcons.
      * eexists (inl err), _. split; [reflexivity|].
        cbn [env core set_env go goroutines acquiredResources puddle_NewPool maxSize
             constructor destructor log closed closeChan idleResources set_core set_closed
             set_resources app destroy_all emit set_ext ext].
        rewrite Hdes2, Hfac.
        split; [reflexivity|]. split; [reflexivity|]. split; [reflexivity|].
        split; [reflexivity|]. split; [reflexivity|]. split; [apply Hwf0|].
        split; [reflexivity|].
        split; [reflexivity|]. split; [reflexivity|]. split; [reflexivity|].
        split; [reflexivity|]. right. now repeat split.
      * eexists (inr p), _. split; [reflexivity|].
        unfold Resource_Release, newResource.
        cbn [env core set_env go goroutines acquiredResources puddle_NewPool maxSize
             constructor destructor log closed closeChan idleResources set_core set_closed
             set_resources app emit set_ext ext bump_nextID nextID clock
             remove_res entries_of List.filter same_res res_id negb map touch Nat.eqb].
        rewrite Hdes2, Hfac.
        split; [reflexivity|]. split; [reflexivity|]. split; [reflexivity|].
        split; [reflexivity|]. split; [reflexivity|].
        split; [split; [apply NoDup_singleton|apply Forall_singleton; cbn; lia]|].
        split; [reflexivity|].
        split; [reflexivity|]. split; [reflexivity|]. split; [reflexivity|].
        eexists. split; [reflexivity|]. now repeat split.
Qed.





(** X10. The period [ParseConfig] reads for [pool_health_check_period] is
    the period of the health maintainer's ticker, unchecked: for a pool
    [ConnectConfig] returns on the parsed configuration, the maintainer is
    launched; when the key is absent it runs its loop, on the default
    period; when the key is present with a duration that parses, that
    duration is the period, and [backgroundHealthCheck] panics in
    [time.NewTicker] when it is zero or negative and runs its loop
    otherwise. *)
Theorem health_check_period_reaches_the_ticker ctx (connString : string)
    (cc : pgx_ConnConfig) (cfg : Config E) (v : Env E) p w :
  pgx_ParseConfig connString = inr cc ->
  ParseConfig connString = inr cfg ->
  ConnectConfig ctx cfg v = ConnectDone (inr p) w ->
  In GoBackgroundHealthCheck (goroutines (env w))
  /\ (RuntimeParams cc !! "pool_health_check_period" = None ->
      forall (signals : list signal) w0,
        backgroundHealthCheck p signals w0 = inr (healthLoop p signals w0))
  /\ (forall (s : string) (d : Z),
        RuntimeParams cc !! "pool_health_check_period" = Some s ->
        time_ParseDuration s = inr d ->
        healthCheckPeriod p = d
        /\ forall (signals : list signal) w0,
             backgroundHealthCheck p signals w0
             = if d <=? 0 then inl "non-positive interval for NewTicker"
               else inr (healthLoop p signals w0)).
Proof.
  intros Hpgx Hparse Hrun.
  destruct (ParseConfig_fields connString cfg Hparse)
    as (cc' & Hpgx' & Hcfg & Hmax & _ & _ & _ & _ & _ & Hperiod).
  rewrite Hpgx in Hpgx'. injection Hpgx' as <-.
  assert (Hflag : createdByParseConfig cfg = true) by (now rewrite Hcfg).
  destruct (ConnectConfig_cases ctx cfg v Hflag ltac:(lia))
    as (a & w1 & Hrun1 & Hgo & _ & _ & _ & _ & _ & _ & Hcases).
  rewrite Hrun in Hrun1. injection Hrun1 as <- <-.
  destruct Hcases as (-> & _).
  split; [rewrite Hgo; apply in_or_app; right; now left|].
  unfold backgroundHealthCheck. cbn [ConnectConfig_pool healthCheckPeriod].
  split.
  - intros Hnone signals w0.
    assert (Hdefault : HealthCheckPeriod cfg = defaultHealthCheckPeriod).
    { rewrite Hcfg. unfold parsed_config. cbn [HealthCheckPeriod]. now rewrite Hnone. }
    rewrite Hdefault. reflexivity.
  - intros s d Hs Hd. specialize (Hperiod s Hs). rewrite Hd in Hperiod.
    injection Hperiod as ->. split; reflexivity.
Qed.

End ConnectProperties.

(** ** The health maintainer as a whole *)

Section HealthProperties.
Context {E : Type}.
Implicit Types (p : Pool E) (w : World E) (ctx : Context) (r : Resource).

Lemma factory_calls_app (l k : list event) :
  factory_calls (l ++ k) = (factory_calls l + factory_calls k)%nat.
Proof. unfold factory_calls. now rewrite List.filter_app, length_app. Qed.

Lemma destructor_calls_app (l k : list event) :
  destructor_calls (l ++ k) = (destructor_calls l + destructor_calls k)%nat.
Proof. unfold destructor_calls. now rewrite List.filter_app, length_app. Qed.

Lemma calls_of_launches (g : goroutine) (n : nat) :
  factory_calls (repeat (EvGo g) n) = 0%nat /\ destructor_calls (repeat (EvGo g) n) = 0%nat.
Proof. induction n as [|n IH]; [now split|exact IH]. Qed.

(** The events of a scan: no factory call, and one destructor call for each
    resource the scan does not keep. *)
Lemma calls_of_scan p (now : Z) (rs : list Resource) :
  factory_calls (map (scan_event p now) rs) = 0%nat
  /\ (destructor_calls (map (scan_event p now) rs)
      + length (List.filter (scan_keeps p now) rs) = length rs)%nat.
Proof.
  induction rs as [|r rs [IHf IHd]]; [now split|].
  cbn [map List.filter]. unfold scan_event at 1 3, scan_keeps at 1.
  unfold factory_calls, destructor_calls in *.
  destruct (scan_action_of p now r); cbn [List.filter length]; split; lia.
Qed.

Lemma checkIdleLoop_nextID p (now : Z) (rs : list Resource) :
  forall w, nextID (core (checkIdleLoop p now rs w)) = nextID (core w).
Proof.
  induction rs as [|r rs IH]; intros w; [reflexivity|].
  cbn [checkIdleLoop].
  destruct (maxConnLifetime p <? now - creationTime r); [now rewrite IH|].
  destruct (maxConnIdleTime p <? Resource_IdleDuration r w); now rewrite IH.
Qed.

Lemma sublist_filter_list {A : Type} (f : A -> bool) (l : list A) :
  List.filter f l `sublist_of` l.
Proof.
  induction l as [|x l IH]; [constructor|].
  cbn [List.filter]. destruct (f x); [now apply sublist_skip|now apply sublist_cons].
Qed.

Lemma sublist_ids (l k : list Resource) :
  l `sublist_of` k -> map res_id l `sublist_of` map res_id k.
Proof.
  induction 1 as [|x l k _ IH|x l k _ IH]; cbn [map];
    [constructor|now apply sublist_skip|now apply sublist_cons].
Qed.

Lemma Forall_of_sublist {A : Type} (P : A -> Prop) (l k : list A) :
  l `sublist_of` k -> Forall P k -> Forall P l.
Proof.
  induction 1 as [|x l k _ IH|x l k _ IH]; intros Hall; [constructor| |].
  - apply Forall_cons in Hall as [Hx Hall]. apply Forall_cons. split; [exact Hx|now apply IH].
  - apply Forall_cons in Hall as [_ Hall]. now apply IH.
Qed.

(** A part of an accounting in order is in order. *)
Lemma well_formed_sublist w w' :
  well_formed w ->
  nextID (core w') = nextID (core w) ->
  acquiredResources (core w') ++ idleResources (core w')
  `sublist_of` acquiredResources (core w) ++ idleResources (core w) ->
  well_formed w'.
Proof.
  intros [Hdistinct Hfresh] Hnext Hsub.
  unfold well_formed, distinct_resources, fresh_ids in *. rewrite Hnext. split.
  - eapply sublist_NoDup; [exact Hdistinct|]. now apply sublist_ids.
  - now apply (Forall_of_sublist _ _ _ Hsub).
Qed.

(** One tick of the health maintainer keeps the accounting in order. *)
Lemma healthTick_accounting p w :
  well_formed w ->
  let w' := healthTick p w in
  well_formed w'
  /\ acquiredResources (core w') = acquiredResources (core w)
  /\ idleResources (core w') = List.filter (scan_keeps p (clock (env w))) (idleResources (core w))
  /\ factory_calls (log (env w')) = factory_calls (log (env w))
  /\ (destructor_calls (log (env w')) + length (idleResources (core w'))
      = destructor_calls (log (env w)) + length (idleResources (core w)))%nat
  /\ maxSize (core w') = maxSize (core w)
  /\ closed (core w') = closed (core w)
  /\ clock (env w') = clock (env w).
Proof.
  intros Hwf. pose proof Hwf as [Hdistinct Hfresh]. cbn zeta. unfold healthTick.
  pose proof (checkIdleLoop_scan p (clock (env w)) (idleResources (core w))
                (snd (puddle_AcquireAllIdle w)) (acquiredResources (core w))
                eq_refl eq_refl Hdistinct) as Hscan.
  cbn zeta in Hscan.
  pose proof (checkIdleLoop_nextID p (clock (env w)) (idleResources (core w))
                (snd (puddle_AcquireAllIdle w))) as Hnext.
  change (checkIdleLoop p (clock (env w)) (idleResources (core w))
            (snd (puddle_AcquireAllIdle w)))
    with (checkIdleConnsHealth p w) in Hscan, Hnext.
  destruct Hscan as (Hacq & Hidle & Hlog & Hgo & Hclock & Hsize & Hclosed).
  cbn [puddle_AcquireAllIdle snd core env set_core set_resources idleResources app log
       goroutines maxSize closed nextID] in Hidle, Hlog, Hgo, Hsize, Hclosed, Hnext.
  destruct (checkMinConns_launches_int32 p (checkIdleConnsHealth p w))
    as (Hcore & _ & _ & Hclock' & Hlog' & _).
  cbn zeta in *. rewrite Hcore, Hlog', Hlog, Hclock', Hacq, Hidle, Hsize, Hclosed.
  destruct (calls_of_scan p (clock (env w)) (idleResources (core w))) as [Hf Hd].
  destruct (calls_of_launches GoCreateResource
              (Z.to_nat (int32 (minConns p - Pool_TotalConns (checkIdleConnsHealth p w)))))
    as [Hf' Hd'].
  split; [|split; [reflexivity|split; [reflexivity|split; [|split; [|now repeat split]]]]].
  - apply (well_formed_sublist w); [exact Hwf|now rewrite Hcore|].
    rewrite Hcore, Hacq, Hidle. apply sublist_app; [reflexivity|].
    apply sublist_filter_list.
  - rewrite !factory_calls_app, Hf, Hf'. lia.
  - rewrite !destructor_calls_app, Hd'. lia.
Qed.


Lemma healthLoop_stops_at_close p (signals rest : list signal) w :
  healthLoop p (signals ++ SigClose :: rest) w = healthLoop p signals w.
Proof.
  revert w. induction signals as [|[|] signals IH]; intros w; [reflexivity|reflexivity|].
  cbn [app healthLoop]. apply IH.
Qed.

(** X9. The loop of [backgroundHealthCheck], on an accounting that is in
    order, for any signals: the accounting is in order afterwards; the
    leased resources are untouched; the idle resources left are idle
    resources of before, in their order; the maintainer itself never calls
    the factory; the destructor ran exactly once for every idle resource
    that is gone; the pool is open or closed as it was; and the loop stops
    at the close signal: what is signalled after it has no effect. *)
Theorem health_maintainer_keeps_the_accounting p (signals : list signal) w :
  well_formed w ->
  let w' := healthLoop p signals w in
  well_formed w'
  /\ acquiredResources (core w') = acquiredResources (core w)
  /\ idleResources (core w') `sublist_of` idleResources (core w)
  /\ factory_calls (log (env w')) = factory_calls (log (env w))
  /\ (destructor_calls (log (env w')) + length (idleResources (core w'))
      = destructor_calls (log (env w)) + length (idleResources (core w)))%nat
  /\ closed (core w') = closed (core w)
  /\ (forall rest : list signal, healthLoop p (signals ++ SigClose :: rest) w = w').
Proof.
  intros Hwf. cbn zeta.
  assert (Hloop : well_formed (healthLoop p signals w)
            /\ acquiredResources (core (healthLoop p signals w)) = acquiredResources (core w)
            /\ idleResources (core (healthLoop p signals w))
               `sublist_of` idleResources (core w)
            /\ factory_calls (log (env (healthLoop p signals w)))
               = factory_calls (log (env w))
            /\ (destructor_calls (log (env (healthLoop p signals w)))
                + length (idleResources (core (healthLoop p signals w)))
                = destructor_calls (log (env w)) + length (idleResources (core w)))%nat
            /\ maxSize (core (healthLoop p signals w)) = maxSize (core w)
            /\ closed (core (healthLoop p signals w)) = closed (core w)).
  { revert w Hwf. induction signals as [|[|] signals IH]; intros w Hwf.
    - cbn [healthLoop]. split; [exact Hwf|]. now repeat split.
    - cbn [healthLoop]. split; [exact Hwf|]. now repeat split.
    - cbn [healthLoop].
      destruct (healthTick_accounting p w Hwf) as (T1 & T2 & T3 & T4 & T5 & T6 & T7 & _).
      destruct (IH _ T1) as (I1 & I2 & I3 & I4 & I5 & I6 & I7).
      split; [exact I1|]. split; [now rewrite I2|].
      split; [etransitivity; [exact I3|]; rewrite T3; apply sublist_filter_list|].
      split; [now rewrite I4|]. split; [now rewrite I5|].
      split; [now rewrite I6|now rewrite I7]. }
  destruct Hloop as (L1 & L2 & L3 & L4 & L5 & L6 & L7).
  split; [exact L1|]. split; [exact L2|]. split; [exact L3|]. split; [exact L4|].
  split; [exact L5|]. split; [exact L7|].
  intros rest. apply healthLoop_stops_at_close.
Qed.

End HealthProperties.

(** ** The operations on the sample world *)

(** X2 on a connection string with a negative minimum. *)
Lemma parsed_sizes_fit_an_int32 :
  exists cfg : Config sample_ext,
    ParseConfig "host=db pool_max_conns=3 pool_min_conns=-1 pool_max_conn_lifetime=90s"
    = inr cfg
    /\ 1 <= MaxConns cfg < 2 ^ 31
    /\ - 2 ^ 31 <= MinConns cfg < 2 ^ 31
    /\ BeforeAcquire cfg = None
    /\ LazyConnect cfg = false.
Proof.
  destruct (ParseConfig (E:=sample_ext)
              "host=db pool_max_conns=3 pool_min_conns=-1 pool_max_conn_lifetime=90s")
    as [e|cfg] eqn:Hparse; [vm_compute in Hparse; discriminate|].
  exists cfg. split; [reflexivity|].
  destruct (ParseConfig_result_is_in_range _ cfg Hparse)
    as (_ & Hlazy & _ & _ & Hhook & _ & Hmax & Hmin & _).
  split; [exact Hmax|]. split; [exact Hmin|]. split; [exact Hhook|exact Hlazy].
Defined.


(** The pool of the health maintainer after two hours is in order. *)
Lemma health_world_in_order : well_formed health_world.
Proof. split; by_computation. Qed.


(** X6 on the same pool: a statement that fails gives its lease back. *)
Lemma failed_statement_returns_the_lease :
  well_formed health_world
  /\ exists w',
       Exec 1 (pool_of health_config) context_Background "" [] health_world
       = Some (Done (None, Some (ErrOpaque "empty query")) w')
       /\ lease_returned health_world w'.
Proof.
  pose proof health_world_in_order as Hwf.
  split; [exact Hwf|].
  destruct (short_lived_operations_return_the_lease 1 (pool_of health_config)
              context_Background health_world Hwf) as (Hexec & _ & _).
  specialize (Hexec "" []). revert Hexec.
  destruct (Acquire 1 (pool_of health_config) context_Background health_world)
    as [[[err|c] w1|w1]|] eqn:Hacq;
    [vm_compute in Hacq; discriminate Hacq| |vm_compute in Hacq; discriminate Hacq
    |vm_compute in Hacq; discriminate Hacq].
  intros (w' & Hrun & Hret). exists w'. split; [exact Hrun|exact Hret].
Defined.



(** X9 on the same pool: two ticks and a close signal; the maintainer
    constructs nothing. *)
Lemma two_ticks_construct_nothing :
  well_formed health_world
  /\ factory_calls (log (env (healthLoop (pool_of health_config)
                                         [SigTick; SigTick; SigClose; SigTick]
                                         health_world)))
     = factory_calls (log (env health_world))
  /\ well_formed (healthLoop (pool_of health_config) [SigTick; SigTick] health_world).
Proof.
  pose proof health_world_in_order as Hwf.
  split; [exact Hwf|].
  destruct (health_maintainer_keeps_the_accounting (pool_of health_config)
              [SigTick; SigTick] health_world Hwf)
    as (Hwf' & _ & _ & Hfactory & _ & _ & Hclose).
  split; [|exact Hwf'].
  change [SigTick; SigTick; SigClose; SigTick]
    with ([SigTick; SigTick] ++ SigClose :: [SigTick]).
  rewrite Hclose. exact Hfactory.
Defined.

(** X10 on a health-check period of zero, which [ParseConfig] accepts. *)
Lemma zero_health_check_period_panics :
  exists (cfg : Config sample_ext) (p : Pool sample_ext) (w : World sample_ext),
    ParseConfig "host=db pool_health_check_period=0" = inr cfg
    /\ ConnectConfig context_Background cfg sample_env = ConnectDone (inr p) w
    /\ forall (signals : list signal) (w0 : World sample_ext),
         backgroundHealthCheck p signals w0 = inl "non-positive interval for NewTicker".
Proof.
  destruct (pgx_ParseConfig "host=db pool_health_check_period=0") as [e|cc] eqn:Hpgx;
    [vm_compute in Hpgx; discriminate|].
  destruct (ParseConfig (E:=sample_ext) "host=db pool_health_check_period=0")
    as [e|cfg] eqn:Hparse; [vm_compute in Hparse; discriminate|].
  assert (Hkey : RuntimeParams cc !! "pool_health_check_period" = Some "0").
  { vm_compute in Hpgx. injection Hpgx as <-. vm_compute. reflexivity. }
  assert (Hrun : exists p w,
             ConnectConfig context_Background cfg sample_env = ConnectDone (inr p) w).
  { vm_compute in Hparse. injection Hparse as <-. eexists _, _. vm_compute. reflexivity. }
  destruct Hrun as (p & w & Hrun).
  destruct (health_check_period_reaches_the_ticker context_Background _ cc cfg sample_env
              p w Hpgx Hparse Hrun) as (_ & _ & Hset).
  destruct (Hset "0" 0 Hkey eq_refl) as [_ Hpanic].
  exists cfg, p, w. split; [reflexivity|]. split; [exact Hrun|exact Hpanic].
Defined.


(** X12 on the same pool: a transaction that begins keeps its lease, and a
    query that fails gives it back. *)
Lemma transaction_keeps_and_failed_query_returns :
  well_formed health_world
  /\ (exists tx w',
        Begin 1 (pool_of health_config) context_Background health_world
        = Some (Done (Some tx, None) w')
        /\ lease_kept health_world w' (Tx_c tx))
  /\ (exists w',
        Query 1 (pool_of health_config) context_Background "" [] health_world
        = Some (Done (ErrRows (ErrOpaque "empty query"), Some (ErrOpaque "empty query")) w')
        /\ lease_returned health_world w').
Proof.
  pose proof health_world_in_order as Hwf.
  split; [exact Hwf|].
  destruct (long_lived_operations_keep_the_accounting 1 (pool_of health_config)
              context_Background health_world Hwf) as (Hquery & _ & _ & Hbegin).
  split.
  - assert (Hrun : exists tx w',
               Begin 1 (pool_of health_config) context_Background health_world
               = Some (Done (Some tx, None) w'))
      by (eexists _, _; vm_compute; reflexivity).
    destruct Hrun as (tx & w' & Hrun).
    exists tx, w'. split; [exact Hrun|]. exact (Hbegin _ Hrun).
  - assert (Hrun : exists w',
               Query 1 (pool_of health_config) context_Background "" [] health_world
               = Some (Done (ErrRows (ErrOpaque "empty query"),
                             Some (ErrOpaque "empty query")) w'))
      by (eexists; vm_compute; reflexivity).
    destruct Hrun as (w' & Hrun).
    exists w'. split; [exact Hrun|]. exact (Hquery _ _ _ Hrun).
Defined.
